(** * demiurge-matrix: the memory store, the memory tools and the agent loop

    A shallow embedding of [src/lib/memory-store.ts], [src/lib/memory-tools.ts]
    and [src/lib/agent.ts], followed by the properties the specification states
    about them.

    Conventions of the embedding.
    - A JavaScript string that is inspected character by character (memory
      content, queries, message text) is the list of its UTF-16 code units.
      Identifiers, category names and tool names are plain strings.
    - A JavaScript number is an integer ([Z]); fractional values are outside
      the model.
    - [Date.now()] and freshly generated identifiers are arguments of the
      operations that read them.
    - Every awaited operation runs to completion before the next one starts;
      a failure of the browser's storage engine itself is outside the model. *)

From Stdlib Require Import ZArith NArith String Ascii.
From stdpp Require Import gmap strings list fin_maps pretty sorting.

Local Open Scope Z_scope.

(** ** JavaScript strings as code units *)

Abbreviation jsstring := (list N).

Module Js.

(** [s.startsWith(p)] on code units. *)
Fixpoint startsWith (s p : jsstring) : bool :=
  match p, s with
  | [], _ => true
  | _ :: _, [] => false
  | c :: p', d :: s' => (c =? d)%N && startsWith s' p'
  end.

(** [s.includes(p)]. *)
Fixpoint includes (s p : jsstring) : bool :=
  startsWith s p ||
  match s with
  | [] => false
  | _ :: s' => includes s' p
  end.

(** [arr.slice(0, e)], with JavaScript's reading of a negative end. *)
Definition sliceTo {A} (e : Z) (l : list A) : list A :=
  if e <? 0 then take (Z.to_nat (Z.max 0 (Z.of_nat (length l) + e))) l
  else take (Z.to_nat e) l.

(** The character class [一-龥]. *)
Definition isChinese (c : N) : bool := ((0x4e00 <=? c) && (c <=? 0x9fa5))%N.

(** The character class [a-zA-Z0-9]. *)
Definition isAlnum (c : N) : bool :=
  (((0x61 <=? c) && (c <=? 0x7a)) || ((0x41 <=? c) && (c <=? 0x5a))
   || ((0x30 <=? c) && (c <=? 0x39)))%N.

(** The code units of an ASCII literal. *)
Fixpoint ofString (s : string) : jsstring :=
  match s with
  | EmptyString => []
  | String a s' => Ascii.N_of_ascii a :: ofString s'
  end.

(** [[...new Set(xs)]]: the first occurrence of every element, in order. *)
Fixpoint dedupeFrom {A} `{EqDecision A} (seen xs : list A) : list A :=
  match xs with
  | [] => []
  | x :: xs' =>
      if decide (x ∈ seen) then dedupeFrom seen xs'
      else x :: dedupeFrom (x :: seen) xs'
  end.

Definition dedupe {A} `{EqDecision A} (xs : list A) : list A := dedupeFrom [] xs.

(** A stable sort: [before a b] says that [a] may stay in front of [b].
    [Array.prototype.sort] is stable, so with [before a b := cmp(a, b) <= 0]
    this is the array after [sort(cmp)]. *)
Fixpoint insertSorted {A} (before : A → A → bool) (x : A) (l : list A) : list A :=
  match l with
  | [] => [x]
  | y :: l' => if before x y then x :: y :: l' else y :: insertSorted before x l'
  end.

Definition stableSort {A} (before : A → A → bool) (l : list A) : list A :=
  foldr (insertSorted before) [] l.

End Js.

(** ** What the host (browser and libraries) provides

    [toLowerCase] and [trim] are the methods of [String.prototype];
    [segmenter] is [Intl.Segmenter('zh-CN', {granularity: 'word'})] when the
    browser has it; [flexSearch idx q limit] is Flexsearch's
    [Index.search(q, {limit})] on an index holding the documents [idx]. *)

Class Host := {
  toLowerCase : jsstring → jsstring;
  trim : jsstring → jsstring;
  segmenter : option (jsstring → list jsstring);
  flexSearch : gmap string jsstring → jsstring → Z → list string;
}.

(** Flexsearch only returns identifiers of documents that were added to the
    index and not removed since. *)
Class HostLaws (H : Host) : Prop := {
  flexSearch_sound :
    ∀ (idx : gmap string jsstring) q limit k,
      k ∈ flexSearch idx q limit → is_Some (idx !! k);
}.

(** ** memory-store.ts *)

Module MemoryStore.

Record StoredMemory := mkMemory {
  id : string;
  content : jsstring;
  category : string;
  importance : Z;
  keywords : list jsstring;
  createdAt : Z;
  lastAccessedAt : Z;
  accessCount : Z;
  isValid : Z;
  metadata : option (list (string * option jsstring));
}.

#[global] Instance StoredMemory_eq_dec : EqDecision StoredMemory.
Proof. solve_decision. Defined.

Record MemorySearchResult := mkResult {
  memory : StoredMemory;
  relevanceScore : Z;
}.

Definition setValid (v : Z) (m : StoredMemory) : StoredMemory :=
  mkMemory (id m) (content m) (category m) (importance m) (keywords m)
    (createdAt m) (lastAccessedAt m) (accessCount m) v (metadata m).

Definition touch (now : Z) (m : StoredMemory) : StoredMemory :=
  mkMemory (id m) (content m) (category m) (importance m) (keywords m)
    (createdAt m) now (accessCount m + 1) (isValid m) (metadata m).

(** The part of the instance that the operations read and write: the object
    store of the IndexedDB database (records under their [id], the key path),
    the Flexsearch index (the documents it holds), the [indexedMemories] cache
    and the [indexInitialized] flag. *)
Record Store := mkStore {
  db : gmap string StoredMemory;
  searchIndex : option (gmap string jsstring);
  indexedMemories : gmap string StoredMemory;
  indexInitialized : bool;
}.

(** A newly constructed [MemoryStore] over a database [d] left by earlier
    sessions. *)
Definition fresh (d : gmap string StoredMemory) : Store := mkStore d None ∅ false.

Section WithHost.
Context `{H : Host}.

(** [chineseTokenizer]. *)
Definition keepSegment (seg : jsstring) : option jsstring :=
  let word := toLowerCase (trim seg) in
  if (1 <=? length word)%nat && existsb (λ c, Js.isChinese c || Js.isAlnum c) word then
    if existsb Js.isChinese word || (2 <=? length word)%nat then Some word else None
  else None.

Definition flushEnglish (buffer : jsstring) (tokens : list jsstring) : list jsstring :=
  if (2 <=? length buffer)%nat then tokens ++ [toLowerCase buffer] else tokens.

Fixpoint fallbackTokens (text buffer : jsstring) (tokens : list jsstring) : list jsstring :=
  match text with
  | [] => flushEnglish buffer tokens
  | c :: text' =>
      if Js.isChinese c then fallbackTokens text' [] (flushEnglish buffer tokens ++ [[c]])
      else if Js.isAlnum c then fallbackTokens text' (buffer ++ [c]) tokens
      else fallbackTokens text' [] (flushEnglish buffer tokens)
  end.

Definition chineseTokenizer (text : jsstring) : list jsstring :=
  Js.dedupe
    match segmenter with
    | Some segment => omap keepSegment (segment text)
    | None => fallbackTokens text [] []
    end.

Definition extractKeywords (c : jsstring) : list jsstring := chineseTokenizer c.

(** The records of the object store, and a scan of a secondary index with a
    ['prev'] cursor: descending index key, then descending primary key. *)
Definition records (d : gmap string StoredMemory) : list StoredMemory :=
  (map_to_list d).*2.

Definition idDesc (a b : StoredMemory) : bool := String.leb (id b) (id a).

Definition keyDesc (key : StoredMemory → Z) (a b : StoredMemory) : bool :=
  (key b <? key a) || ((key a =? key b) && idDesc a b).

Definition scanPrev (key : StoredMemory → Z) (d : gmap string StoredMemory)
  : list StoredMemory :=
  Js.stableSort (keyDesc key) (records d).

Definition scanCategoryPrev (cat : string) (d : gmap string StoredMemory)
  : list StoredMemory :=
  Js.stableSort idDesc (filter (λ m, category m = cat) (records d)).

Definition valid (m : StoredMemory) : Prop := isValid m = 1.

#[global] Instance valid_dec m : Decision (valid m).
Proof. unfold valid. apply _. Defined.

(** The cursor loop shared by [getByCategory], [getMostImportant] and
    [getRecent]: push valid records while [results.length < limit]. *)
Definition collect (limit : Z) (scan : list StoredMemory) : list StoredMemory :=
  take (Z.to_nat limit) (filter valid scan).

Definition validEntries (d : gmap string StoredMemory) : gmap string StoredMemory :=
  filter (λ kv, valid kv.2) d.

Definition initSearchIndex (st : Store) : Store :=
  if indexInitialized st then st
  else mkStore (db st) (Some (content <$> validEntries (db st)))
         (validEntries (db st)) true.

Definition addToSearchIndex (m : StoredMemory) (st : Store) : Store :=
  match searchIndex st with
  | Some idx =>
      if decide (valid m) then
        mkStore (db st) (Some (<[id m := content m]> idx))
          (<[id m := m]> (indexedMemories st)) (indexInitialized st)
      else st
  | None => st
  end.

Definition removeFromSearchIndex (i : string) (st : Store) : Store :=
  match searchIndex st with
  | Some idx =>
      mkStore (db st) (Some (delete i idx)) (delete i (indexedMemories st))
        (indexInitialized st)
  | None => st
  end.

Definition clampImportance (i : Z) : Z := Z.max 1 (Z.min 10 i).

Definition putRecord (m : StoredMemory) (st : Store) : Store :=
  mkStore (<[id m := m]> (db st)) (searchIndex st) (indexedMemories st)
    (indexInitialized st).

(** [store]: [newId] is what [generateId()] returns and [now] is [Date.now()].
    [None] is the rejected promise of [store.add] on a key that exists. *)
Definition store (c : jsstring) (cat : string) (imp : option Z)
    (meta : option (list (string * option jsstring))) (newId : string) (now : Z)
    (st : Store) : option StoredMemory * Store :=
  let st1 := initSearchIndex st in
  let m := mkMemory newId c cat (clampImportance (default 5 imp))
             (extractKeywords c) now now 0 1 meta in
  match db st1 !! newId with
  | Some _ => (None, st1)
  | None => (Some m, addToSearchIndex m (putRecord m st1))
  end.

Definition msPerDay : Z := 1000 * 60 * 60 * 24.

(** [Math.floor(7 - daysSinceAccess)] when [daysSinceAccess < 7]. *)
Definition recencyBonus (now : Z) (m : StoredMemory) : Z :=
  let elapsed := now - lastAccessedAt m in
  if elapsed <? 7 * msPerDay then 7 + (- elapsed) `div` msPerDay else 0.

Definition relevance (queryLower : jsstring) (now : Z) (i : nat) (m : StoredMemory) : Z :=
  100 - Z.of_nat i * 5
  + (if Js.includes (toLowerCase (content m)) queryLower then 30 else 0)
  + importance m * 3
  + recencyBonus now m.

Definition scoreHit (cache : gmap string StoredMemory) (queryLower : jsstring)
    (now : Z) (i : nat) (memoryId : string) : option MemorySearchResult :=
  match cache !! memoryId with
  | Some m =>
      if decide (valid m) then Some (mkResult m (relevance queryLower now i m))
      else None
  | None => None
  end.

Definition byRelevance (a b : MemorySearchResult) : bool :=
  relevanceScore b <=? relevanceScore a.

Definition search (query : jsstring) (limit : Z) (now : Z) (st : Store)
  : list MemorySearchResult * Store :=
  let st1 := initSearchIndex st in
  match searchIndex st1 with
  | None => ([], st1)
  | Some idx =>
      match trim query with
      | [] => ([], st1)
      | _ :: _ =>
          let searchResults := flexSearch idx query (limit * 2) in
          let results :=
            omap (λ o, o)
              (imap (scoreHit (indexedMemories st1) (toLowerCase query) now)
                 searchResults) in
          (Js.sliceTo limit (Js.stableSort byRelevance results), st1)
      end
  end.

Definition getByCategory (cat : string) (limit : Z) (st : Store) : list StoredMemory :=
  collect limit (scanCategoryPrev cat (db st)).

Definition getMostImportant (limit : Z) (st : Store) : list StoredMemory :=
  collect limit (scanPrev importance (db st)).

Definition getRecent (limit : Z) (st : Store) : list StoredMemory :=
  collect limit (scanPrev createdAt (db st)).

Definition recordAccess (i : string) (now : Z) (st : Store) : Store :=
  match db st !! i with
  | Some m =>
      let m' := touch now m in
      let st1 := putRecord m' st in
      if decide (is_Some (indexedMemories st !! i)) then
        mkStore (db st1) (searchIndex st1) (<[i := m']> (indexedMemories st1))
          (indexInitialized st1)
      else st1
  | None => st
  end.

Definition invalidate (i : string) (st : Store) : Store :=
  match db st !! i with
  | Some m => removeFromSearchIndex i (putRecord (setValid 0 m) st)
  | None => st
  end.

(** [delete]. *)
Definition delete_ (i : string) (st : Store) : Store :=
  removeFromSearchIndex i
    (mkStore (delete i (db st)) (searchIndex st) (indexedMemories st)
       (indexInitialized st)).

(** The [updates] argument of [update]: a field is [None] when [undefined]. *)
Record Updates := mkUpdates {
  u_content : option jsstring;
  u_importance : option Z;
  u_category : option string;
  u_isValid : option Z;
}.

Definition applyUpdates (u : Updates) (m : StoredMemory) : StoredMemory :=
  mkMemory (id m)
    (default (content m) (u_content u))
    (default (category m) (u_category u))
    (match u_importance u with Some i => clampImportance i | None => importance m end)
    (match u_content u with Some c => extractKeywords c | None => keywords m end)
    (createdAt m) (lastAccessedAt m) (accessCount m)
    (default (isValid m) (u_isValid u))
    (metadata m).

Definition contentChanged (u : Updates) (m : StoredMemory) : bool :=
  match u_content u with
  | Some c => negb (bool_decide (c = content m))
  | None => false
  end.

Definition reindex (changed : bool) (i : string) (m' : StoredMemory)
    (idx : option (gmap string jsstring)) : option (gmap string jsstring) :=
  match idx with
  | Some ix =>
      if changed then
        Some (if decide (valid m') then <[i := content m']> (delete i ix)
              else delete i ix)
      else Some ix
  | None => None
  end.

Definition update (i : string) (u : Updates) (st : Store)
  : option StoredMemory * Store :=
  match db st !! i with
  | Some m =>
      let m' := applyUpdates u m in
      let st1 := putRecord m' st in
      (Some m',
       mkStore (db st1)
         (reindex (contentChanged u m) i m' (searchIndex st1))
         (if decide (valid m') then <[i := m']> (indexedMemories st1)
          else delete i (indexedMemories st1))
         (indexInitialized st1))
  | None => (None, st)
  end.

Definition getCount (st : Store) : nat := size (validEntries (db st)).

Definition getById (i : string) (st : Store) : option StoredMemory := db st !! i.

Definition clearAll (st : Store) : Store :=
  mkStore ∅ (Some ∅) ∅ (indexInitialized st).

Definition close (st : Store) : Store := mkStore (db st) None ∅ false.

Definition rebuildSearchIndex (st : Store) : Store := initSearchIndex (close st).

End WithHost.

End MemoryStore.

(** ** memory-tools.ts *)

Module MemoryTools.
Import MemoryStore.

(** The calls a tool makes on the [memoryStore] singleton, in order. *)
Inductive StoreCall :=
| CallStore (c : jsstring) (cat : string) (imp : Z)
| CallSearch (query : jsstring) (limit : Z)
| CallGetByCategory (cat : string) (limit : Z)
| CallGetRecent (limit : Z)
| CallRecordAccess (i : string)
| CallInvalidate (i : string).

(** A tool body: it transforms the store and leaves the list of its calls. *)
Definition Op (A : Type) : Type := Store → A * Store * list StoreCall.

#[global] Instance Op_ret : MRet Op := λ A a st, (a, st, []).

#[global] Instance Op_bind : MBind Op := λ A B f m st,
  let '(a, st1, calls1) := m st in
  let '(b, st2, calls2) := f a st1 in
  (b, st2, calls1 ++ calls2).

Definition call {A} (c : StoreCall) (f : Store → A * Store) : Op A :=
  λ st, let '(a, st') := f st in (a, st', [c]).

Fixpoint forEach {A} (f : A → Op ()) (l : list A) : Op () :=
  match l with
  | [] => mret ()
  | x :: l' => f x ≫= λ _, forEach f l'
  end.

(** A tool reports failure either from its argument checks, with the error
    text it builds, or from the [catch] around its body. The display
    [message] of a result is presentation only and is left out. *)
Inductive Failure :=
| ValidationFailure (error : string)
| CaughtError.

Record FormattedMemory := mkFormatted {
  f_id : string;
  f_content : jsstring;
  f_category : string;
  f_importance : Z;
  f_createdAt : Z;
}.

(** The three reasons of [cleanup_memories]: duplicate content, outdated and
    rarely accessed, low-importance context. *)
Inductive Reason := DuplicateContent | Outdated | LowImportance.

Record Removal := mkRemoval {
  r_id : string;
  r_reason : Reason;
  r_content : jsstring;
}.

Inductive Output :=
| Failed (f : Failure)
| Stored (memoryId : string) (cat : string) (imp : Z)
| Recalled (memories : list FormattedMemory) (count : nat)
| Cleaned (removed : nat) (dryRun : bool) (details : list Removal).

Record ToolResult := mkToolResult {
  name : string;
  output : Output;
}.

Definition validCategories : list string :=
  ["fact"; "preference"; "event"; "correction"; "context"]%string.

Section WithHost.
Context `{H : Host}.

Definition opStore (c : jsstring) (cat : string) (imp : Z)
    (meta : option (list (string * option jsstring))) (newId : string) (now : Z)
  : Op (option StoredMemory) :=
  call (CallStore c cat imp) (store c cat (Some imp) meta newId now).

Definition opSearch (query : jsstring) (limit now : Z) : Op (list MemorySearchResult) :=
  call (CallSearch query limit) (search query limit now).

Definition opGetByCategory (cat : string) (limit : Z) : Op (list StoredMemory) :=
  call (CallGetByCategory cat limit) (λ st, (getByCategory cat limit st, st)).

Definition opGetRecent (limit : Z) : Op (list StoredMemory) :=
  call (CallGetRecent limit) (λ st, (getRecent limit st, st)).

Definition opRecordAccess (now : Z) (i : string) : Op () :=
  call (CallRecordAccess i) (λ st, ((), recordAccess i now st)).

Definition opInvalidate (i : string) : Op () :=
  call (CallInvalidate i) (λ st, ((), invalidate i st)).

(** *** store_memory *)

Record StoreMemoryArgs := mkStoreArgs {
  sa_content : option jsstring;
  sa_category : option string;
  sa_importance : option Z;
  sa_reason : option jsstring;
}.

Definition storeMemoryTool (args : StoreMemoryArgs) (newId : string) (now : Z)
  : Op ToolResult :=
  match sa_content args, sa_category args with
  | Some (c0 :: c'), Some (String a cat') =>
      let c := c0 :: c' in
      let cat := String a cat' in
      if decide (cat ∈ validCategories) then
        opStore c cat (default 5 (sa_importance args))
          (Some [("reason"%string, sa_reason args)]) newId now ≫= λ stored,
        mret
          match stored with
          | Some m =>
              mkToolResult "store_memory" (Stored (id m) (category m) (importance m))
          | None => mkToolResult "store_memory" (Failed CaughtError)
          end
      else
        mret (mkToolResult "store_memory"
                (Failed (ValidationFailure
                   "Invalid category. Must be one of: fact, preference, event, correction, context")))
  | _, _ =>
      mret (mkToolResult "store_memory"
              (Failed (ValidationFailure
                 "Missing required parameters: content and category")))
  end.

(** *** recall_memory *)

Record RecallMemoryArgs := mkRecallArgs {
  ra_query : option jsstring;
  ra_limit : option Z;
  ra_category : option string;
}.

Definition format (m : StoredMemory) : FormattedMemory :=
  mkFormatted (id m) (content m) (category m) (importance m) (createdAt m).

Definition recallMemoryTool (args : RecallMemoryArgs) (now : Z) : Op ToolResult :=
  let limit := default 5 (ra_limit args) in
  match ra_query args with
  | Some (q0 :: q') =>
      let query := q0 :: q' in
      (match ra_category args with
       | Some (String a cat') =>
           opGetByCategory (String a cat') 50 ≫= λ categoryMemories,
           mret (Js.sliceTo limit
                   (List.filter
                      (λ m, Js.includes (toLowerCase (content m)) (toLowerCase query))
                      categoryMemories))
       | _ =>
           opSearch query limit now ≫= λ results, mret (memory <$> results)
       end) ≫= λ memories,
      forEach (λ m, opRecordAccess now (id m)) memories ≫= λ _,
      mret (mkToolResult "recall_memory"
              (Recalled (format <$> memories) (length memories)))
  | _ =>
      mret (mkToolResult "recall_memory"
              (Failed (ValidationFailure "Missing required parameter: query")))
  end.

(** *** cleanup_memories *)

Record CleanupMemoriesArgs := mkCleanupArgs {
  ca_strategy : option string;
  ca_dryRun : option bool;
}.

Definition normalizeContent (c : jsstring) : jsstring :=
  take 50 (List.filter (λ u, Js.isChinese u || Js.isAlnum u) (toLowerCase c)).

(** [contentMap]: the groups in the order their keys were first seen. *)
Fixpoint addToGroup (key : jsstring) (m : StoredMemory)
    (groups : list (jsstring * list StoredMemory)) : list (jsstring * list StoredMemory) :=
  match groups with
  | [] => [(key, [m])]
  | (k, ms) :: rest =>
      if decide (k = key) then (k, ms ++ [m]) :: rest
      else (k, ms) :: addToGroup key m rest
  end.

Definition contentMap (allMemories : list StoredMemory)
  : list (jsstring * list StoredMemory) :=
  foldl (λ groups m, addToGroup (normalizeContent (content m)) m groups) [] allMemories.

Definition removal (reason : Reason) (m : StoredMemory) : Removal :=
  mkRemoval (id m) reason (take 30 (content m)).

Definition byImportance (a b : StoredMemory) : bool := importance b <=? importance a.

Definition duplicatesOfGroup (ms : list StoredMemory) : list Removal :=
  if (1 <? length ms)%nat then removal DuplicateContent <$> drop 1 (Js.stableSort byImportance ms)
  else [].

Definition findDuplicates (allMemories : list StoredMemory) : list Removal :=
  concat ((λ g, duplicatesOfGroup g.2) <$> contentMap allMemories).

Definition alreadyFlagged (toRemove : list Removal) (m : StoredMemory) : bool :=
  bool_decide (id m ∈ r_id <$> toRemove).

Definition isOutdated (now : Z) (m : StoredMemory) : bool :=
  (createdAt m <? now - 30 * 24 * 60 * 60 * 1000) && (accessCount m <? 3)
  && (importance m <=? 4) && negb (bool_decide (category m = "fact"%string)).

Definition isLowImportance (m : StoredMemory) : bool :=
  (importance m <=? 2) && (accessCount m <? 2)
  && bool_decide (category m = "context"%string).

(** One of the two later passes: skip what is flagged already, flag what the
    test selects. *)
Definition flagPass (test : StoredMemory → bool) (reason : Reason)
    (allMemories : list StoredMemory) (toRemove : list Removal) : list Removal :=
  foldl (λ acc m,
           if alreadyFlagged acc m then acc
           else if test m then acc ++ [removal reason m] else acc)
    toRemove allMemories.

Definition isStrategy (strategy wanted : string) : bool :=
  bool_decide (strategy = wanted) || bool_decide (strategy = "all"%string).

Definition candidates (strategy : string) (now : Z) (allMemories : list StoredMemory)
  : list Removal :=
  let r1 := if isStrategy strategy "duplicates" then findDuplicates allMemories else [] in
  let r2 := if isStrategy strategy "outdated"
            then flagPass (isOutdated now) Outdated allMemories r1 else r1 in
  if isStrategy strategy "low_importance"
  then flagPass isLowImportance LowImportance allMemories r2 else r2.

Definition cleanupMemoriesTool (args : CleanupMemoriesArgs) (now : Z) : Op ToolResult :=
  let strategy := default "all"%string (ca_strategy args) in
  let dryRun := default false (ca_dryRun args) in
  opGetRecent 100 ≫= λ allMemories,
  let toRemove := candidates strategy now allMemories in
  (if negb dryRun && (0 <? length toRemove)%nat
   then forEach (λ item, opInvalidate (r_id item)) toRemove
   else mret ()) ≫= λ _,
  mret (mkToolResult "cleanup_memories" (Cleaned (length toRemove) dryRun toRemove)).

End WithHost.

End MemoryTools.

(** ** agent.ts *)

Module Agent.
Import MemoryStore.

Inductive ChatRole := system | user | assistant | tool.

#[global] Instance ChatRole_eq_dec : EqDecision ChatRole.
Proof. solve_decision. Defined.

(** An entry of [tool_calls]: the call identifier, [function.name] and the
    JSON text of [function.arguments]. *)
Record RawToolCall := mkRawToolCall {
  tc_id : option string;
  fn_name : string;
  fn_arguments : jsstring;
}.

(** [ChatMessage] of the chat client. *)
Record ChatMessage := mkMessage {
  role : ChatRole;
  content : jsstring;
  msgName : option string;
  toolCallId : option string;
  tool_call_id : option string;
  tool_calls : option (list RawToolCall);
}.

(** Untyped values: tool arguments and tool outputs. *)
#[local] Set Warnings "-register-all".
Inductive JsValue :=
| JsUndefined
| JsNull
| JsBool (b : bool)
| JsNum (n : Z)
| JsStr (s : jsstring)
| JsArr (items : list JsValue)
| JsObj (fields : gmap string JsValue).

Inductive MemoryRole := MemSystem | MemUser | MemAssistant | MemTool | MemMemory.

Record MemoryEntry := mkEntry {
  e_role : MemoryRole;
  e_content : jsstring;
  e_timestamp : Z;
  e_metadata : option JsValue;
}.

(** The argument of [addMemory]: the timestamp may be missing. *)
Record MemoryEntryInput := mkEntryInput {
  i_role : MemoryRole;
  i_content : jsstring;
  i_timestamp : option Z;
  i_metadata : option JsValue;
}.

Record ToolResult := mkToolResult {
  tr_name : option string;
  tr_output : JsValue;
  tr_message : option jsstring;
  tr_memoryEntry : option MemoryEntryInput;
  tr_toolCallId : option string;
}.

Record ToolCallRequest := mkRequest {
  rq_id : option string;
  rq_name : string;
  rq_arguments : JsValue;
}.

(** What [tool.execute] does: it returns a result or throws (with the
    message of the [Error], if it is one), may have called
    [context.addMemory], and leaves the world it acts on changed. *)
Inductive ToolOutcome :=
| Returned (r : ToolResult)
| Threw (message : option jsstring).

Record Tool (W : Type) := mkTool {
  t_name : string;
  t_description : jsstring;
  execute : JsValue → list MemoryEntry → W → ToolOutcome * list MemoryEntryInput * W;
}.
Arguments t_name {W}.
Arguments t_description {W}.
Arguments execute {W}.

(** The [content] of the provider's assistant message: absent, a string, or
    an array of chunks with an optional [text]. *)
Inductive MessageContent :=
| ContentAbsent
| ContentText (s : jsstring)
| ContentChunks (chunks : list (option jsstring)).

Record AssistantMessage := mkAssistant {
  am_content : MessageContent;
  am_tool_calls : option (list RawToolCall);
  am_toolCalls : option (list RawToolCall);
}.

(** What [client.sendChat] gives: a rejection, or a response whose
    [choices[0].message] may be missing. *)
Inductive ChatReply :=
| ReplyRejected
| Reply (message : option AssistantMessage).

(** The collaborators of the agent over a world [W] (the memory store and
    whatever else the tools touch): the chat client, [getRelevantMemories]
    ([None] when it throws), [formatMemoriesForPrompt], the fixed
    memory-management instructions of the system prompt,
    [generateToolCallId], [JSON.parse] ([None] when it throws) and
    [JSON.stringify(_, null, 2)]. *)
Class AgentHost (W : Type) := {
  sendChat : list ChatMessage → ChatReply;
  getRelevantMemories : jsstring → Z → W → option (list StoredMemory) * W;
  formatMemoriesForPrompt : list StoredMemory → jsstring;
  memoryInstructions : jsstring;
  generateToolCallId : string → string;
  parseJSON : jsstring → option JsValue;
  stringify : JsValue → jsstring;
}.

Record Config (W : Type) := mkConfig {
  baseSystemPrompt : jsstring;
  maxRecursions : Z;
  maxContextMessages : Z;
  autoInjectMemories : bool;
  maxInjectedMemories : Z;
  toolRegistry : gmap string (Tool W);
}.
Arguments baseSystemPrompt {W}.
Arguments maxRecursions {W}.
Arguments maxContextMessages {W}.
Arguments autoInjectMemories {W}.
Arguments maxInjectedMemories {W}.
Arguments toolRegistry {W}.

Record State := mkState {
  history : list ChatMessage;
  memory : list MemoryEntry;
  injectedMemories : list StoredMemory;
}.

Definition registerTool {W} (t : Tool W) (registry : gmap string (Tool W))
  : gmap string (Tool W) :=
  match registry !! t_name t with
  | Some _ => registry
  | None => <[t_name t := t]> registry
  end.

Definition addMemory (now : Z) (entry : MemoryEntryInput) (mem : list MemoryEntry)
  : list MemoryEntry :=
  mem ++ [mkEntry (i_role entry) (i_content entry) (default now (i_timestamp entry))
            (i_metadata entry)].

(** *** trimHistory *)

Definition isConversation (m : ChatMessage) : bool :=
  match role m with
  | user | assistant => true
  | _ => false
  end.

Fixpoint firstNonSystemFrom (i : nat) (h : list ChatMessage) : nat :=
  match h with
  | [] => 0%nat
  | m :: h' =>
      match role m with
      | system => firstNonSystemFrom (S i) h'
      | _ => i
      end
  end.

Definition firstNonSystemIdx (h : list ChatMessage) : nat := firstNonSystemFrom 0 h.

(** The [while] loop, on the part of the history from index [i] on:
    [splice(i, 1)] drops its head, [i++] steps over it. *)
Fixpoint trimLoop (messagesToRemove removed : Z) (rest : list ChatMessage)
  : list ChatMessage :=
  match rest with
  | [] => []
  | msg :: rest' =>
      if removed <? messagesToRemove then
        match role msg with
        | user | assistant => trimLoop messagesToRemove (removed + 1) rest'
        | tool => trimLoop messagesToRemove removed rest'
        | system => msg :: trimLoop messagesToRemove removed rest'
        end
      else msg :: rest'
  end.

Definition turnsOf (h : list ChatMessage) : Z :=
  Z.of_nat (length (List.filter isConversation h)) `div` 2.

Definition trimHistory (maxContext : Z) (h : list ChatMessage) : list ChatMessage :=
  let turns := turnsOf h in
  if turns <=? maxContext then h
  else
    let messagesToRemove := (turns - maxContext) * 2 in
    let i := firstNonSystemIdx h in
    take i h ++ trimLoop messagesToRemove 0 (drop i h).

(** *** run *)

Record RunOptions := mkRunOptions {
  o_maxRecursions : option Z;
  o_stream : option bool;
}.

(** How [run] ends: with [{content, raw}], or by throwing (the client
    rejected the request, or the response had no assistant message). *)
Inductive RunOutcome :=
| Completed (finalContent : jsstring) (raw : option ChatReply)
| Thrown.

Section WithAgentHost.
Context {W : Type} `{AH : AgentHost W} `{H : Host}.

Definition buildSystemPrompt (cfg : Config W) (injected : list StoredMemory) : jsstring :=
  baseSystemPrompt cfg ++ memoryInstructions ++ formatMemoriesForPrompt injected.

Definition buildMessagesForAPI (systemPrompt : jsstring) (h : list ChatMessage)
  : list ChatMessage :=
  mkMessage system systemPrompt None None None None
  :: List.filter (λ msg, negb (bool_decide (role msg = system))) h.

(** [chunks.join('\n')]. *)
Fixpoint joinLines (chunks : list jsstring) : jsstring :=
  match chunks with
  | [] => []
  | [c] => c
  | c :: rest => c ++ 10%N :: joinLines rest
  end.

Definition normalizeContent (c : MessageContent) : jsstring :=
  match c with
  | ContentAbsent => []
  | ContentText s => s
  | ContentChunks chunks => trim (joinLines (default [] <$> chunks))
  end.

Definition parseArguments (raw : jsstring) : JsValue :=
  match raw with
  | [] => JsObj ∅
  | _ :: _ =>
      match parseJSON raw with
      | Some v => v
      | None =>
          JsObj (<["error" := JsStr (Js.ofString "Failed to parse tool arguments")]>
                   (<["raw" := JsStr raw]> ∅))
      end
  end.

Definition toRequest (tc : RawToolCall) : ToolCallRequest :=
  mkRequest (tc_id tc) (fn_name tc) (parseArguments (fn_arguments tc)).

Definition rawToolCallsOf (am : AssistantMessage) : list RawToolCall :=
  match am_tool_calls am with
  | Some l => l
  | None => default [] (am_toolCalls am)
  end.

Definition normalizeAssistantMessage (am : AssistantMessage)
  : jsstring * list ToolCallRequest * list RawToolCall :=
  (normalizeContent (am_content am), toRequest <$> rawToolCallsOf am, rawToolCallsOf am).

Definition quote : string := String (Ascii.ascii_of_N 34) EmptyString.

Definition notRegistered (name : string) : jsstring :=
  Js.ofString ("Tool " +:+ quote +:+ name +:+ quote +:+ " not registered").

Definition failureResult (name : string) (error : jsstring) (callId : string) : ToolResult :=
  mkToolResult (Some name)
    (JsObj (<["success" := JsBool false]> (<["error" := JsStr error]> ∅)))
    (Some error) None (Some callId).

(** [{ success: true, ...output }] for an object (an array spreads its
    indices), [{ success: true, result: output }] otherwise. *)
Definition normalizeOutput (o : JsValue) : JsValue :=
  match o with
  | JsObj fields => JsObj (fields ∪ {["success" := JsBool true]})
  | JsArr items =>
      JsObj (list_to_map (imap (λ i v, (pretty i, v)) items)
               ∪ {["success" := JsBool true]})
  | other => JsObj (<["success" := JsBool true]> (<["result" := other]> ∅))
  end.

Definition executeToolCall (cfg : Config W) (now : Z) (tc : ToolCallRequest)
    (mem : list MemoryEntry) (w : W) : ToolResult * list MemoryEntry * W :=
  let callId := default (generateToolCallId (rq_name tc)) (rq_id tc) in
  match toolRegistry cfg !! rq_name tc with
  | None => (failureResult (rq_name tc) (notRegistered (rq_name tc)) callId, mem, w)
  | Some t =>
      let '(outcome, added, w') := execute t (rq_arguments tc) mem w in
      let mem' := foldl (λ acc e, addMemory now e acc) mem added in
      match outcome with
      | Returned r =>
          (mkToolResult (Some (default (rq_name tc) (tr_name r)))
             (normalizeOutput (tr_output r)) (tr_message r) (tr_memoryEntry r)
             (Some (default callId (tr_toolCallId r))),
           mem', w')
      | Threw message =>
          (failureResult (rq_name tc)
             (default (Js.ofString "Unknown tool error") message) callId,
           mem', w')
      end
  end.

(** The executions are started in the order of the calls; each one is run
    to its end before the next. *)
Fixpoint executeToolCalls (cfg : Config W) (now : Z) (tcs : list ToolCallRequest)
    (mem : list MemoryEntry) (w : W) : list ToolResult * list MemoryEntry * W :=
  match tcs with
  | [] => ([], mem, w)
  | tc :: tcs' =>
      let '(r, mem1, w1) := executeToolCall cfg now tc mem w in
      let '(rs, mem2, w2) := executeToolCalls cfg now tcs' mem1 w1 in
      (r :: rs, mem2, w2)
  end.

Definition toolMessage (r : ToolResult) : ChatMessage :=
  let toolContent :=
    match tr_message r with
    | Some msg => msg
    | None => match tr_output r with JsStr s => s | o => stringify o end
    end in
  mkMessage tool toolContent (tr_name r) (tr_toolCallId r) (tr_toolCallId r) None.

Definition recordEntries (now : Z) (results : list ToolResult) (mem : list MemoryEntry)
  : list MemoryEntry :=
  foldl (λ acc r, match tr_memoryEntry r with
                  | Some e => addMemory now e acc
                  | None => acc
                  end) mem results.

(** The [while (iterations < maxRecursions)] loop; [remaining] is
    [maxRecursions - iterations]. [calls] collects the message list of every
    [sendChat]. *)
Fixpoint runLoop (cfg : Config W) (systemPrompt : jsstring) (now : Z) (remaining : nat)
    (finalContent : jsstring) (lastRaw : option ChatReply)
    (st : State) (w : W) (calls : list (list ChatMessage))
  : RunOutcome * State * W * list (list ChatMessage) :=
  match remaining with
  | O => (Completed finalContent lastRaw, st, w, calls)
  | S remaining' =>
      let messages := buildMessagesForAPI systemPrompt (history st) in
      let calls' := calls ++ [messages] in
      match sendChat messages with
      | ReplyRejected => (Thrown, st, w, calls')
      | Reply None => (Thrown, st, w, calls')
      | Reply (Some am) =>
          let '(text, toolCalls, rawToolCalls) := normalizeAssistantMessage am in
          let lastRaw' := Some (Reply (Some am)) in
          match toolCalls with
          | _ :: _ =>
              let h1 := history st
                        ++ [mkMessage assistant text None None None (Some rawToolCalls)] in
              let '(results, mem1, w1) := executeToolCalls cfg now toolCalls (memory st) w in
              let st' := mkState (h1 ++ (toolMessage <$> results))
                           (recordEntries now results mem1) (injectedMemories st) in
              match text with
              | _ :: _ => (Completed text lastRaw', st', w1, calls')
              | [] => runLoop cfg systemPrompt now remaining' finalContent lastRaw' st' w1 calls'
              end
          | [] =>
              match text with
              | _ :: _ =>
                  (Completed text lastRaw',
                   mkState (history st ++ [mkMessage assistant text None None None None])
                     (memory st) (injectedMemories st),
                   w, calls')
              | [] => (Completed finalContent lastRaw', st, w, calls')
              end
          end
      end
  end.

(** The memories injected for this turn: freshly fetched ones (none when
    fetching throws) or, with auto-injection off, those of the last turn. *)
Definition injectMemories (cfg : Config W) (userInput : jsstring) (st : State) (w : W)
  : list StoredMemory * W :=
  if autoInjectMemories cfg then
    match getRelevantMemories userInput (maxInjectedMemories cfg) w with
    | (Some ms, w') => (ms, w')
    | (None, w') => ([], w')
    end
  else (injectedMemories st, w).

Definition run (cfg : Config W) (userInput : jsstring) (options : RunOptions) (now : Z)
    (st : State) (w : W) : RunOutcome * State * W * list (list ChatMessage) :=
  let h0 := trimHistory (maxContextMessages cfg) (history st)
            ++ [mkMessage user userInput None None None None] in
  let maxRec := default (maxRecursions cfg) (o_maxRecursions options) in
  let '(injected, w1) := injectMemories cfg userInput st w in
  runLoop cfg (buildSystemPrompt cfg injected) now (Z.to_nat maxRec) [] None
    (mkState h0 (memory st) injected) w1 [].

End WithAgentHost.

End Agent.

(** ** The states of a store and what is true of all of them *)

Module StoreSpec.
Import MemoryStore.

Section WithHost.
Context `{H : Host}.

(** One call of a public method of [MemoryStore]. *)
Inductive Step : Store → Store → Prop :=
| StepStore c cat imp meta newId now st :
    Step st (store c cat imp meta newId now st).2
| StepSearch query limit now st :
    Step st (search query limit now st).2
| StepRecordAccess i now st :
    Step st (recordAccess i now st)
| StepInvalidate i st :
    Step st (invalidate i st)
| StepDelete i st :
    Step st (delete_ i st)
| StepUpdate i u st :
    Step st (update i u st).2
| StepClearAll st :
    Step st (clearAll st)
| StepClose st :
    Step st (close st)
| StepRebuild st :
    Step st (rebuildSearchIndex st).

(** The key path of the object store is [id]: a record sits under its own
    identifier. *)
Definition keyedById (d : gmap string StoredMemory) : Prop :=
  map_Forall (λ k m, id m = k) d.

(** The states of an instance created over a database of earlier sessions. *)
Inductive Reachable : Store → Prop :=
| ReachFresh d : keyedById d → Reachable (fresh d)
| ReachStep st st' : Reachable st → Step st st' → Reachable st'.

(** Once the index exists, the cache holds valid records of the database
    and the index holds the content of records of the database. *)
Record Inv (st : Store) : Prop := mkInv {
  inv_keys : keyedById (db st);
  inv_cache :
    is_Some (searchIndex st) →
    map_Forall (λ k m, db st !! k = Some m ∧ valid m) (indexedMemories st);
  inv_index :
    ∀ idx, searchIndex st = Some idx →
    map_Forall (λ k c, ∃ m, db st !! k = Some m ∧ content m = c) idx;
}.

End WithHost.

(** The identifiers of a result list. *)
Definition resultIds (rs : list MemorySearchResult) : list string :=
  (λ r, id (memory r)) <$> rs.

End StoreSpec.

(** ** The store after a cleanup *)

Module ToolSpec.
Import MemoryStore.

(** The store after the loop of [cleanup_memories] that invalidates the
    flagged records one after the other. *)
Definition invalidateAll (ids : list string) (st : Store) : Store :=
  foldl (λ s i, invalidate i s) st ids.

End ToolSpec.

(** ** A host to run the model on

    ASCII lower-casing, trimming of the white space of ECMAScript, no
    [Intl.Segmenter], and a search engine that returns, in key order, the
    documents containing the query. *)

Module Reference.

Definition lowerUnit (c : N) : N :=
  if ((0x41 <=? c) && (c <=? 0x5a))%N then (c + 32)%N else c.

Definition isSpace (c : N) : bool :=
  bool_decide (c ∈ [9; 10; 11; 12; 13; 32; 160; 0x1680; 0x2028; 0x2029; 0x202f;
                    0x205f; 0x3000; 0xfeff]%N)
  || ((0x2000 <=? c) && (c <=? 0x200a))%N.

Fixpoint trimStart (s : jsstring) : jsstring :=
  match s with
  | [] => []
  | c :: s' => if isSpace c then trimStart s' else s
  end.

Definition trimBoth (s : jsstring) : jsstring :=
  reverse (trimStart (reverse (trimStart s))).

Definition containing (idx : gmap string jsstring) (q : jsstring) (limit : Z)
  : list string :=
  take (Z.to_nat limit) (map_to_list (filter (λ kv, Is_true (Js.includes kv.2 q)) idx)).*1.

Definition host : Host :=
  {| toLowerCase := fmap lowerUnit;
     trim := trimBoth;
     segmenter := None;
     flexSearch := containing |}.

End Reference.

(** ** Data for the worked cases *)

Module Example.
Import MemoryStore.

Definition cat : jsstring := Js.ofString "cat".

(** A record of an earlier session. *)
Definition m1 : StoredMemory :=
  mkMemory "m1" cat "fact" 5 [cat] 0 0 0 1 None.

Definition db1 : gmap string StoredMemory := {["m1"%string := m1]}.

Definition onlyImportance (imp : Z) : Updates := mkUpdates None (Some imp) None None.

End Example.

Module Scenario.
Import MemoryStore MemoryTools.

(** "喜欢猫", "喜欢猫!" and "喜欢猫 ". *)
Definition likesCats : jsstring := [0x559c; 0x6b22; 0x732b]%N.
Definition likesCatsBang : jsstring := [0x559c; 0x6b22; 0x732b; 0x21]%N.
Definition likesCatsSpace : jsstring := [0x559c; 0x6b22; 0x732b; 0x20]%N.

Section WithHost.
Context `{H : Host}.

(** End-to-end scenario A: three [store]s on a new, empty store, at
    importances 5, 9 and 3, then
    [cleanup_memories({ strategy: 'duplicates', dryRun: false })]. *)
Definition stored (c1 c2 c3 : jsstring) (cat1 cat2 cat3 i1 i2 i3 : string)
    (t1 t2 t3 : Z) : Store :=
  let st1 := (store c1 cat1 (Some 5) None i1 t1 (fresh ∅)).2 in
  let st2 := (store c2 cat2 (Some 9) None i2 t2 st1).2 in
  (store c3 cat3 (Some 3) None i3 t3 st2).2.

Definition cleaned (c1 c2 c3 : jsstring) (cat1 cat2 cat3 i1 i2 i3 : string)
    (t1 t2 t3 now : Z) : ToolResult * Store * list StoreCall :=
  cleanupMemoriesTool (mkCleanupArgs (Some "duplicates"%string) (Some false)) now
    (stored c1 c2 c3 cat1 cat2 cat3 i1 i2 i3 t1 t2 t3).

End WithHost.

(** [recall_memory({ query: 'cat', category: 'hobby' })] and
    [store_memory({ content: 'cat', category: 'hobby' })]. *)
Definition recallHobby : RecallMemoryArgs :=
  mkRecallArgs (Some Example.cat) None (Some "hobby"%string).

Definition storeHobby : StoreMemoryArgs :=
  mkStoreArgs (Some Example.cat) (Some "hobby"%string) None None.

End Scenario.

(** ** What the specification says about the agent *)

Module AgentSpec.
Import Agent.

(** The identifiers of the tool calls that the assistant messages of a
    history carry. *)
Definition requestedCalls (h : list ChatMessage) : list string :=
  h ≫= λ msg,
    match role msg, tool_calls msg with
    | assistant, Some calls => omap tc_id calls
    | _, _ => []
    end.

(** A tool message is orphaned in a history when no assistant message of
    the history carries the tool call it answers. *)
Definition isOrphan (h : list ChatMessage) (msg : ChatMessage) : bool :=
  bool_decide (role msg = tool)
  && match toolCallId msg with
     | Some i => negb (bool_decide (i ∈ requestedCalls h))
     | None => true
     end.

Definition orphans (h : list ChatMessage) : list ChatMessage :=
  List.filter (isOrphan h) h.

Definition isSystem (msg : ChatMessage) : bool := bool_decide (role msg = system).

Section WithAgentHost.
Context {W : Type} `{AH : AgentHost W} `{H : Host}.

(** The history when the loop of [run] starts, and the messages of its
    first request to the model. *)
Definition startHistory (cfg : Config W) (userInput : jsstring) (st : State)
  : list ChatMessage :=
  trimHistory (maxContextMessages cfg) (history st)
  ++ [mkMessage user userInput None None None None].

Definition firstRequest (cfg : Config W) (userInput : jsstring) (st : State) (w : W)
  : list ChatMessage :=
  buildMessagesForAPI (buildSystemPrompt cfg (injectMemories cfg userInput st w).1)
    (startHistory cfg userInput st).

(** The identifier under which the result of a call is filed when the tool
    gives none of its own. *)
Definition callIdOf (tc : RawToolCall) : string :=
  default (generateToolCallId (fn_name tc)) (tc_id tc).

(** No registered tool returns a [toolCallId] of its own. *)
Definition toolsKeepCallId (cfg : Config W) : Prop :=
  ∀ name t args mem w r added w',
    toolRegistry cfg !! name = Some t →
    execute t args mem w = (Returned r, added, w') →
    tr_toolCallId r = None.

(** The tool message that answers a tool call. *)
Definition answers (tc : RawToolCall) (msg : ChatMessage) : Prop :=
  role msg = tool
  ∧ toolCallId msg = Some (callIdOf tc)
  ∧ tool_call_id msg = Some (callIdOf tc).

End WithAgentHost.

End AgentSpec.

(** A history with one turn that used a tool and one that did not. *)
Module TrimExample.
Import Agent.

Definition persona : ChatMessage :=
  mkMessage system (Js.ofString "persona") None None None None.
Definition ask1 : ChatMessage :=
  mkMessage user (Js.ofString "what do I like") None None None None.
Definition call1 : ChatMessage :=
  mkMessage assistant [] None None None
    (Some [mkRawToolCall (Some "call_1"%string) "recall_memory" (Js.ofString "{}")]).
Definition result1 : ChatMessage :=
  mkMessage tool (Js.ofString "nothing found") (Some "recall_memory"%string)
    (Some "call_1"%string) (Some "call_1"%string) None.
Definition answer1 : ChatMessage :=
  mkMessage assistant (Js.ofString "I do not know yet") None None None None.
Definition ask2 : ChatMessage :=
  mkMessage user (Js.ofString "hello") None None None None.
Definition answer2 : ChatMessage :=
  mkMessage assistant (Js.ofString "hello again") None None None None.

Definition history : list ChatMessage :=
  [persona; ask1; call1; result1; answer1; ask2; answer2].

End TrimExample.

(** An agent with one registered tool and a model that only ever asks for
    that tool. *)
Module RunExample.
Import Agent.

Definition request : RawToolCall :=
  mkRawToolCall (Some "call_1"%string) "list_memories" (Js.ofString "{}").

Definition reply : AssistantMessage :=
  mkAssistant (ContentText []) (Some [request]) None.

Definition listTool : Tool () :=
  mkTool () "list_memories" (Js.ofString "List stored memories.")
    (λ _ _ w,
       (Returned (mkToolResult (Some "list_memories"%string) (JsObj ∅)
                    (Some (Js.ofString "0 memories")) None None),
        [], w)).

Definition agentHost : AgentHost () :=
  {| sendChat := λ _, Reply (Some reply);
     getRelevantMemories := λ _ _ w, (Some [], w);
     formatMemoriesForPrompt := λ _, [];
     memoryInstructions := [];
     generateToolCallId := λ seed, (seed +:+ "_0")%string;
     parseJSON := λ _, Some (JsObj ∅);
     stringify := λ _, Js.ofString "{}" |}.

Definition cfg : Config () :=
  mkConfig () (Js.ofString "persona") 3 20 true 5 {["list_memories"%string := listTool]}.

Definition start : State := mkState [] [] [].

End RunExample.

(** ** memory-tools.ts: the other tools and the helpers *)

Module MoreTools.
Import MemoryStore MemoryTools.

(** What the other tools put in [output]: a failure reported by a check of
    the tool (with its error text), the failure of the [catch], or the
    success payload of [forget_memory], [update_memory], [list_memories]. *)
Inductive Outcome :=
| Rejected (error : string)
| Caught
| Forgotten (memoryId : string) (forgotten : jsstring)
| Updated (memoryId : string) (newContent : jsstring) (newImportance : Z)
| Listed (memories : list FormattedMemory) (count : nat) (totalCount : nat).

Record Report := mkReport {
  toolName : string;
  outcome : Outcome;
}.

(** A string argument that is present and not empty. *)
Definition truthy (s : option jsstring) : option jsstring :=
  match s with
  | Some (c :: s') => Some (c :: s')
  | _ => None
  end.

Section WithHost.
Context `{H : Host}.

(** *** forget_memory *)

Record ForgetMemoryArgs := mkForgetArgs {
  fa_memoryId : option string;
  fa_reason : option jsstring;
}.

(** The content of the correction record: the forgotten content between a
    bracketed marker and the reason. *)
Definition forgottenNote (c reason : jsstring) : jsstring :=
  [0x5b; 0x5df2; 0x9057; 0x5fd8; 0x5d; 0x20]%N ++ c
  ++ [0x20; 0x2d; 0x20; 0x539f; 0x56e0; 0x3a; 0x20]%N ++ reason.

Definition forgetMemoryTool (args : ForgetMemoryArgs) (newId : string) (now : Z)
    (st : Store) : Report * Store :=
  match fa_memoryId args with
  | Some (String a i') =>
      let memoryId := String a i' in
      match getById memoryId st with
      | None => (mkReport "forget_memory" (Rejected "Memory not found"), st)
      | Some m =>
          let st1 := invalidate memoryId st in
          let done := mkReport "forget_memory" (Forgotten memoryId (take 50 (content m))) in
          match truthy (fa_reason args) with
          | Some reason =>
              match store (forgottenNote (content m) reason) "correction" (Some 3)
                      (Some [("originalMemoryId"%string, Some (Js.ofString memoryId))])
                      newId now st1 with
              | (Some _, st2) => (done, st2)
              | (None, st2) => (mkReport "forget_memory" Caught, st2)
              end
          | None => (done, st1)
          end
      end
  | _ =>
      (mkReport "forget_memory" (Rejected "Missing required parameter: memoryId"), st)
  end.

(** *** update_memory *)

Record UpdateMemoryArgs := mkUpdateArgs {
  ua_memoryId : option string;
  ua_content : option jsstring;
  ua_importance : option Z;
  ua_reason : option jsstring;
}.

Definition updateMemoryTool (args : UpdateMemoryArgs) (st : Store) : Report * Store :=
  match ua_memoryId args with
  | Some (String a i') =>
      let memoryId := String a i' in
      match truthy (ua_content args), ua_importance args with
      | None, None =>
          (mkReport "update_memory"
             (Rejected "Must provide content or importance to update"), st)
      | newContent, newImportance =>
          match update memoryId (mkUpdates newContent newImportance None None) st with
          | (Some updated, st') =>
              (mkReport "update_memory"
                 (Updated memoryId (take 50 (content updated)) (importance updated)),
               st')
          | (None, st') => (mkReport "update_memory" (Rejected "Memory not found"), st')
          end
      end
  | _ =>
      (mkReport "update_memory" (Rejected "Missing required parameter: memoryId"), st)
  end.

(** *** list_memories *)

Record ListMemoriesArgs := mkListArgs {
  la_category : option string;
  la_sortBy : option string;
  la_limit : option Z;
}.

Definition preview (m : StoredMemory) : FormattedMemory :=
  mkFormatted (id m)
    (take 100 (content m)
     ++ if (100 <? length (content m))%nat then [0x2e; 0x2e; 0x2e]%N else [])
    (category m) (importance m) (createdAt m).

Definition listed (args : ListMemoriesArgs) (st : Store) : list StoredMemory :=
  let limit := default 10 (la_limit args) in
  match la_category args with
  | Some (String a cat') => getByCategory (String a cat') limit st
  | _ =>
      if bool_decide (la_sortBy args = Some "important"%string)
      then getMostImportant limit st
      else getRecent limit st
  end.

Definition listMemoriesTool (args : ListMemoriesArgs) (st : Store) : Report :=
  let memories := listed args st in
  mkReport "list_memories"
    (Listed (preview <$> memories) (length memories) (getCount st)).

(** *** getRelevantMemories and getGreetingMemories *)

(** The loop [for (m of found) if (!seen.has(m.id)) { seen.add(m.id);
    out.push(m) }] on the pair of [seen] and the collected list. *)
Definition addUnseen (found : list StoredMemory)
    (acc : list string * list StoredMemory) : list string * list StoredMemory :=
  foldl (λ acc m,
           if decide (id m ∈ acc.1) then acc
           else (id m :: acc.1, acc.2 ++ [m]))
    acc found.

(** [[a[i], a[j]] = [a[j], a[i]]]. *)
Definition swap {A} (i j : nat) (l : list A) : list A :=
  match l !! i, l !! j with
  | Some x, Some y => <[i := y]> (<[j := x]> l)
  | _, _ => l
  end.

(** The shuffle loop, from index [i] down to 1. [pick i] stands for the
    draw of [Math.random()] at index [i]: the loop swaps position [i] with
    position [Math.floor(Math.random() * (i + 1))], one of [0..i]. *)
Fixpoint shuffleFrom {A} (pick : nat → nat) (i : nat) (l : list A) : list A :=
  match i with
  | O => l
  | S i' => shuffleFrom pick i' (swap i (pick i `mod` S i)%nat l)
  end.

Definition shuffle {A} (pick : nat → nat) (l : list A) : list A :=
  shuffleFrom pick (length l - 1) l.

(** The importance tiers 10-8, 7-5, 4-1 (and below). *)
Definition tier (m : StoredMemory) : Z := (importance m - 1) `div` 3.

Definition byTier (a b : StoredMemory) : bool := tier b <=? tier a.

Definition expandWith (now : Z) (terms : list jsstring)
    (acc : list string * list StoredMemory) (st : Store)
  : list string * list StoredMemory * Store :=
  foldl (λ '(acc, st) term,
           let '(termResults, st') := search term 3 now st in
           (addUnseen (memory <$> termResults) acc, st'))
    (acc, st) terms.

(** [getRelevantMemories(context, limit, useSmartSearch)]. [expandedTerms]
    is what [expandSearchQuery(context)] resolves to (the keywords suggested
    by the model, none when that request fails), [pick] the draws of the
    shuffle. *)
Definition getRelevantMemories (context : jsstring) (limit : Z) (useSmartSearch : bool)
    (expandedTerms : list jsstring) (pick : nat → nat) (now : Z) (st : Store)
  : list StoredMemory * Store :=
  let '(directResults, st1) := search context (limit * 2) now st in
  let direct := addUnseen (memory <$> directResults) ([], []) in
  let '(expanded, st2) :=
    if useSmartSearch && (Z.of_nat (length direct.2) <? limit)
    then expandWith now expandedTerms direct st1
    else (direct, st1) in
  let candidates := (addUnseen (getMostImportant 3 st2) expanded).2 in
  (Js.sliceTo limit
     (if limit <? Z.of_nat (length candidates)
      then Js.stableSort byTier (shuffle pick candidates)
      else candidates),
   st2).

Definition getGreetingMemories (st : Store) : list StoredMemory :=
  let facts := getByCategory "fact" 10 st in
  let acc1 := addUnseen (List.filter (λ f, 7 <=? importance f) facts) ([], []) in
  let preferences := getByCategory "preference" 5 st in
  let acc2 := addUnseen (List.filter (λ p, 6 <=? importance p) preferences) acc1 in
  let events := getByCategory "event" 3 st in
  let acc3 := addUnseen (List.filter (λ e, 7 <=? importance e) events) acc2 in
  Js.sliceTo 5 (Js.stableSort byImportance acc3.2).

End WithHost.

End MoreTools.

(** ** agent.ts: getMemoryStats; openrouter.ts: toOpenRouterMessages *)

Module AgentMore.
Import MemoryStore Agent.

(** [getMemoryStats]: the count of valid records and, for each of the five
    categories, the number of records [getByCategory(cat, 1000)] returns. *)
Definition getMemoryStats (st : Store) : nat * list (string * nat) :=
  (getCount st,
   (λ cat, (cat, length (getByCategory cat 1000 st))) <$> MemoryTools.validCategories).




End AgentMore.

(** A database of three records, the last one invalidated. *)
Module Shelf.
Import MemoryStore.

Definition dog : jsstring := Js.ofString "dog".
Definition oldCat : jsstring := Js.ofString "old cat".

Definition m2 : StoredMemory :=
  mkMemory "m2" dog "preference" 8 [dog] 10 10 1 1 None.
Definition m3 : StoredMemory :=
  mkMemory "m3" oldCat "fact" 2 [Js.ofString "old"; Example.cat] 5 5 0 0 None.

Definition db3 : gmap string StoredMemory :=
  <["m2"%string := m2]> (<["m3"%string := m3]> Example.db1).

End Shelf.

(** ** What the duplicate pass of cleanup_memories flags *)

Module CleanupSpec.
Import MemoryStore MemoryTools.

Section WithHost.
Context `{H : Host}.

(** Of a group of more than one record, all but the first after the sort
    by importance. *)
Definition extraCopies (ms : list StoredMemory) : list StoredMemory :=
  if (1 <? length ms)%nat then drop 1 (Js.stableSort byImportance ms) else [].

(** The records that the duplicate pass flags, in its order. *)
Definition duplicateRecords (allMemories : list StoredMemory) : list StoredMemory :=
  concat ((λ g, extraCopies g.2) <$> contentMap allMemories).

End WithHost.

End CleanupSpec.

(** Records for the worked cases of [cleanup_memories]: a context note of an
    earlier month next to a preference of today. *)
Module Attic.
Import MemoryStore.

Definition now : Z := 3000000000.

Definition note : StoredMemory :=
  mkMemory "a1" (Js.ofString "it rained") "context" 1 [] 0 0 0 1 None.
Definition liking : StoredMemory :=
  mkMemory "a2" Shelf.dog "preference" 8 [Shelf.dog] 2999999000 2999999000 1 1 None.

Definition listed : list StoredMemory := [liking; note].

(** The database that holds the two. *)
Definition db : gmap string StoredMemory :=
  <["a1"%string := note]> (<["a2"%string := liking]> ∅).

End Attic.

(** ** The store after a recall *)

Module RecallSpec.
Import MemoryStore.

(** [recordAccess] on each identifier of a list, in order. *)
Definition recordAccessAll (now : Z) (ids : list string) (st : Store) : Store :=
  foldl (λ st i, recordAccess i now st) st ids.

End RecallSpec.

(** Arguments for the worked cases of the tools and of the agent. *)
Module Desk.
Import MemoryStore MemoryTools MoreTools Agent.

Definition storeFact : StoreMemoryArgs :=
  mkStoreArgs (Some Example.cat) (Some "fact"%string) (Some 12) None.

Definition forgetFirst : ForgetMemoryArgs :=
  mkForgetArgs (Some "m1"%string) (Some (Js.ofString "wrong")).

Definition raiseFirst : UpdateMemoryArgs :=
  mkUpdateArgs (Some "m1"%string) (Some []) (Some 12) None.

Definition listAll : ListMemoriesArgs := mkListArgs None None None.

Definition unknownCall : ToolCallRequest := mkRequest None "nope" JsNull.

End Desk.

(** * Properties *)

(** ** Lists and sorting *)

Section JsFacts.
Context {A : Type}.

Lemma insertSorted_Permutation (before : A → A → bool) x l :
  Js.insertSorted before x l ≡ₚ x :: l.
Proof.
  induction l as [|y l IH]; simpl; [done|].
  destruct (before x y); [done|].
  rewrite IH. apply Permutation_swap.
Qed.

Lemma stableSort_Permutation (before : A → A → bool) l :
  Js.stableSort before l ≡ₚ l.
Proof.
  induction l as [|x l IH]; simpl; [done|].
  unfold Js.stableSort in *. simpl.
  rewrite insertSorted_Permutation. by rewrite IH.
Qed.

Lemma elem_of_stableSort (before : A → A → bool) l x :
  x ∈ Js.stableSort before l ↔ x ∈ l.
Proof. by rewrite stableSort_Permutation. Qed.

Lemma length_stableSort (before : A → A → bool) l :
  length (Js.stableSort before l) = length l.
Proof. by rewrite stableSort_Permutation. Qed.

Lemma elem_of_sliceTo (e : Z) (l : list A) x : x ∈ Js.sliceTo e l → x ∈ l.
Proof.
  unfold Js.sliceTo. destruct (e <? 0); apply elem_of_take_weak ||
    (intros Hx; apply list_elem_of_lookup in Hx as [i Hi];
     apply lookup_take_Some in Hi as [Hi _]; by eapply list_elem_of_lookup_2).
Qed.

End JsFacts.

(** ** The memory store keeps its caches coherent *)

Section StoreInvariant.
Import MemoryStore StoreSpec.
Context `{H : Host}.

Lemma keyedById_insert d m : keyedById d → keyedById (<[id m := m]> d).
Proof. intros Hd. by apply map_Forall_insert_2. Qed.

Lemma keyedById_delete d i : keyedById d → keyedById (delete i d).
Proof. intros Hd. by apply map_Forall_delete. Qed.

Lemma keyedById_lookup d i m : keyedById d → d !! i = Some m → id m = i.
Proof. intros Hd Hm. exact (Hd i m Hm). Qed.

Lemma Inv_fresh d : keyedById d → Inv (fresh d).
Proof.
  intros Hd. split; simpl; [done| |done].
  intros [? [=]].
Qed.

Lemma db_initSearchIndex st : db (initSearchIndex st) = db st.
Proof. unfold initSearchIndex. by destruct (indexInitialized st). Qed.

Lemma Inv_initSearchIndex st : Inv st → Inv (initSearchIndex st).
Proof.
  intros [Hk Hc Hi]. unfold initSearchIndex.
  destruct (indexInitialized st); [by split|].
  split; simpl; [done| |].
  - intros _ k m Hm. unfold validEntries in Hm.
    apply map_lookup_filter_Some in Hm as [Hm Hv]. done.
  - intros idx [= <-] k c Hc'. rewrite lookup_fmap in Hc'.
    destruct (validEntries (db st) !! k) as [m|] eqn:Hm; [|done].
    simpl in Hc'. injection Hc' as <-.
    apply map_lookup_filter_Some in Hm as [Hm _]. eauto.
Qed.

Lemma Inv_store c cat imp meta newId now st :
  Inv st → Inv (store c cat imp meta newId now st).2.
Proof.
  intros HI. apply Inv_initSearchIndex in HI.
  unfold store. destruct (db (initSearchIndex st) !! newId) eqn:Hnew; [done|].
  simpl. set (st1 := initSearchIndex st) in *.
  set (m := mkMemory _ _ _ _ _ _ _ _ _ _).
  destruct HI as [Hk Hc Hi].
  unfold addToSearchIndex, putRecord. simpl.
  destruct (searchIndex st1) as [idx|] eqn:Hidx; simpl.
  - destruct (decide (valid m)) as [Hv|Hv]; [|by destruct Hv].
    split; simpl.
    + by apply (keyedById_insert _ m).
    + intros _ k m' Hm'. destruct (decide (newId = k)) as [<-|Hne].
      * rewrite lookup_insert_eq in Hm'. injection Hm' as <-.
        by rewrite lookup_insert_eq.
      * rewrite lookup_insert_ne in Hm' by done.
        rewrite lookup_insert_ne by done. by apply Hc.
    + intros idx' [= <-] k c' Hc'. destruct (decide (newId = k)) as [<-|Hne].
      * rewrite lookup_insert_eq in Hc'. injection Hc' as <-.
        exists m. by rewrite lookup_insert_eq.
      * rewrite lookup_insert_ne in Hc' by done.
        rewrite lookup_insert_ne by done. by eapply Hi.
  - split; simpl.
    + by apply (keyedById_insert _ m).
    + by intros [? [=]].
    + done.
Qed.

Lemma Inv_recordAccess i now st : Inv st → Inv (recordAccess i now st).
Proof.
  intros [Hk Hc Hi]. unfold recordAccess.
  destruct (db st !! i) as [m|] eqn:Hm; [|by split].
  assert (id m = i) as Hid by by eapply keyedById_lookup.
  assert (keyedById (<[i := touch now m]> (db st))) as Hk'.
  { rewrite <- Hid at 1. apply (keyedById_insert _ (touch now m)), Hk. }
  assert (∀ idx, searchIndex st = Some idx →
            map_Forall (λ k c, ∃ m0, <[i := touch now m]> (db st) !! k = Some m0
                                      ∧ content m0 = c) idx) as Hi'.
  { intros idx Hidx k c Hkc. destruct (Hi idx Hidx k c Hkc) as (m0 & Hm0 & <-).
    destruct (decide (i = k)) as [<-|Hne].
    - rewrite lookup_insert_eq. exists (touch now m). split; [done|].
      rewrite Hm in Hm0. by injection Hm0 as <-.
    - rewrite lookup_insert_ne by done. eauto. }
  unfold putRecord. simpl. rewrite Hid.
  destruct (decide (is_Some (indexedMemories st !! i))) as [[mc Hmc]|Hno].
  - split; simpl; [done| |done].
    intros Hs k m0. destruct (decide (i = k)) as [<-|Hne].
    + rewrite !lookup_insert_eq. intros [= <-]. split; [done|].
      destruct (Hc Hs i mc Hmc) as [Hdbm Hv]. rewrite Hm in Hdbm.
      by injection Hdbm as ->.
    + rewrite !lookup_insert_ne by done. by apply Hc.
  - split; simpl; [done| |done].
    intros Hs k m0 Hm0. destruct (decide (i = k)) as [<-|Hne].
    + destruct Hno. eauto.
    + rewrite lookup_insert_ne by done. by apply Hc.
Qed.

Lemma Inv_removeFromSearchIndex i st d :
  keyedById d →
  (∀ k m, k ≠ i → db st !! k = Some m → d !! k = Some m) →
  Inv st →
  Inv (removeFromSearchIndex i
         (mkStore d (searchIndex st) (indexedMemories st) (indexInitialized st))).
Proof.
  intros Hd Hsame [Hk Hc Hi]. unfold removeFromSearchIndex. simpl.
  destruct (searchIndex st) as [idx|] eqn:Hidx; split; simpl; try done.
  - intros _ k m Hm. apply lookup_delete_Some in Hm as [Hne Hm].
    destruct (Hc (mk_is_Some _ _ eq_refl) k m Hm) as [Hdb Hv]. split; [|done].
    by apply Hsame.
  - intros idx' [= <-] k c Hkc. apply lookup_delete_Some in Hkc as [Hne Hkc].
    destruct (Hi idx eq_refl k c Hkc) as (m & Hm & Hcm). exists m.
    split; [|done]. by apply Hsame.
Qed.

Lemma Inv_invalidate i st : Inv st → Inv (invalidate i st).
Proof.
  intros HI. unfold invalidate.
  destruct (db st !! i) as [m|] eqn:Hm; [|done].
  assert (id m = i) as Hid by (eapply keyedById_lookup; [apply HI|done]).
  unfold putRecord. simpl. rewrite Hid.
  apply Inv_removeFromSearchIndex; [| |done].
  - rewrite <- Hid at 1. apply (keyedById_insert _ (setValid 0 m)), HI.
  - intros k m0 Hne Hm0. by rewrite lookup_insert_ne.
Qed.

Lemma Inv_delete i st : Inv st → Inv (delete_ i st).
Proof.
  intros HI. unfold delete_. apply Inv_removeFromSearchIndex; [| |done].
  - apply keyedById_delete, HI.
  - intros k m0 Hne Hm0. by rewrite lookup_delete_ne.
Qed.

Lemma content_applyUpdates_unchanged u m :
  contentChanged u m = false → content (applyUpdates u m) = content m.
Proof.
  unfold contentChanged. simpl. destruct (u_content u) as [c|]; simpl; [|done].
  intros Hc. apply negb_false_iff, bool_decide_eq_true in Hc. done.
Qed.

Lemma Inv_update i u st : Inv st → Inv (update i u st).2.
Proof.
  intros [Hk Hc Hi]. unfold update.
  destruct (db st !! i) as [m|] eqn:Hm; [|by split].
  assert (id m = i) as Hid by by eapply keyedById_lookup.
  simpl. rewrite Hid. set (m' := applyUpdates u m).
  split; simpl.
  - rewrite <- Hid at 1. apply (keyedById_insert _ m'), Hk.
  - intros Hs. assert (is_Some (searchIndex st)) as Hs'.
    { unfold reindex in Hs. destruct (searchIndex st); [eauto|by destruct Hs]. }
    destruct (decide (valid m')) as [Hv|Hv]; intros k m0 Hm0.
    + destruct (decide (i = k)) as [<-|Hne].
      * rewrite lookup_insert_eq in Hm0. injection Hm0 as <-.
        by rewrite lookup_insert_eq.
      * rewrite lookup_insert_ne in Hm0 by done.
        rewrite lookup_insert_ne by done. by apply Hc.
    + apply lookup_delete_Some in Hm0 as [Hne Hm0].
      rewrite lookup_insert_ne by done. by apply Hc.
  - intros idx Hidx. unfold reindex in Hidx.
    destruct (searchIndex st) as [ix|] eqn:Hix; [|done].
    assert (∀ k c, k ≠ i → ix !! k = Some c →
              ∃ m0, <[i := m']> (db st) !! k = Some m0 ∧ content m0 = c) as Hother.
    { intros k c Hne Hkc. rewrite lookup_insert_ne by done. by eapply Hi. }
    destruct (contentChanged u m) eqn:Hch.
    + injection Hidx as <-. destruct (decide (valid m')); intros k c Hkc.
      * destruct (decide (i = k)) as [<-|Hne].
        -- rewrite lookup_insert_eq in Hkc. injection Hkc as <-.
           exists m'. by rewrite lookup_insert_eq.
        -- rewrite lookup_insert_ne in Hkc by done.
           apply lookup_delete_Some in Hkc as [_ Hkc]. by apply Hother.
      * apply lookup_delete_Some in Hkc as [Hne Hkc]. by apply Hother.
    + injection Hidx as <-. intros k c Hkc.
      destruct (decide (i = k)) as [<-|Hne]; [|by apply Hother].
      exists m'. rewrite lookup_insert_eq. split; [done|].
      destruct (Hi ix eq_refl i c Hkc) as (m0 & Hm0 & <-).
      rewrite Hm in Hm0. injection Hm0 as <-.
      by apply content_applyUpdates_unchanged.
Qed.

Lemma Inv_close st : Inv st → Inv (close st).
Proof. intros [Hk _ _]. split; simpl; [done| |done]. by intros [? [=]]. Qed.

Lemma Inv_clearAll st : Inv st → Inv (clearAll st).
Proof.
  intros _. split; simpl.
  - apply map_Forall_empty.
  - intros _. apply map_Forall_empty.
  - intros idx [= <-]. apply map_Forall_empty.
Qed.

Lemma Inv_step st st' : Step st st' → Inv st → Inv st'.
Proof.
  destruct 1; intros HI.
  - by apply Inv_store.
  - unfold search. apply Inv_initSearchIndex in HI.
    destruct (searchIndex (initSearchIndex st)); [|done].
    by destruct (trim query).
  - by apply Inv_recordAccess.
  - by apply Inv_invalidate.
  - by apply Inv_delete.
  - by apply Inv_update.
  - by apply Inv_clearAll.
  - by apply Inv_close.
  - by apply Inv_initSearchIndex, Inv_close.
Qed.

Lemma Inv_reachable st : Reachable st → Inv st.
Proof.
  induction 1 as [d Hd|st st' _ IH Hstep]; [by apply Inv_fresh|].
  by eapply Inv_step.
Qed.

End StoreInvariant.

(** ** The memory store *)

Section StoreFacts.
Import MemoryStore StoreSpec.
Context `{H : Host}.

Lemma db_addToSearchIndex m st : db (addToSearchIndex m st) = db st.
Proof.
  unfold addToSearchIndex. destruct (searchIndex st); [|done].
  by destruct (decide (valid m)).
Qed.

Lemma db_removeFromSearchIndex i st : db (removeFromSearchIndex i st) = db st.
Proof. unfold removeFromSearchIndex. by destruct (searchIndex st). Qed.

Lemma clampImportance_range i : 1 ≤ clampImportance i ≤ 10.
Proof. unfold clampImportance. lia. Qed.

Lemma clampImportance_id i : 1 ≤ i ≤ 10 → clampImportance i = i.
Proof. unfold clampImportance. lia. Qed.

Lemma elem_of_records d m : m ∈ records d ↔ ∃ k, d !! k = Some m.
Proof.
  unfold records. rewrite list_elem_of_fmap. split.
  - intros ([k m'] & -> & Hin). exists k. by apply elem_of_map_to_list.
  - intros [k Hk]. exists (k, m). split; [done|]. by apply elem_of_map_to_list.
Qed.

Lemma elem_of_collect limit scan m : m ∈ collect limit scan → m ∈ scan ∧ valid m.
Proof.
  unfold collect. intros Hin. apply subseteq_take in Hin.
  apply list_elem_of_filter in Hin. tauto.
Qed.

Lemma collect_all limit scan m :
  Z.of_nat (length scan) ≤ limit → m ∈ scan → valid m → m ∈ collect limit scan.
Proof.
  intros Hlen Hin Hv. unfold collect. rewrite take_ge.
  - by apply list_elem_of_filter.
  - pose proof (length_filter valid scan). lia.
Qed.

Lemma elem_of_scanPrev key d m : m ∈ scanPrev key d ↔ ∃ k, d !! k = Some m.
Proof. unfold scanPrev. by rewrite elem_of_stableSort, elem_of_records. Qed.

Lemma elem_of_scanCategoryPrev cat d m :
  m ∈ scanCategoryPrev cat d ↔ category m = cat ∧ ∃ k, d !! k = Some m.
Proof.
  unfold scanCategoryPrev.
  by rewrite elem_of_stableSort, list_elem_of_filter, elem_of_records.
Qed.

Lemma length_records d : length (records d) = size d.
Proof. unfold records. by rewrite length_fmap, length_map_to_list. Qed.

Lemma length_scanPrev key d : length (scanPrev key d) = size d.
Proof. unfold scanPrev. by rewrite length_stableSort, length_records. Qed.

Lemma length_scanCategoryPrev cat d : (length (scanCategoryPrev cat d) ≤ size d)%nat.
Proof.
  unfold scanCategoryPrev. rewrite length_stableSort, <- length_records.
  apply length_filter.
Qed.

(** A listing never shows a record that the database holds as not valid. *)
Lemma collect_hides_invalid limit scan d i m :
  keyedById d → (∀ x, x ∈ scan → ∃ k, d !! k = Some x) →
  d !! i = Some m → ¬ valid m → i ∉ id <$> collect limit scan.
Proof.
  intros Hk Hscan Hm Hinv (x & -> & Hx)%list_elem_of_fmap.
  apply elem_of_collect in Hx as [Hx Hv].
  destruct (Hscan x Hx) as [k Hkx].
  assert (id x = k) as Hid by by eapply keyedById_lookup.
  rewrite Hid, Hkx in Hm. injection Hm as ->. done.
Qed.

(** What [search] returns comes out of the cache. *)
Lemma search_results_cached query limit now st r :
  r ∈ (search query limit now st).1 →
  ∃ k, indexedMemories (initSearchIndex st) !! k = Some (memory r)
       ∧ is_Some (searchIndex (initSearchIndex st))
       ∧ (∀ idx, searchIndex (initSearchIndex st) = Some idx →
            k ∈ flexSearch idx query (limit * 2)).
Proof.
  unfold search. destruct (searchIndex (initSearchIndex st)) as [idx|] eqn:Hidx;
    [|by intros ?%elem_of_nil].
  destruct (trim query); [by intros ?%elem_of_nil|].
  simpl. intros Hr%elem_of_sliceTo. apply elem_of_stableSort in Hr.
  apply list_elem_of_omap in Hr as (o & Ho & ->).
  apply elem_of_lookup_imap_1 in Ho as (pos & k & Heq & Hn).
  exists k. unfold scoreHit in Heq.
  destruct (indexedMemories (initSearchIndex st) !! k) as [m|]; [|done].
  destruct (decide (valid m)); [|done]. injection Heq as ->. simpl.
  split; [done|]. split; [eauto|]. intros idx' [= <-].
  by eapply list_elem_of_lookup_2.
Qed.

End StoreFacts.

Section StoreClaims.
Import MemoryStore StoreSpec.
Context `{H : Host}.

(** C7. When the generated identifier is not in use, [store] succeeds, and
    [getById] on the identifier of the record it returns gives that record:
    its content and category are the arguments, its importance is the
    argument (5 when omitted) clamped into 1..10, its access count is 0 and
    it is valid. *)
Theorem store_then_getById c cat imp meta newId now st :
  db st !! newId = None →
  ∃ m st', store c cat imp meta newId now st = (Some m, st')
    ∧ getById (id m) st' = Some m
    ∧ content m = c ∧ category m = cat
    ∧ importance m = Z.max 1 (Z.min 10 (default 5 imp))
    ∧ 1 ≤ importance m ≤ 10
    ∧ accessCount m = 0 ∧ isValid m = 1.
Proof.
  intros Hnew. unfold store. rewrite db_initSearchIndex, Hnew.
  eexists _, _. split; [reflexivity|]. simpl.
  split.
  - unfold getById. rewrite db_addToSearchIndex. simpl. apply lookup_insert_eq.
  - repeat split; try done; apply clampImportance_range.
Qed.


(** C9. A second [invalidate] of the same identifier leaves the store as
    the first one left it; [delete] of an identifier that is not in the
    database completes and leaves the store as it was. *)
Theorem invalidate_idempotent_delete_noop st i :
  invalidate i (invalidate i st) = invalidate i st
  ∧ (Reachable st → db st !! i = None → delete_ i st = st).
Proof.
  split.
  - unfold invalidate at 2 3. destruct (db st !! i) as [m|] eqn:Hm.
    + unfold invalidate. rewrite db_removeFromSearchIndex. simpl.
      destruct (decide (id m = i)) as [Hid|Hid].
      * rewrite <- Hid at 1. rewrite lookup_insert_eq.
        unfold putRecord, removeFromSearchIndex. simpl.
        destruct (searchIndex st); simpl.
        -- by rewrite insert_insert_eq, !delete_delete_eq.
        -- by rewrite insert_insert_eq.
      * rewrite lookup_insert_ne, Hm by done.
        unfold putRecord, removeFromSearchIndex. simpl.
        destruct (searchIndex st); simpl.
        -- by rewrite insert_insert_eq, !delete_delete_eq.
        -- by rewrite insert_insert_eq.
    + unfold invalidate. by rewrite Hm.
  - intros Hreach Hnone. pose proof (Inv_reachable _ Hreach) as [Hk Hc Hi].
    unfold delete_, removeFromSearchIndex. simpl.
    rewrite (delete_id _ _ Hnone). destruct st as [d sidx cache init].
    simpl in *. destruct sidx as [idx|]; [|done].
    f_equal.
    + f_equal. apply delete_id.
      destruct (idx !! i) as [c|] eqn:Hic; [|done].
      destruct (Hi idx eq_refl i c Hic) as (m & Hm & _). congruence.
    + apply delete_id.
      destruct (cache !! i) as [m|] eqn:Him; [|done].
      destruct (Hc (mk_is_Some _ _ eq_refl) i m Him) as [Hm _]. congruence.
Qed.

(** C3. A record that the database holds with the validity flag 0 is in no
    result of [search], [getByCategory], [getMostImportant] or [getRecent],
    [getCount] is what it would be without it, [getById] still returns it,
    and after [delete] [getById] returns null. *)
Theorem invalidated_hidden st i m :
  Reachable st → db st !! i = Some m → isValid m = 0 →
  (∀ query limit now, i ∉ resultIds (search query limit now st).1)
  ∧ (∀ cat limit, i ∉ id <$> getByCategory cat limit st)
  ∧ (∀ limit, i ∉ id <$> getMostImportant limit st)
  ∧ (∀ limit, i ∉ id <$> getRecent limit st)
  ∧ getCount st = getCount (delete_ i st)
  ∧ getById i st = Some m
  ∧ getById i (delete_ i st) = None.
Proof.
  intros Hreach Hm Hflag.
  assert (¬ valid m) as Hinv by (unfold valid; lia).
  pose proof (Inv_reachable _ Hreach) as HI.
  pose proof (inv_keys _ HI) as Hk.
  repeat split.
  - intros query limit now (r & -> & Hr)%list_elem_of_fmap.
    apply search_results_cached in Hr as (k & Hcache & Hsome & _).
    pose proof (Inv_initSearchIndex _ HI) as [Hk1 Hc1 _].
    destruct (Hc1 Hsome k _ Hcache) as [Hdb Hv].
    rewrite db_initSearchIndex in Hdb.
    assert (id (memory r) = k) as Hid by exact (keyedById_lookup _ _ _ Hk Hdb).
    rewrite Hid, Hdb in Hm. injection Hm as Heq. by rewrite Heq in Hv.
  - intros cat limit. eapply collect_hides_invalid; [done| |done|done].
    intros x Hx. by apply elem_of_scanCategoryPrev in Hx as [_ Hx].
  - intros limit. eapply collect_hides_invalid; [done| |done|done].
    intros x Hx. by apply elem_of_scanPrev in Hx.
  - intros limit. eapply collect_hides_invalid; [done| |done|done].
    intros x Hx. by apply elem_of_scanPrev in Hx.
  - unfold getCount, delete_. rewrite db_removeFromSearchIndex. simpl.
    unfold validEntries. rewrite map_filter_delete. f_equal. symmetry.
    apply delete_id, map_lookup_filter_None. right. intros x Hx.
    rewrite Hm in Hx. by injection Hx as <-.
  - done.
  - unfold getById, delete_. rewrite db_removeFromSearchIndex. simpl.
    apply lookup_delete_eq.
Qed.


End StoreClaims.

(** ** The worked cases of the memory store *)

Section StoreCases.
Import MemoryStore StoreSpec.

Lemma Reference_laws : HostLaws Reference.host.
Proof.
  split. intros idx q limit k Hk. simpl in Hk. unfold Reference.containing in Hk.
  apply subseteq_take in Hk.
  apply list_elem_of_fmap in Hk as ([k' c] & -> & Hin).
  apply elem_of_map_to_list in Hin.
  apply map_lookup_filter_Some in Hin as [Hin _]. eauto.
Qed.

Lemma keyedById_db1 : keyedById Example.db1.
Proof. apply map_Forall_singleton. reflexivity. Qed.

Lemma store_then_getById_witness :
  db (fresh ∅) !! "m1"%string = None
  ∧ ∃ m st',
      store (H := Reference.host) Example.cat "fact" (Some 12) None "m1" 0 (fresh ∅)
      = (Some m, st')
      ∧ getById (id m) st' = Some m
      ∧ content m = Example.cat ∧ category m = "fact"%string
      ∧ importance m = Z.max 1 (Z.min 10 (default 5 (Some 12)))
      ∧ 1 ≤ importance m ≤ 10
      ∧ accessCount m = 0 ∧ isValid m = 1.
Proof.
  split; [reflexivity|].
  apply (store_then_getById (H := Reference.host)). reflexivity.
Defined.



Lemma invalidate_idempotent_delete_noop_witness :
  Reachable (H := Reference.host) (fresh Example.db1)
  ∧ db (fresh Example.db1) !! "m2"%string = None
  ∧ invalidate "m1" (invalidate "m1" (fresh Example.db1))
    = invalidate "m1" (fresh Example.db1)
  ∧ delete_ "m2" (fresh Example.db1) = fresh Example.db1.
Proof.
  assert (Reachable (H := Reference.host) (fresh Example.db1)) as Hreach
    by (apply ReachFresh, keyedById_db1).
  split; [exact Hreach|]. split; [reflexivity|]. split.
  - apply (invalidate_idempotent_delete_noop (H := Reference.host)).
  - apply (invalidate_idempotent_delete_noop (H := Reference.host));
      [exact Hreach|reflexivity].
Defined.

Lemma invalidated_hidden_witness :
  let st := invalidate "m1" (fresh Example.db1) in
  Reachable (H := Reference.host) st
  ∧ db st !! "m1"%string = Some (setValid 0 Example.m1)
  ∧ ("m1"%string ∉ resultIds (fst (search (H := Reference.host) Example.cat 10 0 st)))
  ∧ getCount st = 0%nat.
Proof.
  cbv zeta.
  assert (Reachable (H := Reference.host) (invalidate "m1" (fresh Example.db1)))
    as Hreach.
  { eapply ReachStep; [apply ReachFresh, keyedById_db1|apply StepInvalidate]. }
  assert (db (invalidate "m1" (fresh Example.db1)) !! "m1"%string
          = Some (setValid 0 Example.m1)) as Hm by reflexivity.
  split; [exact Hreach|]. split; [exact Hm|].
  destruct (invalidated_hidden (H := Reference.host) _ _ _ Hreach Hm eq_refl)
    as (Hsearch & _ & _ & _ & Hcount & _).
  split; [apply Hsearch|]. rewrite Hcount. reflexivity.
Defined.



End StoreCases.

(** ** The memory tools *)

Section ToolFacts.
Import MemoryStore StoreSpec MemoryTools ToolSpec.
Context `{H : Host}.

(** [invalidate] on a keyed database. *)
Lemma db_invalidate i st k :
  keyedById (db st) →
  db (invalidate i st) !! k
  = if decide (k = i) then setValid 0 <$> db st !! k else db st !! k.
Proof.
  intros Hk. unfold invalidate. destruct (db st !! i) as [m|] eqn:Hm.
  - rewrite db_removeFromSearchIndex. simpl.
    rewrite (keyedById_lookup _ _ _ Hk Hm).
    destruct (decide (k = i)) as [->|Hne].
    + by rewrite lookup_insert_eq, Hm.
    + by rewrite lookup_insert_ne.
  - destruct (decide (k = i)) as [->|Hne]; [by rewrite Hm|done].
Qed.

Lemma keyedById_invalidate i st : keyedById (db st) → keyedById (db (invalidate i st)).
Proof.
  intros Hk k m Hm. rewrite db_invalidate in Hm by done.
  destruct (decide (k = i)) as [->|Hne]; [|by apply Hk].
  destruct (db st !! i) as [m0|] eqn:Hm0; [|done]. simpl in Hm.
  injection Hm as <-. simpl. by apply Hk.
Qed.

Lemma forEach_invalidate (items : list Removal) st :
  forEach (λ item, opInvalidate (r_id item)) items st
  = ((), invalidateAll (r_id <$> items) st, CallInvalidate <$> (r_id <$> items)).
Proof.
  revert st. induction items as [|item items IH]; intros st; [done|].
  simpl. unfold mbind, Op_bind. unfold opInvalidate at 1, call. simpl.
  by rewrite IH.
Qed.

Lemma db_invalidateAll ids st k :
  keyedById (db st) →
  db (invalidateAll ids st) !! k
  = if decide (k ∈ ids) then setValid 0 <$> db st !! k else db st !! k.
Proof.
  revert st. induction ids as [|i ids IH]; intros st Hk.
  - simpl. destruct (decide (k ∈ [])) as [Hin|_]; [by apply elem_of_nil in Hin|done].
  - simpl. fold (invalidateAll ids (invalidate i st)).
    rewrite IH by by apply keyedById_invalidate.
    rewrite db_invalidate by done.
    destruct (decide (k = i)) as [->|Hne].
    + rewrite (decide_True (P := i ∈ i :: ids)) by apply list_elem_of_here.
      destruct (decide (i ∈ ids)); [|done].
      by destruct (db st !! i).
    + destruct (decide (k ∈ ids)) as [Hin|Hnin].
      * by rewrite decide_True by by apply list_elem_of_further.
      * rewrite decide_False; [done|].
        intros [?|?]%elem_of_cons; done.
Qed.

(** The groups of [contentMap] hold records of the list it was built from. *)
Lemma elem_of_addToGroup key m groups g x :
  g ∈ addToGroup key m groups → x ∈ g.2 →
  x = m ∨ ∃ g', g' ∈ groups ∧ x ∈ g'.2.
Proof.
  induction groups as [|[k ms] rest IH]; simpl.
  - intros ->%list_elem_of_singleton. simpl.
    intros ->%list_elem_of_singleton. by left.
  - destruct (decide (k = key)) as [->|Hne].
    + intros [->|Hg]%elem_of_cons Hx.
      * simpl in Hx. apply elem_of_app in Hx as [Hx| ->%list_elem_of_singleton];
          [|by left].
        right. exists (key, ms). split; [apply list_elem_of_here|done].
      * right. exists g. split; [by apply list_elem_of_further|done].
    + intros [->|Hg]%elem_of_cons Hx.
      * right. exists (k, ms). split; [apply list_elem_of_here|done].
      * destruct (IH Hg Hx) as [->|(g' & Hg' & Hx')]; [by left|].
        right. exists g'. split; [by apply list_elem_of_further|done].
Qed.

Lemma elem_of_contentMap_from allMemories groups g x :
  g ∈ foldl (λ groups m, addToGroup (normalizeContent (content m)) m groups)
        groups allMemories →
  x ∈ g.2 →
  x ∈ allMemories ∨ ∃ g', g' ∈ groups ∧ x ∈ g'.2.
Proof.
  revert groups. induction allMemories as [|m rest IH]; intros groups Hg Hx; simpl in *.
  - right. eauto.
  - destruct (IH _ Hg Hx) as [Hin|(g' & Hg' & Hx')].
    + left. by apply list_elem_of_further.
    + destruct (elem_of_addToGroup _ _ _ _ _ Hg' Hx') as [->|?].
      * left. apply list_elem_of_here.
      * by right.
Qed.

Lemma elem_of_concat {A} (ls : list (list A)) x :
  x ∈ concat ls → ∃ l, x ∈ l ∧ l ∈ ls.
Proof.
  rewrite list_elem_of_In, in_concat. intros (l & Hl & Hx). exists l.
  by rewrite !list_elem_of_In.
Qed.

Lemma elem_of_findDuplicates allMemories item :
  item ∈ findDuplicates allMemories →
  ∃ m, m ∈ allMemories ∧ r_id item = id m.
Proof.
  unfold findDuplicates. intros Hin. apply elem_of_concat in Hin as (l & Hitem & Hl).
  apply list_elem_of_fmap in Hl as (g & -> & Hg).
  unfold duplicatesOfGroup in Hitem.
  destruct (1 <? length g.2)%nat; [|by apply elem_of_nil in Hitem].
  apply list_elem_of_fmap in Hitem as (m & -> & Hm).
  apply subseteq_drop in Hm. apply elem_of_stableSort in Hm.
  destruct (elem_of_contentMap_from _ _ _ _ Hg Hm) as [Hin|(g' & Hg' & _)].
  - eauto.
  - by apply elem_of_nil in Hg'.
Qed.

Lemma elem_of_flagPass test reason allMemories toRemove item :
  item ∈ flagPass test reason allMemories toRemove →
  item ∈ toRemove ∨ ∃ m, m ∈ allMemories ∧ r_id item = id m.
Proof.
  unfold flagPass. revert toRemove.
  induction allMemories as [|m rest IH]; intros toRemove Hin; simpl in *; [by left|].
  apply IH in Hin as [Hin|(m' & Hm' & Hid)].
  - destruct (alreadyFlagged toRemove m); [by left|].
    destruct (test m); [|by left].
    apply elem_of_app in Hin as [Hin| ->%list_elem_of_singleton]; [by left|].
    right. exists m. split; [apply list_elem_of_here|done].
  - right. exists m'. split; [by apply list_elem_of_further|done].
Qed.

Lemma elem_of_candidates strategy now allMemories item :
  item ∈ candidates strategy now allMemories →
  ∃ m, m ∈ allMemories ∧ r_id item = id m.
Proof.
  unfold candidates. intros Hin.
  assert (∀ it, it ∈ (if isStrategy strategy "duplicates"
                      then findDuplicates allMemories else []) →
            ∃ m, m ∈ allMemories ∧ r_id it = id m) as H1.
  { intros it Hit. destruct (isStrategy strategy "duplicates");
      [by apply elem_of_findDuplicates|by apply elem_of_nil in Hit]. }
  set (r1 := if isStrategy strategy "duplicates" then _ else _) in *.
  assert (∀ it, it ∈ (if isStrategy strategy "outdated"
                      then flagPass (isOutdated now) Outdated allMemories r1
                      else r1) →
            ∃ m, m ∈ allMemories ∧ r_id it = id m) as H2.
  { intros it Hit. destruct (isStrategy strategy "outdated"); [|by apply H1].
    apply elem_of_flagPass in Hit as [Hit|Hit]; [by apply H1|done]. }
  set (r2 := if isStrategy strategy "outdated" then _ else _) in *.
  destruct (isStrategy strategy "low_importance"); [|by apply H2].
  apply elem_of_flagPass in Hin as [Hin|Hin]; [by apply H2|done].
Qed.

(** What [cleanup_memories] returns and does, in one equation. *)
Lemma cleanupMemoriesTool_eq strategy dryRun now st :
  let flagged := candidates (default "all"%string strategy) now (getRecent 100 st) in
  let dry := default false dryRun in
  cleanupMemoriesTool (mkCleanupArgs strategy dryRun) now st
  = (mkToolResult "cleanup_memories" (Cleaned (length flagged) dry flagged),
     if dry then st else invalidateAll (r_id <$> flagged) st,
     CallGetRecent 100
     :: if negb dry && (0 <? length flagged)%nat
        then CallInvalidate <$> (r_id <$> flagged) else []).
Proof.
  simpl. unfold cleanupMemoriesTool, mbind, Op_bind, opGetRecent, call. simpl.
  set (flagged := candidates _ now _).
  destruct (default false dryRun); simpl; [done|].
  destruct (0 <? length flagged)%nat eqn:Hlen.
  - rewrite forEach_invalidate. simpl. by rewrite app_nil_r.
  - simpl. apply Nat.ltb_ge in Hlen.
    destruct flagged; [done|simpl in Hlen; lia].
Qed.

End ToolFacts.

Section ToolClaims.
Import MemoryStore StoreSpec MemoryTools ToolSpec.
Context `{H : Host}.

(** C5. From any reachable store and for any strategy, [cleanup_memories]
    reports the same flagged list and count with [dryRun] true and false;
    with [dryRun] true the store is left as it was, so every flagged record
    (each is a valid record of the database) stays valid; with [dryRun]
    false the flagged records get the validity flag 0 and every other record
    is left as it was. *)
Theorem cleanup_dryRun_agrees strategy now st :
  Reachable st →
  let dry := cleanupMemoriesTool (mkCleanupArgs strategy (Some true)) now st in
  let wet := cleanupMemoriesTool (mkCleanupArgs strategy (Some false)) now st in
  ∃ flagged,
    output dry.1.1 = Cleaned (length flagged) true flagged
    ∧ output wet.1.1 = Cleaned (length flagged) false flagged
    ∧ dry.1.2 = st
    ∧ (∀ item, item ∈ flagged → ∃ m, db st !! r_id item = Some m ∧ valid m)
    ∧ (∀ k, db wet.1.2 !! k
            = if decide (k ∈ r_id <$> flagged) then setValid 0 <$> db st !! k
              else db st !! k).
Proof.
  intros Hreach. pose proof (inv_keys _ (Inv_reachable _ Hreach)) as Hk.
  simpl. rewrite !cleanupMemoriesTool_eq. simpl.
  set (flagged := candidates _ now _). exists flagged.
  split; [done|]. split; [done|]. split; [done|]. split.
  - intros item Hitem.
    apply elem_of_candidates in Hitem as (m & Hm & ->).
    apply elem_of_collect in Hm as [Hm Hv]. apply elem_of_scanPrev in Hm as [k Hkm].
    rewrite (keyedById_lookup _ _ _ Hk Hkm). eauto.
  - intros k. by apply db_invalidateAll.
Qed.

(** [recall_memory] never checks the category: with a non-empty query and a
    non-empty category it asks the store for that category and reports
    success. *)
Lemma recall_queries_any_category query limit cat now st :
  query ≠ [] → cat ≠ EmptyString →
  ∃ memories st' calls,
    recallMemoryTool (mkRecallArgs (Some query) limit (Some cat)) now st
    = (mkToolResult "recall_memory" (Recalled (format <$> memories) (length memories)),
       st', CallGetByCategory cat 50 :: calls).
Proof.
  intros Hq Hcat. destruct query as [|q0 q']; [done|]. destruct cat as [|a cat']; [done|].
  unfold recallMemoryTool. simpl. unfold mbind, Op_bind, opGetByCategory, call. simpl.
  set (memories := Js.sliceTo _ _).
  destruct (forEach _ memories st) as [[[] st'] calls] eqn:Hfe.
  exists memories, st', (calls ++ []). done.
Qed.

End ToolClaims.

Section ToolCases.
Import MemoryStore StoreSpec MemoryTools ToolSpec.

Lemma Reachable_attic : Reachable (H := Reference.host) (fresh Attic.db).
Proof.
  apply ReachFresh. unfold Attic.db.
  apply (keyedById_insert _ Attic.note), (keyedById_insert _ Attic.liking),
    map_Forall_empty.
Qed.

Lemma cleanup_dryRun_agrees_witness :
  let st := fresh Attic.db in
  let dry := cleanupMemoriesTool (H := Reference.host)
               (mkCleanupArgs None (Some true)) Attic.now st in
  let wet := cleanupMemoriesTool (H := Reference.host)
               (mkCleanupArgs None (Some false)) Attic.now st in
  Reachable (H := Reference.host) st
  ∧ output dry.1.1 = Cleaned 1 true [removal Outdated Attic.note]
  ∧ output wet.1.1 = Cleaned 1 false [removal Outdated Attic.note]
  ∧ isValid <$> db dry.1.2 !! "a1"%string = Some 1
  ∧ isValid <$> db wet.1.2 !! "a1"%string = Some 0
  ∧ isValid <$> db wet.1.2 !! "a2"%string = Some 1.
Proof.
  cbv zeta. split; [exact Reachable_attic|].
  destruct (cleanup_dryRun_agrees (H := Reference.host) None Attic.now _
              Reachable_attic) as (flagged & Hdry & Hwet & Hsame & _ & Hdb).
  assert (output (cleanupMemoriesTool (H := Reference.host)
                    (mkCleanupArgs None (Some true)) Attic.now (fresh Attic.db)).1.1
          = Cleaned 1 true [removal Outdated Attic.note]) as Hrun
    by (vm_compute; reflexivity).
  rewrite Hrun in Hdry. injection Hdry as _ <-.
  split; [exact Hrun|]. split; [exact Hwet|].
  split; [rewrite Hsame; reflexivity|].
  rewrite !Hdb. split; reflexivity.
Defined.

(** C1, at the failing input: for the category "hobby", which is none of
    the five, [recall_memory] calls [getByCategory] on the store and reports
    success with an empty list; [store_memory] rejects the same category
    before any call on the store. *)
Theorem recall_unknown_category_reaches_store :
  ("hobby"%string ∉ validCategories)
  ∧ recallMemoryTool (H := Reference.host) Scenario.recallHobby 0 (fresh Example.db1)
    = (mkToolResult "recall_memory" (Recalled [] 0), fresh Example.db1,
       [CallGetByCategory "hobby" 50])
  ∧ storeMemoryTool (H := Reference.host) Scenario.storeHobby "m2" 0 (fresh Example.db1)
    = (mkToolResult "store_memory"
         (Failed (ValidationFailure
            "Invalid category. Must be one of: fact, preference, event, correction, context")),
       fresh Example.db1, []).
Proof.
  split; [|split].
  - unfold validCategories. intros Hin. by repeat (apply elem_of_cons in Hin as [?|Hin];
      [done|]); apply elem_of_nil in Hin.
  - vm_compute. reflexivity.
  - vm_compute. reflexivity.
Qed.

End ToolCases.

(** ** Scenario A: three duplicates *)

Section Duplicates.
Import MemoryStore StoreSpec MemoryTools ToolSpec.
Context `{H : Host}.

Lemma db_store c cat imp meta newId now st :
  db st !! newId = None →
  db (store c cat imp meta newId now st).2
  = <[newId := mkMemory newId c cat (clampImportance (default 5 imp))
                 (extractKeywords c) now now 0 1 meta]> (db st).
Proof.
  intros Hnew. unfold store. rewrite db_initSearchIndex, Hnew. simpl.
  rewrite db_addToSearchIndex. simpl. by rewrite db_initSearchIndex.
Qed.

Lemma Permutation_three {A} (a b c : A) l :
  l ≡ₚ [a; b; c] →
  l = [a; b; c] ∨ l = [a; c; b] ∨ l = [b; a; c]
  ∨ l = [b; c; a] ∨ l = [c; a; b] ∨ l = [c; b; a].
Proof.
  intros Hp. symmetry in Hp.
  apply Permutation_cons_inv_l in Hp as (l1 & l2 & -> & Hp).
  apply Permutation_cons_inv_l in Hp as (l3 & l4 & Heq & Hp).
  apply Permutation_singleton_l in Hp.
  assert (l1 ++ l2 = [b; c] ∨ l1 ++ l2 = [c; b]) as Hcases.
  { rewrite Heq. destruct l3 as [|u [|v l3]]; simpl in Hp.
    - subst l4. by left.
    - destruct l4; [|done]. injection Hp as <-. by right.
    - done. }
  clear Heq Hp.
  destruct Hcases as [Hc|Hc];
    destruct l1 as [|u [|v [|w l1]]]; simpl in Hc; simplify_eq; simpl; auto 10;
    destruct l1; done.
Qed.

Lemma filter_Forall_id {A} (P : A → Prop) `{∀ x, Decision (P x)} l :
  Forall P l → filter P l = l.
Proof.
  induction 1 as [|x l Hx _ IH]; [done|].
  by rewrite filter_cons_True, IH.
Qed.

Lemma getRecent_all limit st :
  Z.of_nat (size (db st)) ≤ limit → map_Forall (λ _ m, valid m) (db st) →
  getRecent limit st ≡ₚ records (db st).
Proof.
  intros Hsize Hall. unfold getRecent, collect.
  assert (Forall valid (scanPrev createdAt (db st))) as Hv.
  { apply Forall_forall. intros m [k Hk]%elem_of_scanPrev. by eapply Hall. }
  rewrite take_ge.
  - rewrite (filter_Forall_id _ _ Hv).
    unfold scanPrev. apply stableSort_Permutation.
  - pose proof (length_filter valid (scanPrev createdAt (db st))) as Hl.
    rewrite length_scanPrev in Hl. lia.
Qed.

Lemma records_insert d i m :
  d !! i = None → records (<[i := m]> d) ≡ₚ m :: records d.
Proof.
  intros Hi. unfold records. by rewrite map_to_list_insert.
Qed.

(** Records that normalise alike form one group, in their order. *)
Lemma contentMap_same key ms l :
  Forall (λ m, normalizeContent (content m) = key) l →
  foldl (λ groups m, addToGroup (normalizeContent (content m)) m groups) [(key, ms)] l
  = [(key, ms ++ l)].
Proof.
  revert ms. induction l as [|m l IH]; intros ms Hl; simpl.
  - by rewrite app_nil_r.
  - apply Forall_cons in Hl as [Hm Hl]. rewrite Hm.
    rewrite decide_True by done. rewrite IH by done. by rewrite <- app_assoc.
Qed.

Lemma findDuplicates_same key m l :
  Forall (λ m, normalizeContent (content m) = key) (m :: l) → l ≠ [] →
  findDuplicates (m :: l)
  = removal DuplicateContent <$> drop 1 (Js.stableSort byImportance (m :: l)).
Proof.
  intros Hl Hne. apply Forall_cons in Hl as [Hm Hl].
  unfold findDuplicates, contentMap. simpl foldl at 1. rewrite Hm.
  rewrite contentMap_same by done. simpl fmap. unfold duplicatesOfGroup.
  cbn [snd app]. destruct l as [|m' l]; [done|].
  cbn [length Nat.ltb Nat.leb concat]. by rewrite app_nil_r.
Qed.

(** C6. Three records whose contents normalise alike (as "喜欢猫",
    "喜欢猫!" and "喜欢猫 " do), stored with importances 5, 9 and 3 (under
    any distinct identifiers, at any times, in any categories) on a new
    empty store: [cleanup_memories] with strategy 'duplicates' and [dryRun]
    false reports 2 removals, those of the records of importance 5 and 3,
    which end with the validity flag 0, while the record of importance 9
    stays valid. *)
Theorem cleanup_duplicates_keeps_most_important
    c1 c2 c3 cat1 cat2 cat3 i1 i2 i3 t1 t2 t3 now :
  i1 ≠ i2 → i1 ≠ i3 → i2 ≠ i3 →
  normalizeContent c2 = normalizeContent c1 →
  normalizeContent c3 = normalizeContent c1 →
  let r := Scenario.cleaned c1 c2 c3 cat1 cat2 cat3 i1 i2 i3 t1 t2 t3 now in
  ∃ details,
    output r.1.1 = Cleaned 2 false details
    ∧ r_id <$> details = [i1; i3]
    ∧ r_reason <$> details = [DuplicateContent; DuplicateContent]
    ∧ (importance <$> getById i1 r.1.2 = Some 5 ∧ isValid <$> getById i1 r.1.2 = Some 0)
    ∧ (importance <$> getById i2 r.1.2 = Some 9 ∧ isValid <$> getById i2 r.1.2 = Some 1)
    ∧ (importance <$> getById i3 r.1.2 = Some 3 ∧ isValid <$> getById i3 r.1.2 = Some 0).
Proof.
  intros H12 H13 H23 Hn2 Hn3. cbv zeta.
  unfold Scenario.cleaned, Scenario.stored.
  set (st1 := (store c1 cat1 (Some 5) None i1 t1 (fresh ∅)).2).
  set (st2 := (store c2 cat2 (Some 9) None i2 t2 st1).2).
  set (st3 := (store c3 cat3 (Some 3) None i3 t3 st2).2).
  set (m1 := mkMemory i1 c1 cat1 5 (extractKeywords c1) t1 t1 0 1 None).
  set (m2 := mkMemory i2 c2 cat2 9 (extractKeywords c2) t2 t2 0 1 None).
  set (m3 := mkMemory i3 c3 cat3 3 (extractKeywords c3) t3 t3 0 1 None).
  assert (db st1 = <[i1 := m1]> ∅) as Hdb1 by (by apply db_store).
  assert (db st2 = <[i2 := m2]> (<[i1 := m1]> ∅)) as Hdb2.
  { unfold st2. rewrite db_store, Hdb1; [done|].
    rewrite Hdb1. by rewrite lookup_insert_ne. }
  assert (db st3 = <[i3 := m3]> (<[i2 := m2]> (<[i1 := m1]> ∅))) as Hdb3.
  { unfold st3. rewrite db_store, Hdb2; [done|].
    rewrite Hdb2. by rewrite !lookup_insert_ne. }
  assert (keyedById (db st3)) as Hk.
  { rewrite Hdb3. apply (keyedById_insert _ m3), (keyedById_insert _ m2),
      (keyedById_insert _ m1), map_Forall_empty. }
  assert (getRecent 100 st3 ≡ₚ [m3; m2; m1]) as Hrecent.
  { rewrite getRecent_all.
    - rewrite Hdb3. rewrite !records_insert; rewrite ?lookup_insert_ne by done; try done.
    - rewrite Hdb3. rewrite !map_size_insert_None;
        rewrite ?lookup_insert_ne by done; rewrite ?map_size_empty; try done; lia.
    - rewrite Hdb3. repeat apply map_Forall_insert_2; try done;
        apply map_Forall_empty. }
  assert (∀ m, m ∈ [m3; m2; m1] →
            normalizeContent (content m) = normalizeContent c1) as Hnorm.
  { intros m Hm.
    repeat (apply elem_of_cons in Hm as [->|Hm]); [| | |by apply elem_of_nil in Hm];
      done. }
  assert (candidates "duplicates" now (getRecent 100 st3)
          = [removal DuplicateContent m1; removal DuplicateContent m3]) as Hcand.
  { unfold candidates.
    assert (isStrategy "duplicates" "duplicates" = true) as -> by reflexivity.
    assert (isStrategy "duplicates" "outdated" = false) as -> by reflexivity.
    assert (isStrategy "duplicates" "low_importance" = false) as -> by reflexivity.
    assert (Forall (λ m, normalizeContent (content m) = normalizeContent c1)
              (getRecent 100 st3)) as Hall.
    { rewrite Hrecent. apply Forall_forall. exact Hnorm. }
    destruct (Permutation_three _ _ _ _ Hrecent)
      as [Heq|[Heq|[Heq|[Heq|[Heq|Heq]]]]];
      rewrite Heq in Hall |- *;
      rewrite (findDuplicates_same _ _ _ Hall) by done; reflexivity. }
  pose proof (cleanupMemoriesTool_eq (Some "duplicates"%string) (Some false) now st3)
    as Heq.
  cbv zeta in Heq.
  change (default "all"%string (Some "duplicates"%string)) with "duplicates"%string in Heq.
  change (default false (Some false)) with false in Heq.
  rewrite Hcand in Heq. rewrite Heq. cbn [fst snd output].
  eexists. split; [reflexivity|]. split; [reflexivity|]. split; [reflexivity|].
  unfold getById. change (r_id <$> _) with [i1; i3].
  rewrite !db_invalidateAll by done. rewrite Hdb3.
  rewrite (decide_True (P := i1 ∈ [i1; i3])) by apply list_elem_of_here.
  rewrite (decide_True (P := i3 ∈ [i1; i3]))
    by apply list_elem_of_further, list_elem_of_here.
  rewrite (decide_False (P := i2 ∈ [i1; i3])).
  2:{ intros Hin. repeat (apply elem_of_cons in Hin as [?|Hin]; [done|]).
      by apply elem_of_nil in Hin. }
  rewrite lookup_insert_eq.
  rewrite (lookup_insert_ne _ i3 i2), lookup_insert_eq by done.
  rewrite (lookup_insert_ne _ i3 i1), (lookup_insert_ne _ i2 i1), lookup_insert_eq
    by done.
  done.
Qed.

End Duplicates.

Section DuplicatesCase.
Import MemoryStore MemoryTools.

Lemma cleanup_duplicates_keeps_most_important_witness :
  normalizeContent (H := Reference.host) Scenario.likesCatsBang
  = normalizeContent (H := Reference.host) Scenario.likesCats
  ∧ normalizeContent (H := Reference.host) Scenario.likesCatsSpace
    = normalizeContent (H := Reference.host) Scenario.likesCats
  ∧ ∃ details,
      output (Scenario.cleaned (H := Reference.host)
                Scenario.likesCats Scenario.likesCatsBang Scenario.likesCatsSpace
                "preference" "preference" "fact" "a" "b" "c" 1 1 2 3).1.1
      = Cleaned 2 false details
      ∧ r_id <$> details = ["a"; "c"]%string.
Proof.
  split; [reflexivity|]. split; [reflexivity|].
  destruct (cleanup_duplicates_keeps_most_important (H := Reference.host)
              Scenario.likesCats Scenario.likesCatsBang Scenario.likesCatsSpace
              "preference" "preference" "fact" "a" "b" "c" 1 1 2 3
              ltac:(done) ltac:(done) ltac:(done) eq_refl eq_refl)
    as (details & Hout & Hids & _).
  exists details. split; [exact Hout|exact Hids].
Defined.

End DuplicatesCase.

(** ** Trimming the history *)

Section TrimFacts.
Import Agent AgentSpec.

Lemma firstNonSystemFrom_bounds j h :
  firstNonSystemFrom j h = 0%nat ∨ (j ≤ firstNonSystemFrom j h)%nat.
Proof.
  revert j. induction h as [|m h IH]; intros j; simpl; [by left|].
  destruct (role m); try (right; lia).
  destruct (IH (S j)) as [?|?]; [by left|right; lia].
Qed.

(** Everything in front of [firstNonSystemIdx] is a system message. *)
Lemma before_firstNonSystem j h :
  Forall (λ m, role m = system) (take (firstNonSystemFrom j h - j) h).
Proof.
  revert j. induction h as [|m h IH]; intros j; simpl; [by constructor|].
  destruct (role m) eqn:Hr; try (rewrite Nat.sub_diag; by apply Forall_nil).
  destruct (firstNonSystemFrom_bounds (S j) h) as [H0|Hge].
  - rewrite H0. simpl. apply Forall_nil. done.
  - replace (firstNonSystemFrom (S j) h - j)%nat
      with (S (firstNonSystemFrom (S j) h - S j)) by lia.
    simpl. apply Forall_cons. split; [done|apply IH].
Qed.

Lemma filter_conversation_system l :
  Forall (λ m, role m = system) l → List.filter isConversation l = [].
Proof.
  induction 1 as [|m l Hm _ IH]; [done|]. simpl.
  unfold isConversation at 1. by rewrite Hm.
Qed.

Lemma conversation_after_firstNonSystem h :
  List.filter isConversation (drop (firstNonSystemIdx h) h)
  = List.filter isConversation h.
Proof.
  transitivity (List.filter isConversation
                  (take (firstNonSystemIdx h) h ++ drop (firstNonSystemIdx h) h));
    [|by rewrite take_drop].
  assert (List.filter isConversation (take (firstNonSystemIdx h) h) = []) as Hnone.
  { apply filter_conversation_system.
    pose proof (before_firstNonSystem 0 h) as Hf. by rewrite Nat.sub_0_r in Hf. }
  by rewrite List.filter_app, Hnone.
Qed.

(** The loop removes the oldest conversation messages, as many as it was
    asked to, and no system message. *)
Lemma trimLoop_conversation k r l :
  List.filter isConversation (trimLoop k r l)
  = drop (Z.to_nat (k - r)) (List.filter isConversation l).
Proof.
  revert r. induction l as [|m l IH]; intros r; simpl; [by rewrite drop_nil|].
  destruct (r <? k) eqn:Hr.
  - apply Z.ltb_lt in Hr. unfold isConversation at 2.
    destruct (role m) eqn:Hm; simpl.
    + unfold isConversation at 1. rewrite Hm. apply IH.
    + rewrite IH. replace (Z.to_nat (k - r)) with (S (Z.to_nat (k - (r + 1)))) by lia.
      done.
    + rewrite IH. replace (Z.to_nat (k - r)) with (S (Z.to_nat (k - (r + 1)))) by lia.
      done.
    + apply IH.
  - apply Z.ltb_ge in Hr. replace (Z.to_nat (k - r)) with 0%nat by lia. done.
Qed.

Lemma trimLoop_system k r l :
  List.filter isSystem (trimLoop k r l) = List.filter isSystem l.
Proof.
  revert r. induction l as [|m l IH]; intros r; simpl; [done|].
  destruct (r <? k); [|done].
  unfold isSystem at 2. destruct (role m) eqn:Hm; simpl.
  - unfold isSystem at 1. rewrite Hm. simpl. by rewrite IH.
  - apply IH.
  - apply IH.
  - apply IH.
Qed.

(** What trimming does keep of the claim C2: with a bound [N >= 0] that the
    number of exchanges exceeds, [N] exchanges are left, they are the most
    recent conversation messages, and every system message stays. *)
Lemma trimHistory_keeps_recent N h :
  0 ≤ N → N < turnsOf h →
  turnsOf (trimHistory N h) = N
  ∧ List.filter isConversation (trimHistory N h)
    = drop (Z.to_nat ((turnsOf h - N) * 2)) (List.filter isConversation h)
  ∧ List.filter isSystem (trimHistory N h) = List.filter isSystem h.
Proof.
  intros HN Hturns.
  assert (List.filter isConversation (trimHistory N h)
          = drop (Z.to_nat ((turnsOf h - N) * 2)) (List.filter isConversation h))
    as Hconv.
  { unfold trimHistory. rewrite (proj2 (Z.leb_gt _ _)) by done.
    assert (List.filter isConversation (take (firstNonSystemIdx h) h) = []) as Hnone.
    { apply filter_conversation_system.
      pose proof (before_firstNonSystem 0 h) as Hf. by rewrite Nat.sub_0_r in Hf. }
    rewrite List.filter_app, trimLoop_conversation, conversation_after_firstNonSystem.
    by rewrite Hnone, Z.sub_0_r. }
  split; [|split; [done|]].
  - unfold turnsOf at 1. rewrite Hconv, length_drop.
    unfold turnsOf in *.
    set (c := length (List.filter isConversation h)) in *.
    assert (0 ≤ Z.of_nat c `div` 2) by (apply Z.div_pos; lia).
    pose proof (Z.div_mod (Z.of_nat c) 2 ltac:(lia)) as Hdm.
    pose proof (Z.mod_pos_bound (Z.of_nat c) 2 ltac:(lia)) as Hmod.
    replace (Z.of_nat (c - Z.to_nat ((Z.of_nat c `div` 2 - N) * 2)))
      with (Z.of_nat c `mod` 2 + N * 2) by lia.
    rewrite Z.div_add by lia. rewrite Z.mod_div by lia. lia.
  - unfold trimHistory. rewrite (proj2 (Z.leb_gt _ _)) by done.
    rewrite List.filter_app, trimLoop_system, <- List.filter_app.
    by rewrite take_drop.
Qed.

(** C2, at the failing input. The example history has two exchanges by the
    count of [trimHistory] and no orphaned tool message. With
    [maxContextMessages = 1] the loop stops right after it removed the user
    message and the assistant message that asked for the tool: the result of
    that tool call stays, orphaned, behind the system message. *)
Theorem trimHistory_leaves_orphan :
  turnsOf TrimExample.history = 2
  ∧ orphans TrimExample.history = []
  ∧ trimHistory 1 TrimExample.history
    = [TrimExample.persona; TrimExample.result1; TrimExample.answer1;
       TrimExample.ask2; TrimExample.answer2]
  ∧ turnsOf (trimHistory 1 TrimExample.history) = 1
  ∧ orphans (trimHistory 1 TrimExample.history) = [TrimExample.result1].
Proof. repeat split; vm_compute; reflexivity. Qed.

End TrimFacts.

(** ** The agent loop *)

Section RunFacts.
Import Agent AgentSpec.
Context {W : Type} `{AH : AgentHost W} `{H : Host}.

Lemma length_executeToolCalls (cfg : Config W) now tcs mem w :
  length (executeToolCalls cfg now tcs mem w).1.1 = length tcs.
Proof.
  revert mem w. induction tcs as [|tc tcs IH]; intros mem w; simpl; [done|].
  destruct (executeToolCall cfg now tc mem w) as [[r mem1] w1].
  specialize (IH mem1 w1).
  destruct (executeToolCalls cfg now tcs mem1 w1) as [[rs mem2] w2].
  simpl in *. by rewrite IH.
Qed.

(** The result of one call is filed under the identifier of the call,
    unless the tool supplied one. *)
Lemma executeToolCall_answers (cfg : Config W) now tc mem w :
  toolsKeepCallId cfg →
  answers tc (toolMessage (executeToolCall cfg now (toRequest tc) mem w).1.1).
Proof.
  intros Hkeep. unfold executeToolCall. simpl. fold (callIdOf tc).
  destruct (toolRegistry cfg !! fn_name tc) as [t|] eqn:Ht; [|done].
  destruct (execute t _ mem w) as [[outcome added] w'] eqn:Hex.
  destruct outcome as [r|message]; [|done].
  simpl. rewrite (Hkeep _ _ _ _ _ _ _ _ Ht Hex). done.
Qed.

Lemma executeToolCalls_answers (cfg : Config W) now tcs mem w :
  toolsKeepCallId cfg →
  Forall2 answers tcs
    (toolMessage <$> (executeToolCalls cfg now (toRequest <$> tcs) mem w).1.1).
Proof.
  intros Hkeep. revert mem w.
  induction tcs as [|tc tcs IH]; intros mem w; simpl; [constructor|].
  pose proof (executeToolCall_answers cfg now tc mem w Hkeep) as Hone.
  destruct (executeToolCall cfg now (toRequest tc) mem w) as [[r mem1] w1].
  specialize (IH mem1 w1). simpl in IH |- *.
  destruct (executeToolCalls cfg now _ mem1 w1) as [[rs mem2] w2].
  simpl in *. by constructor.
Qed.

(** C4. With a recursion bound of 1, when the model answers the first
    request with tool calls and no content: [run] returns the empty string
    as content (and that response as [raw]); that first request is the only
    call of the model; and the history ends with the user message, the
    assistant message carrying the tool calls, and one tool message per tool
    call, in order, each the outcome of executing its call, filed under the
    call's identifier when the registered tools supply none of their own. *)
Theorem run_tool_calls_only (cfg : Config W) userInput options now st w am :
  default (maxRecursions cfg) (o_maxRecursions options) = 1 →
  sendChat (firstRequest cfg userInput st w) = Reply (Some am) →
  normalizeContent (am_content am) = [] →
  rawToolCallsOf am ≠ [] →
  let '(outcome, st', w', calls) := run cfg userInput options now st w in
  outcome = Completed [] (Some (Reply (Some am)))
  ∧ calls = [firstRequest cfg userInput st w]
  ∧ ∃ results,
      results = (executeToolCalls cfg now (toRequest <$> rawToolCallsOf am)
                   (memory st) (injectMemories cfg userInput st w).2).1.1
      ∧ history st'
        = trimHistory (maxContextMessages cfg) (history st)
          ++ [mkMessage user userInput None None None None;
              mkMessage assistant [] None None None (Some (rawToolCallsOf am))]
          ++ (toolMessage <$> results)
      ∧ length results = length (rawToolCallsOf am)
      ∧ (toolsKeepCallId cfg →
         Forall2 answers (rawToolCallsOf am) (toolMessage <$> results)).
Proof.
  intros Hmax Hreply Htext Hcalls.
  unfold run. rewrite Hmax. unfold firstRequest, startHistory in Hreply.
  destruct (injectMemories cfg userInput st w) as [injected w1] eqn:Hinj.
  simpl in Hreply. cbn [fst snd]. change (Z.to_nat 1) with 1%nat. simpl runLoop.
  rewrite Hreply. unfold normalizeAssistantMessage. rewrite Htext.
  destruct (rawToolCallsOf am) as [|tc tcs] eqn:Hraw; [done|].
  cbn [fmap list_fmap].
  change (toRequest tc :: (list_fmap _ _ toRequest tcs))
    with (toRequest <$> (tc :: tcs)).
  pose proof (length_executeToolCalls cfg now (toRequest <$> (tc :: tcs))
                (memory st) w1) as Hlen.
  pose proof (λ Hk, executeToolCalls_answers cfg now (tc :: tcs) (memory st) w1 Hk)
    as Hans.
  change (toRequest <$> tc :: tcs) with (toRequest tc :: (toRequest <$> tcs))
    in Hlen, Hans |- *.
  destruct (executeToolCalls cfg now (toRequest tc :: (toRequest <$> tcs))
              (memory st) w1) as [[results mem1] w2].
  simpl in Hlen, Hans. split; [done|]. split.
  - unfold firstRequest, startHistory. by rewrite Hinj.
  - exists results. split; [done|]. split.
    + simpl. by rewrite <- !app_assoc.
    + split; [by rewrite Hlen, length_fmap|done].
Qed.

End RunFacts.

Section RunCases.
Import Agent AgentSpec.

Lemma RunExample_toolsKeepCallId :
  toolsKeepCallId RunExample.cfg.
Proof.
  intros name t args mem w r added w' Ht Hex. unfold RunExample.cfg in Ht. simpl in Ht.
  apply lookup_singleton_Some in Ht as [_ <-]. simpl in Hex. by injection Hex as <-.
Qed.

Lemma run_tool_calls_only_witness :
  let result :=
    run (AH := RunExample.agentHost) (H := Reference.host) RunExample.cfg
      Example.cat (mkRunOptions (Some 1) None) 0 RunExample.start () in
  result.1.1.1 = Completed [] (Some (Reply (Some RunExample.reply)))
  ∧ length result.2 = 1%nat
  ∧ role <$> history result.1.1.2 = [user; assistant; tool]
  ∧ toolCallId <$> history result.1.1.2 = [None; None; Some "call_1"%string].
Proof.
  pose proof (run_tool_calls_only (AH := RunExample.agentHost) (H := Reference.host)
                RunExample.cfg Example.cat (mkRunOptions (Some 1) None) 0
                RunExample.start () RunExample.reply
                eq_refl eq_refl eq_refl ltac:(done)) as Hrun.
  simpl. destruct (run _ _ _ _ _ _) as [[[outcome st'] w'] calls] eqn:Hr.
  destruct Hrun as (Hout & Hcalls & results & Hres & Hhist & Hlen & Hans).
  simpl. split; [exact Hout|]. split; [by rewrite Hcalls|].
  rewrite Hhist, Hres. split; reflexivity.
Defined.

End RunCases.

(** ** Order of the results *)

Section SortFacts.
Context {A : Type}.

Lemma Sorted_insertSorted (before : A → A → bool) x l :
  (∀ a b, before a b = true ∨ before b a = true) →
  Sorted (λ a b, before a b = true) l →
  Sorted (λ a b, before a b = true) (Js.insertSorted before x l).
Proof.
  intros Htotal. induction 1 as [|y l Hl IH Hhd]; simpl.
  - by repeat constructor.
  - destruct (before x y) eqn:Hxy.
    + constructor; [by constructor|by constructor].
    + constructor; [done|].
      assert (before y x = true) as Hyx by (destruct (Htotal x y); congruence).
      destruct l as [|z l]; simpl.
      * by constructor.
      * inversion Hhd; subst. destruct (before x z); by constructor.
Qed.

Lemma Sorted_stableSort (before : A → A → bool) l :
  (∀ a b, before a b = true ∨ before b a = true) →
  Sorted (λ a b, before a b = true) (Js.stableSort before l).
Proof.
  intros Htotal. induction l as [|x l IH]; [constructor|].
  by apply Sorted_insertSorted.
Qed.

Lemma Sorted_weaken (R1 R2 : A → A → Prop) l :
  (∀ a b, R1 a b → R2 a b) → Sorted R1 l → Sorted R2 l.
Proof.
  intros Himp. induction 1 as [|x l Hl IH Hhd]; constructor; [done|].
  destruct Hhd; constructor. by apply Himp.
Qed.

Lemma StronglySorted_sublist (R : A → A → Prop) l1 l2 :
  l1 `sublist_of` l2 → StronglySorted R l2 → StronglySorted R l1.
Proof.
  induction 1 as [|x l1 l2 Hsub IH|x l1 l2 Hsub IH]; intros Hs.
  - constructor.
  - apply StronglySorted_inv in Hs as [Hs Hall]. constructor; [by apply IH|].
    eapply Forall_forall. intros y Hy. eapply Forall_forall in Hall; [done|].
    by eapply elem_of_sublist.
  - apply StronglySorted_inv in Hs as [Hs _]. by apply IH.
Qed.

(** A list sorted by [before] is strongly sorted for any transitive order
    that [before] implies. *)
Lemma stableSort_StronglySorted (before : A → A → bool) (R : A → A → Prop) l :
  (∀ a b, before a b = true ∨ before b a = true) →
  (∀ a b, before a b = true → R a b) →
  (∀ a b c, R a b → R b c → R a c) →
  StronglySorted R (Js.stableSort before l).
Proof.
  intros Htotal Himp Htrans.
  apply (@Sorted_StronglySorted _ R Htrans).
  eapply Sorted_weaken; [exact Himp|]. by apply Sorted_stableSort.
Qed.

Lemma sublist_sliceTo (e : Z) (l : list A) : Js.sliceTo e l `sublist_of` l.
Proof. unfold Js.sliceTo. destruct (e <? 0); apply sublist_take. Qed.

Lemma length_sliceTo (e : Z) (l : list A) :
  0 ≤ e → (length (Js.sliceTo e l) ≤ Z.to_nat e)%nat.
Proof.
  intros He. unfold Js.sliceTo. rewrite (proj2 (Z.ltb_ge _ _)) by done.
  rewrite length_take. lia.
Qed.

End SortFacts.

(** ** More about the memory store *)

Section StoreOrder.
Import MemoryStore StoreSpec.
Context `{H : Host}.

Lemma String_compare_trans s1 s2 s3 :
  String.compare s1 s2 ≠ Gt → String.compare s2 s3 ≠ Gt → String.compare s1 s3 ≠ Gt.
Proof.
  revert s2 s3. induction s1 as [|a s1 IH]; intros [|b s2] [|c s3]; simpl; try done.
  unfold Ascii.compare.
  destruct (N.compare_spec (N_of_ascii a) (N_of_ascii b)) as [Hab|Hab|Hab];
    destruct (N.compare_spec (N_of_ascii b) (N_of_ascii c)) as [Hbc|Hbc|Hbc];
    destruct (N.compare_spec (N_of_ascii a) (N_of_ascii c)) as [Hac|Hac|Hac];
    try done; try lia.
  apply IH.
Qed.

Lemma String_leb_trans s1 s2 s3 :
  String.leb s1 s2 = true → String.leb s2 s3 = true → String.leb s1 s3 = true.
Proof.
  unfold String.leb. intros H12 H23.
  pose proof (String_compare_trans s1 s2 s3) as Ht.
  destruct (String.compare s1 s2), (String.compare s2 s3), (String.compare s1 s3);
    try done; exfalso; by apply Ht.
Qed.

Lemma idDesc_total a b : idDesc a b = true ∨ idDesc b a = true.
Proof. unfold idDesc. apply String.leb_total. Qed.

Lemma idDesc_trans a b c : idDesc a b = true → idDesc b c = true → idDesc a c = true.
Proof. unfold idDesc. intros Hab Hbc. by eapply String_leb_trans. Qed.

Lemma keyDesc_total key a b : keyDesc key a b = true ∨ keyDesc key b a = true.
Proof.
  unfold keyDesc. destruct (Z.lt_trichotomy (key a) (key b)) as [Hlt|[Heq|Hgt]].
  - right. by rewrite (proj2 (Z.ltb_lt _ _)).
  - destruct (idDesc_total a b) as [Hd|Hd]; [left|right]; rewrite Hd;
      rewrite (proj2 (Z.eqb_eq _ _)) by done; apply orb_true_r.
  - left. by rewrite (proj2 (Z.ltb_lt _ _)).
Qed.

Lemma keyDesc_spec key a b :
  keyDesc key a b = true ↔ key b < key a ∨ (key a = key b ∧ idDesc a b = true).
Proof.
  unfold keyDesc. rewrite orb_true_iff, andb_true_iff, Z.ltb_lt, Z.eqb_eq. done.
Qed.

Lemma keyDesc_trans key a b c :
  keyDesc key a b = true → keyDesc key b c = true → keyDesc key a c = true.
Proof.
  rewrite !keyDesc_spec. intros [Hab|[Hab Hiab]] [Hbc|[Hbc Hibc]]; try (left; lia).
  right. split; [lia|]. by eapply idDesc_trans.
Qed.

Lemma scanPrev_sorted key d :
  StronglySorted (λ a b, keyDesc key a b = true) (scanPrev key d).
Proof.
  unfold scanPrev. apply stableSort_StronglySorted.
  - apply keyDesc_total.
  - done.
  - apply keyDesc_trans.
Qed.

Lemma scanCategoryPrev_sorted cat d :
  StronglySorted (λ a b, idDesc a b = true) (scanCategoryPrev cat d).
Proof.
  unfold scanCategoryPrev. apply stableSort_StronglySorted.
  - apply idDesc_total.
  - done.
  - apply idDesc_trans.
Qed.

Lemma collect_sublist limit scan : collect limit scan `sublist_of` scan.
Proof.
  unfold collect. etrans; [apply sublist_take|apply sublist_filter].
Qed.

Lemma length_collect limit scan : (length (collect limit scan) ≤ Z.to_nat limit)%nat.
Proof. unfold collect. rewrite length_take. lia. Qed.

(** The identifiers of the records are the keys of the database. *)
Lemma ids_of_records d : keyedById d → id <$> records d = (map_to_list d).*1.
Proof.
  intros Hk. unfold records. rewrite <- list_fmap_compose.
  apply list_fmap_ext. intros i [k m] Hi. simpl.
  apply (Hk k m). apply elem_of_map_to_list. by eapply list_elem_of_lookup_2.
Qed.

Lemma NoDup_ids_records d : keyedById d → NoDup (id <$> records d).
Proof. intros Hk. rewrite ids_of_records by done. apply NoDup_fst_map_to_list. Qed.

Lemma NoDup_ids_scanPrev key d : keyedById d → NoDup (id <$> scanPrev key d).
Proof.
  intros Hk. unfold scanPrev. rewrite stableSort_Permutation.
  by apply NoDup_ids_records.
Qed.

Lemma NoDup_ids_scanCategoryPrev cat d :
  keyedById d → NoDup (id <$> scanCategoryPrev cat d).
Proof.
  intros Hk. unfold scanCategoryPrev. rewrite stableSort_Permutation.
  eapply sublist_NoDup; [by apply NoDup_ids_records|].
  apply fmap_sublist, sublist_filter.
Qed.

Lemma NoDup_ids_collect limit scan :
  NoDup (id <$> scan) → NoDup (id <$> collect limit scan).
Proof.
  intros Hnd. eapply sublist_NoDup; [done|]. apply fmap_sublist, collect_sublist.
Qed.

(** A listed record is a valid record of the database, under its id. *)
Lemma collect_stored limit scan d m :
  keyedById d → (∀ x, x ∈ scan → ∃ k, d !! k = Some x) →
  m ∈ collect limit scan → d !! id m = Some m ∧ isValid m = 1.
Proof.
  intros Hk Hscan Hm. apply elem_of_collect in Hm as [Hm Hv].
  destruct (Hscan m Hm) as [k Hkm].
  by rewrite (keyedById_lookup _ _ _ Hk Hkm).
Qed.

End StoreOrder.

Section StoreExtraFacts.
Import MemoryStore StoreSpec.
Context `{H : Host}.

Lemma initSearchIndex_idem st :
  initSearchIndex (initSearchIndex st) = initSearchIndex st.
Proof.
  unfold initSearchIndex at 2 3. destruct (indexInitialized st) eqn:Hinit.
  - unfold initSearchIndex. by rewrite Hinit.
  - done.
Qed.

Lemma state_after_search query limit now st :
  (search query limit now st).2 = initSearchIndex st.
Proof.
  unfold search. destruct (searchIndex (initSearchIndex st)); [|done].
  by destruct (trim query).
Qed.

(** Once an instance has built its index, the index exists. *)
Lemma Reachable_index_present st :
  Reachable st → indexInitialized st = true → is_Some (searchIndex st).
Proof.
  assert (∀ s, is_Some (searchIndex (initSearchIndex s))
               ∨ (indexInitialized s = true ∧ initSearchIndex s = s)) as Hinit.
  { intros s. unfold initSearchIndex. destruct (indexInitialized s); eauto. }
  induction 1 as [d Hd|st st' Hreach IH Hstep]; [done|].
  destruct Hstep; simpl.
  - unfold store. intros Hflag.
    destruct (db (initSearchIndex st) !! newId); simpl in *.
    + destruct (Hinit st) as [?|[Hf Heq]]; [done|]. rewrite Heq. by apply IH.
    + assert (is_Some (searchIndex (initSearchIndex st))) as [idx Hidx].
      { destruct (Hinit st) as [?|[Hf Heq]]; [done|]. rewrite Heq. by apply IH. }
      unfold addToSearchIndex, putRecord. simpl. rewrite Hidx. simpl. eauto.
  - rewrite state_after_search. intros Hflag.
    destruct (Hinit st) as [?|[Hf Heq]]; [done|]. rewrite Heq. by apply IH.
  - unfold recordAccess. destruct (db st !! i); [|done].
    destruct (decide _); simpl; done.
  - unfold invalidate. destruct (db st !! i); [|done].
    unfold removeFromSearchIndex, putRecord. simpl.
    destruct (searchIndex st) eqn:Hidx; simpl; [done|].
    rewrite ?Hidx. intros Hf. destruct (IH Hf) as [? [=]].
  - unfold delete_, removeFromSearchIndex. simpl.
    destruct (searchIndex st) eqn:Hidx; simpl; [done|].
    rewrite ?Hidx. intros Hf. destruct (IH Hf) as [? [=]].
  - unfold update. destruct (db st !! i); [|done]. simpl. intros Hf.
    destruct (IH Hf) as [idx Hidx]. rewrite Hidx. unfold reindex.
    by destruct (contentChanged u s).
  - done.
  - done.
  - unfold rebuildSearchIndex. intros _. by unfold initSearchIndex, close.
Qed.

Lemma valid_records_Permutation d :
  keyedById d → filter valid (records d) ≡ₚ records (validEntries d).
Proof.
  intros Hk. apply NoDup_Permutation.
  - apply NoDup_filter. eapply NoDup_fmap_1. by apply NoDup_ids_records.
  - eapply NoDup_fmap_1. apply NoDup_ids_records.
    intros k m Hm. apply map_lookup_filter_Some in Hm as [Hm _]. by apply Hk.
  - intros m. rewrite list_elem_of_filter, !elem_of_records. split.
    + intros [Hv [k Hm]]. exists k. by apply map_lookup_filter_Some.
    + intros [k Hm]. apply map_lookup_filter_Some in Hm as [Hm Hv]. eauto.
Qed.

Lemma length_valid_records d :
  keyedById d → length (filter valid (records d)) = size (validEntries d).
Proof.
  intros Hk. rewrite valid_records_Permutation by done. apply length_records.
Qed.

Lemma getCount_putRecord_same_validity m m' st i :
  db st !! i = Some m → id m' = i → (valid m' ↔ valid m) →
  getCount (putRecord m' st) = getCount st.
Proof.
  intros Hm Hid Hv. unfold getCount, putRecord, validEntries. simpl. rewrite Hid.
  destruct (decide (valid m)) as [Hvm|Hvm].
  - rewrite map_filter_insert_True by (simpl; tauto).
    apply map_size_insert_Some. exists m. by apply map_lookup_filter_Some.
  - rewrite map_filter_insert_False by (simpl; tauto).
    rewrite map_filter_delete. f_equal. apply delete_id.
    apply map_lookup_filter_None. right. intros x Hx. rewrite Hm in Hx.
    by injection Hx as <-.
Qed.

End StoreExtraFacts.

Section StoreExtras.
Import MemoryStore StoreSpec.
Context `{H : Host}.


(** X2. From a reachable store, every result of [search] is a valid record
    of the database, stored under its identifier, and the index holds its
    content under that identifier. *)
Theorem search_results_stored `{!HostLaws H} query limit now st r :
  Reachable st → r ∈ (search query limit now st).1 →
  db st !! id (memory r) = Some (memory r)
  ∧ isValid (memory r) = 1
  ∧ ∃ idx, searchIndex (search query limit now st).2 = Some idx
           ∧ idx !! id (memory r) = Some (content (memory r)).
Proof.
  intros Hreach Hr. pose proof (Inv_reachable _ Hreach) as HI.
  pose proof (Inv_initSearchIndex _ HI) as [Hk Hc Hi].
  apply search_results_cached in Hr as (k & Hcache & [idx Hidx] & Hfound).
  destruct (Hc (mk_is_Some _ _ Hidx) k _ Hcache) as [Hdb Hv].
  assert (id (memory r) = k) as Hid by exact (keyedById_lookup _ _ _ Hk Hdb).
  rewrite db_initSearchIndex in Hdb. rewrite Hid.
  split; [done|]. split; [done|].
  rewrite state_after_search. exists idx. split; [done|].
  destruct (flexSearch_sound _ _ _ _ (Hfound idx Hidx)) as [c Hc'].
  destruct (Hi idx Hidx k c Hc') as (m' & Hm' & <-).
  rewrite db_initSearchIndex in Hm'. rewrite Hdb in Hm'. by injection Hm' as <-.
Qed.

(** X3. A [search] never changes the database: all it does to the store is
    to build the index if it was not built, so a second search leaves the
    store as the first one left it; and a query that is empty after
    trimming has no result. *)
Theorem search_only_builds_index query limit now st :
  db (search query limit now st).2 = db st
  ∧ (indexInitialized st = true → (search query limit now st).2 = st)
  ∧ (∀ query' limit' now',
       (search query' limit' now' (search query limit now st).2).2
       = (search query limit now st).2)
  ∧ (trim query = [] → (search query limit now st).1 = []).
Proof.
  rewrite !state_after_search. split; [apply db_initSearchIndex|]. split; [|split].
  - intros Hinit. unfold initSearchIndex. by rewrite Hinit.
  - intros query' limit' now'. rewrite state_after_search. apply initSearchIndex_idem.
  - intros Hblank. unfold search. destruct (searchIndex (initSearchIndex st)); [|done].
    by rewrite Hblank.
Qed.

(** X4. From a reachable store, [getRecent] lists valid records of the
    database, each once, newest first (descending [createdAt], ties by
    descending identifier), and [getMostImportant] does the same by
    descending [importance]; neither returns more than [limit] records. *)
Theorem recent_and_important_sorted limit st :
  Reachable st →
  (StronglySorted (λ a b, keyDesc createdAt a b = true) (getRecent limit st)
   ∧ StronglySorted (λ a b, keyDesc importance a b = true) (getMostImportant limit st))
  ∧ (NoDup (id <$> getRecent limit st) ∧ NoDup (id <$> getMostImportant limit st))
  ∧ ((length (getRecent limit st) ≤ Z.to_nat limit)%nat
     ∧ (length (getMostImportant limit st) ≤ Z.to_nat limit)%nat)
  ∧ (∀ m, m ∈ getRecent limit st ∨ m ∈ getMostImportant limit st →
          db st !! id m = Some m ∧ isValid m = 1).
Proof.
  intros Hreach. pose proof (inv_keys _ (Inv_reachable _ Hreach)) as Hk.
  unfold getRecent, getMostImportant. split; [|split; [|split]].
  - split; (eapply StronglySorted_sublist;
            [apply collect_sublist|apply scanPrev_sorted]).
  - split; by apply NoDup_ids_collect, NoDup_ids_scanPrev.
  - split; apply length_collect.
  - intros m [Hm|Hm];
      apply (collect_stored _ _ _ _ Hk) in Hm; try done;
      intros x Hx; by apply elem_of_scanPrev in Hx.
Qed.

(** X5. From a reachable store, [getByCategory] lists valid records of the
    database that have exactly the category asked for, each once, in
    descending order of identifier, and at most [limit] of them. *)
Theorem category_listing_sorted cat limit st :
  Reachable st →
  StronglySorted (λ a b, String.leb (id b) (id a) = true) (getByCategory cat limit st)
  ∧ NoDup (id <$> getByCategory cat limit st)
  ∧ (length (getByCategory cat limit st) ≤ Z.to_nat limit)%nat
  ∧ (∀ m, m ∈ getByCategory cat limit st →
          category m = cat ∧ db st !! id m = Some m ∧ isValid m = 1).
Proof.
  intros Hreach. pose proof (inv_keys _ (Inv_reachable _ Hreach)) as Hk.
  unfold getByCategory. split; [|split; [|split]].
  - eapply StronglySorted_sublist; [apply collect_sublist|].
    apply scanCategoryPrev_sorted.
  - by apply NoDup_ids_collect, NoDup_ids_scanCategoryPrev.
  - apply length_collect.
  - intros m Hm. split.
    + apply elem_of_collect in Hm as [Hm _].
      by apply elem_of_scanCategoryPrev in Hm as [Hc _].
    + apply (collect_stored _ _ _ _ Hk) in Hm; [done|].
      intros x Hx. by apply elem_of_scanCategoryPrev in Hx as [_ Hx].
Qed.

(** X6. From a reachable store, [recordAccess] on a stored identifier adds
    one to the access count and sets the time of last access, leaving the
    rest of the record, every other record, the count of valid records and
    the search index as they were; on an unknown identifier it changes
    nothing. *)
Theorem recordAccess_effect i now st :
  Reachable st →
  match db st !! i with
  | Some m =>
      ∃ m', getById i (recordAccess i now st) = Some m'
        ∧ accessCount m' = accessCount m + 1 ∧ lastAccessedAt m' = now
        ∧ (id m' = id m ∧ content m' = content m ∧ category m' = category m
           ∧ importance m' = importance m ∧ keywords m' = keywords m
           ∧ createdAt m' = createdAt m ∧ isValid m' = isValid m
           ∧ metadata m' = metadata m)
        ∧ (∀ k, k ≠ i → db (recordAccess i now st) !! k = db st !! k)
        ∧ getCount (recordAccess i now st) = getCount st
        ∧ searchIndex (recordAccess i now st) = searchIndex st
  | None => recordAccess i now st = st
  end.
Proof.
  intros Hreach. pose proof (inv_keys _ (Inv_reachable _ Hreach)) as Hk.
  destruct (db st !! i) as [m|] eqn:Hm; [|by unfold recordAccess; rewrite Hm].
  assert (id m = i) as Hid by exact (keyedById_lookup _ _ _ Hk Hm).
  assert (db (recordAccess i now st) = <[i := touch now m]> (db st)) as Hdb.
  { unfold recordAccess. rewrite Hm. unfold putRecord. simpl. rewrite Hid.
    by destruct (decide _). }
  exists (touch now m). unfold getById. rewrite Hdb, lookup_insert_eq.
  split; [done|]. repeat split; try done.
  - intros k Hne. by rewrite lookup_insert_ne.
  - unfold getCount. rewrite Hdb.
    pose proof (getCount_putRecord_same_validity m (touch now m) st i Hm Hid) as Hc.
    unfold getCount, putRecord in Hc. simpl in Hc. rewrite Hid in Hc. by apply Hc.
  - unfold recordAccess. rewrite Hm. by destruct (decide _).
Qed.

(** X7. After [clearAll] nothing is left: the count is 0, [getById] finds
    nothing, every listing and every search is empty. *)
Theorem clearAll_empties st :
  getCount (clearAll st) = 0%nat
  ∧ (∀ i, getById i (clearAll st) = None)
  ∧ (∀ limit, getRecent limit (clearAll st) = []
              ∧ getMostImportant limit (clearAll st) = [])
  ∧ (∀ cat limit, getByCategory cat limit (clearAll st) = [])
  ∧ (∀ query limit now, (search query limit now (clearAll st)).1 = []).
Proof.
  assert (records (∅ : gmap string StoredMemory) = []) as Hrec
    by (unfold records; by rewrite map_to_list_empty).
  split; [|split; [|split; [|split]]].
  - unfold getCount, validEntries, clearAll. simpl.
    by rewrite map_filter_empty, map_size_empty.
  - intros i. apply lookup_empty.
  - intros limit. unfold getRecent, getMostImportant, scanPrev, collect, clearAll.
    simpl. rewrite Hrec. simpl. by destruct (Z.to_nat limit).
  - intros cat limit. unfold getByCategory, scanCategoryPrev, collect, clearAll.
    simpl. rewrite Hrec. simpl. by destruct (Z.to_nat limit).
  - intros query limit now. apply elem_of_nil_inv. intros r Hr.
    apply search_results_cached in Hr as (k & Hcache & _).
    unfold initSearchIndex, clearAll in Hcache. simpl in Hcache.
    destruct (indexInitialized st); simpl in Hcache.
    + by rewrite lookup_empty in Hcache.
    + unfold validEntries in Hcache.
      by rewrite map_filter_empty, lookup_empty in Hcache.
Qed.

(** X8. [rebuildSearchIndex] leaves the database as it is and makes the
    index and the cache exact: the index holds the content of every valid
    record and nothing else, the cache every valid record and nothing
    else. *)
Theorem rebuild_index_exact st :
  db (rebuildSearchIndex st) = db st
  ∧ indexInitialized (rebuildSearchIndex st) = true
  ∧ ∃ idx, searchIndex (rebuildSearchIndex st) = Some idx
      ∧ (∀ k c, idx !! k = Some c
                ↔ ∃ m, db st !! k = Some m ∧ isValid m = 1 ∧ content m = c)
      ∧ (∀ k m, indexedMemories (rebuildSearchIndex st) !! k = Some m
                ↔ db st !! k = Some m ∧ isValid m = 1).
Proof.
  unfold rebuildSearchIndex, initSearchIndex, close. simpl.
  split; [done|]. split; [done|]. eexists. split; [done|]. split.
  - intros k c. rewrite lookup_fmap_Some. unfold validEntries. split.
    + intros (m & <- & Hm). apply map_lookup_filter_Some in Hm as [Hm Hv]. eauto.
    + intros (m & Hm & Hv & <-). exists m. split; [done|].
      by apply map_lookup_filter_Some.
  - intros k m. unfold validEntries. by rewrite map_lookup_filter_Some.
Qed.

(** X9. From a reachable store, [store] under an identifier that is free
    adds one valid record: the count of valid records grows by one, every
    other record is left as it was, and the new content is in the search
    index and the cache; under an identifier that is taken it is rejected
    and the database is left as it was. *)
Theorem store_effect c cat imp meta newId now st :
  Reachable st →
  match db st !! newId with
  | None =>
      ∃ m idx,
        (store c cat imp meta newId now st).1 = Some m
        ∧ id m = newId ∧ metadata m = meta
        ∧ createdAt m = now ∧ lastAccessedAt m = now
        ∧ keywords m = extractKeywords c
        ∧ getCount (store c cat imp meta newId now st).2 = S (getCount st)
        ∧ (∀ k, k ≠ newId →
             db (store c cat imp meta newId now st).2 !! k = db st !! k)
        ∧ searchIndex (store c cat imp meta newId now st).2 = Some idx
        ∧ idx !! newId = Some c
        ∧ indexedMemories (store c cat imp meta newId now st).2 !! newId = Some m
  | Some _ =>
      (store c cat imp meta newId now st).1 = None
      ∧ db (store c cat imp meta newId now st).2 = db st
  end.
Proof.
  intros Hreach. destruct (db st !! newId) as [m0|] eqn:Hnew.
  - unfold store. rewrite db_initSearchIndex, Hnew. simpl.
    split; [done|apply db_initSearchIndex].
  - assert (is_Some (searchIndex (initSearchIndex st))) as [idx Hidx].
    { unfold initSearchIndex. destruct (indexInitialized st) eqn:Hinit; [|done].
      by apply Reachable_index_present. }
    pose proof (db_store c cat imp meta newId now st Hnew) as Hdb.
    unfold store in *. rewrite db_initSearchIndex, Hnew in *. simpl in *.
    unfold addToSearchIndex, putRecord in *. simpl in *. rewrite Hidx in *.
    simpl in *. eexists _, _. split; [done|]. repeat split; try done.
    + unfold getCount, validEntries. simpl. rewrite db_initSearchIndex.
      rewrite map_filter_insert_True by done.
      apply map_size_insert_None, map_lookup_filter_None. by left.
    + intros k Hne. rewrite db_initSearchIndex. by rewrite lookup_insert_ne.
    + apply lookup_insert_eq.
    + apply lookup_insert_eq.
Qed.

(** X10. From a reachable store, [invalidate] of a valid record lowers the
    count of valid records by one, keeps the record in the database with
    the validity flag 0 and nothing else changed, and leaves every other
    record as it was. When the search index exists, the record is removed
    from the index and from the cache; when it does not exist yet, index
    and cache are left as they are, so a copy that an earlier [update] put
    in the cache stays there until the index is built. *)
Theorem invalidate_effect i m st :
  Reachable st → db st !! i = Some m → isValid m = 1 →
  getCount st = S (getCount (invalidate i st))
  ∧ getById i (invalidate i st) = Some (setValid 0 m)
  ∧ (∀ k, k ≠ i → db (invalidate i st) !! k = db st !! k)
  ∧ (∀ idx, searchIndex st = Some idx →
       searchIndex (invalidate i st) = Some (delete i idx)
       ∧ indexedMemories (invalidate i st) = delete i (indexedMemories st))
  ∧ (searchIndex st = None →
       searchIndex (invalidate i st) = None
       ∧ indexedMemories (invalidate i st) = indexedMemories st)
  ∧ (∀ idx, searchIndex (invalidate i st) = Some idx →
       idx !! i = None ∧ indexedMemories (invalidate i st) !! i = None).
Proof.
  intros Hreach Hm Hv. pose proof (inv_keys _ (Inv_reachable _ Hreach)) as Hk.
  assert (id m = i) as Hid by exact (keyedById_lookup _ _ _ Hk Hm).
  assert (db (invalidate i st) = <[i := setValid 0 m]> (db st)) as Hdb.
  { unfold invalidate. rewrite Hm, db_removeFromSearchIndex. simpl. by rewrite Hid. }
  split; [|split; [|split; [|split; [|split]]]].
  - unfold getCount, validEntries. rewrite Hdb.
    rewrite map_filter_insert_False by (simpl; unfold valid; simpl; lia).
    assert (filter (λ kv, valid kv.2) (db st) !! i = Some m) as Hfi
      by by apply map_lookup_filter_Some.
    rewrite map_filter_delete, map_size_delete_Some by eauto.
    pose proof (map_size_ne_0_lookup_2 _ i (mk_is_Some _ _ Hfi)). lia.
  - unfold getById. by rewrite Hdb, lookup_insert_eq.
  - intros k Hne. by rewrite Hdb, lookup_insert_ne.
  - intros idx Hidx. unfold invalidate. rewrite Hm.
    unfold removeFromSearchIndex. simpl. by rewrite Hidx.
  - intros Hidx. unfold invalidate. rewrite Hm.
    unfold removeFromSearchIndex. simpl. by rewrite Hidx.
  - intros idx. unfold invalidate. rewrite Hm. unfold removeFromSearchIndex. simpl.
    destruct (searchIndex st) eqn:Hidx; simpl; rewrite ?Hidx; [|done].
    intros [= <-]. split; apply lookup_delete_eq.
Qed.

(** X11. From a reachable store, with a limit that covers the database,
    [getRecent] and [getMostImportant] return as many records as
    [getCount] counts. *)
Theorem count_is_listing_length limit st :
  Reachable st → Z.of_nat (size (db st)) ≤ limit →
  length (getRecent limit st) = getCount st
  ∧ length (getMostImportant limit st) = getCount st.
Proof.
  intros Hreach Hlimit. pose proof (inv_keys _ (Inv_reachable _ Hreach)) as Hk.
  assert (∀ key, length (collect limit (scanPrev key (db st))) = getCount st) as Hlen.
  { intros key. unfold collect. rewrite take_ge.
    - unfold scanPrev. rewrite stableSort_Permutation.
      by apply length_valid_records.
    - pose proof (length_filter valid (scanPrev key (db st))) as Hl.
      rewrite length_scanPrev in Hl. lia. }
  split; apply Hlen.
Qed.

(** X12. In every state that the public methods of [MemoryStore] can reach
    from a new instance: every record sits under its own identifier; once
    the index exists, the cache only holds valid records of the database
    and the index only holds the content of records of the database; and
    when the index is marked as initialised it exists. *)
Theorem reachable_store_coherent st :
  Reachable st →
  (∀ k m, db st !! k = Some m → id m = k)
  ∧ (∀ idx, searchIndex st = Some idx →
       (∀ k m, indexedMemories st !! k = Some m → db st !! k = Some m ∧ isValid m = 1)
       ∧ (∀ k c, idx !! k = Some c → ∃ m, db st !! k = Some m ∧ content m = c))
  ∧ (indexInitialized st = true → is_Some (searchIndex st)).
Proof.
  intros Hreach. pose proof (Inv_reachable _ Hreach) as [Hk Hc Hi].
  split; [exact Hk|]. split; [|by apply Reachable_index_present].
  intros idx Hidx. split.
  - intros k m Hm. exact (Hc (mk_is_Some _ _ Hidx) k m Hm).
  - intros k c Hkc. exact (Hi idx Hidx k c Hkc).
Qed.

End StoreExtras.

Section StoreExtraCases.
Import MemoryStore StoreSpec.

Lemma keyedById_db3 : keyedById Shelf.db3.
Proof.
  unfold Shelf.db3. apply (keyedById_insert _ Shelf.m2), (keyedById_insert _ Shelf.m3).
  apply keyedById_db1.
Qed.

Lemma Reachable_shelf : Reachable (H := Reference.host) (fresh Shelf.db3).
Proof. apply ReachFresh, keyedById_db3. Qed.


Lemma search_results_stored_witness :
  (search (H := Reference.host) Example.cat 10 0 (fresh Shelf.db3)).1
  = [mkResult Example.m1 152]
  ∧ db (fresh Shelf.db3) !! "m1"%string = Some Example.m1.
Proof.
  assert ((search (H := Reference.host) Example.cat 10 0 (fresh Shelf.db3)).1
          = [mkResult Example.m1 152]) as Hres by (vm_compute; reflexivity).
  split; [exact Hres|].
  refine (proj1 (search_results_stored (H := Reference.host)
                   (HostLaws0 := Reference_laws) Example.cat 10 0 (fresh Shelf.db3)
                   (mkResult Example.m1 152) Reachable_shelf _)).
  rewrite Hres. apply list_elem_of_here.
Defined.

Lemma search_only_builds_index_witness :
  trim (Host := Reference.host) [32%N] = []
  ∧ (search (H := Reference.host) [32%N] 10 0 (fresh Shelf.db3)).1 = [].
Proof.
  split; [reflexivity|].
  apply (search_only_builds_index (H := Reference.host) [32%N] 10 0 (fresh Shelf.db3)).
  reflexivity.
Defined.

Lemma recent_and_important_sorted_witness :
  NoDup (id <$> getRecent 10 (fresh Shelf.db3))
  ∧ (length (getMostImportant 1 (fresh Shelf.db3)) ≤ Z.to_nat 1)%nat.
Proof.
  destruct (recent_and_important_sorted (H := Reference.host) 10 (fresh Shelf.db3)
              Reachable_shelf) as (_ & [Hnd _] & _).
  destruct (recent_and_important_sorted (H := Reference.host) 1 (fresh Shelf.db3)
              Reachable_shelf) as (_ & _ & [_ Hlen] & _).
  split; [exact Hnd|exact Hlen].
Defined.

Lemma category_listing_sorted_witness :
  NoDup (id <$> getByCategory "fact" 10 (fresh Shelf.db3))
  ∧ (length (getByCategory "fact" 10 (fresh Shelf.db3)) ≤ Z.to_nat 10)%nat.
Proof.
  destruct (category_listing_sorted (H := Reference.host) "fact" 10 (fresh Shelf.db3)
              Reachable_shelf) as (_ & Hnd & Hlen & _).
  split; [exact Hnd|exact Hlen].
Defined.

Lemma recordAccess_effect_witness :
  getCount (recordAccess "m2" 99 (fresh Shelf.db3)) = getCount (fresh Shelf.db3)
  ∧ recordAccess "m9" 99 (fresh Shelf.db3) = fresh Shelf.db3.
Proof.
  pose proof (recordAccess_effect (H := Reference.host) "m2" 99 (fresh Shelf.db3)
                Reachable_shelf) as H2.
  pose proof (recordAccess_effect (H := Reference.host) "m9" 99 (fresh Shelf.db3)
                Reachable_shelf) as H9.
  change (db (fresh Shelf.db3) !! "m2"%string) with (Some Shelf.m2) in H2.
  change (db (fresh Shelf.db3) !! "m9"%string) with (@None StoredMemory) in H9.
  destruct H2 as (m' & _ & _ & _ & _ & _ & Hcount & _).
  split; [exact Hcount|exact H9].
Defined.

Lemma store_effect_witness :
  getCount (store (H := Reference.host) Shelf.dog "preference" None None "m4" 7
              (fresh Shelf.db3)).2
  = S (getCount (fresh Shelf.db3))
  ∧ (store (H := Reference.host) Shelf.dog "preference" None None "m2" 7
       (fresh Shelf.db3)).1 = None.
Proof.
  pose proof (store_effect (H := Reference.host) Shelf.dog "preference" None None
                "m4" 7 (fresh Shelf.db3) Reachable_shelf) as H4.
  pose proof (store_effect (H := Reference.host) Shelf.dog "preference" None None
                "m2" 7 (fresh Shelf.db3) Reachable_shelf) as H2.
  change (db (fresh Shelf.db3) !! "m4"%string) with (@None StoredMemory) in H4.
  change (db (fresh Shelf.db3) !! "m2"%string) with (Some Shelf.m2) in H2.
  destruct H4 as (m & idx & _ & _ & _ & _ & _ & _ & Hcount & _).
  split; [exact Hcount|exact (proj1 H2)].
Defined.

Lemma invalidate_effect_witness :
  let st := (search (H := Reference.host) Example.cat 10 0 (fresh Shelf.db3)).2 in
  let early := (update (H := Reference.host) "m2" (Example.onlyImportance 9)
                  (fresh Shelf.db3)).2 in
  (Reachable (H := Reference.host) st
   ∧ db st !! "m2"%string = Some Shelf.m2 ∧ isValid Shelf.m2 = 1
   ∧ getCount st = S (getCount (invalidate "m2" st))
   ∧ indexedMemories st !! "m2"%string = Some Shelf.m2
   ∧ indexedMemories (invalidate "m2" st) !! "m2"%string = None)
  ∧ (Reachable (H := Reference.host) early
     ∧ searchIndex early = None
     ∧ is_Some (indexedMemories early !! "m2"%string)
     ∧ indexedMemories (invalidate "m2" early) = indexedMemories early).
Proof.
  cbv zeta.
  set (st := (search (H := Reference.host) Example.cat 10 0 (fresh Shelf.db3)).2).
  set (early := (update (H := Reference.host) "m2" (Example.onlyImportance 9)
                   (fresh Shelf.db3)).2).
  assert (Reachable (H := Reference.host) st) as Hreach.
  { eapply ReachStep; [exact Reachable_shelf|apply StepSearch]. }
  assert (Reachable (H := Reference.host) early) as Hearly.
  { eapply ReachStep; [exact Reachable_shelf|apply StepUpdate]. }
  assert (db st !! "m2"%string = Some Shelf.m2) as Hm by reflexivity.
  assert (∃ idx, searchIndex st = Some idx) as [idx Hidx]
    by (eexists; vm_compute; reflexivity).
  assert (indexedMemories st !! "m2"%string = Some Shelf.m2) as Hcache
    by (vm_compute; reflexivity).
  assert (∃ m, db early !! "m2"%string = Some m ∧ isValid m = 1) as (m & Hm' & Hv')
    by (eexists; split; vm_compute; reflexivity).
  assert (searchIndex early = None) as Hnone by reflexivity.
  split.
  - destruct (invalidate_effect (H := Reference.host) "m2" Shelf.m2 st Hreach Hm eq_refl)
      as (Hcount & _ & _ & Hbuilt & _).
    destruct (Hbuilt idx Hidx) as [_ Hgone].
    split; [exact Hreach|]. split; [exact Hm|]. split; [reflexivity|].
    split; [exact Hcount|]. split; [exact Hcache|].
    rewrite Hgone. apply lookup_delete_eq.
  - destruct (invalidate_effect (H := Reference.host) "m2" m early Hearly Hm' Hv')
      as (_ & _ & _ & _ & Hunbuilt & _).
    destruct (Hunbuilt Hnone) as [_ Hkept].
    split; [exact Hearly|]. split; [exact Hnone|].
    split; [|exact Hkept]. vm_compute. eexists. reflexivity.
Defined.

Lemma count_is_listing_length_witness :
  Z.of_nat (size (db (fresh Shelf.db3))) ≤ 10
  ∧ length (getRecent 10 (fresh Shelf.db3)) = getCount (fresh Shelf.db3).
Proof.
  assert (Z.of_nat (size (db (fresh Shelf.db3))) ≤ 10) as Hsize
    by (vm_compute; discriminate).
  split; [exact Hsize|].
  apply (count_is_listing_length (H := Reference.host) 10 (fresh Shelf.db3)
           Reachable_shelf Hsize).
Defined.

Lemma reachable_store_coherent_witness :
  indexInitialized
    (search (H := Reference.host) Example.cat 10 0 (fresh Shelf.db3)).2 = true
  ∧ is_Some (searchIndex
               (search (H := Reference.host) Example.cat 10 0 (fresh Shelf.db3)).2).
Proof.
  split; [reflexivity|].
  refine (proj2 (proj2 (reachable_store_coherent (H := Reference.host)
                          (search (H := Reference.host) Example.cat 10 0
                             (fresh Shelf.db3)).2 _)) eq_refl).
  eapply ReachStep; [exact Reachable_shelf|apply StepSearch].
Defined.

End StoreExtraCases.

(** ** The tokenizer *)

Section TokenizerFacts.
Import MemoryStore.
Context `{H : Host}.

Lemma dedupeFrom_spec {A} `{EqDecision A} (seen xs : list A) :
  NoDup (Js.dedupeFrom seen xs)
  ∧ ∀ x, x ∈ Js.dedupeFrom seen xs ↔ x ∈ xs ∧ x ∉ seen.
Proof.
  revert seen. induction xs as [|y xs IH]; intros seen; simpl.
  - split; [constructor|]. intros x. split; [by intros ?%elem_of_nil|].
    by intros [?%elem_of_nil _].
  - destruct (decide (y ∈ seen)) as [Hin|Hnin].
    + destruct (IH seen) as [Hnd Hmem]. split; [done|]. intros x.
      rewrite Hmem, elem_of_cons. split; [tauto|].
      intros [[->|Hx] Hs]; tauto.
    + destruct (IH (y :: seen)) as [Hnd Hmem]. split.
      * constructor; [|done]. rewrite Hmem, elem_of_cons. tauto.
      * intros x. rewrite elem_of_cons, Hmem, !elem_of_cons. split.
        -- intros [->|[Hx Hs]]; tauto.
        -- intros [[->|Hx] Hs]; [by left|].
           destruct (decide (x = y)) as [->|Hne]; [by left|right; tauto].
Qed.

Lemma fallbackTokens_spec text buffer tokens t :
  Forall (λ c, Js.isAlnum c = true) buffer →
  t ∈ fallbackTokens text buffer tokens →
  t ∈ tokens
  ∨ (∃ c, t = [c] ∧ Js.isChinese c = true ∧ c ∈ text)
  ∨ (∃ run before after,
       t = toLowerCase run ∧ (2 ≤ length run)%nat
       ∧ Forall (λ c, Js.isAlnum c = true) run
       ∧ buffer ++ text = before ++ run ++ after).
Proof.
  assert (∀ buf toks,
            t ∈ flushEnglish buf toks →
            t ∈ toks ∨ (t = toLowerCase buf ∧ (2 ≤ length buf)%nat)) as Hflush.
  { intros buf toks. unfold flushEnglish.
    destruct (2 <=? length buf)%nat eqn:Hlen; [|by left].
    apply Nat.leb_le in Hlen.
    intros [?| ->%list_elem_of_singleton]%elem_of_app; [by left|by right]. }
  revert buffer tokens. induction text as [|c text IH]; intros buffer tokens Hbuf; simpl.
  - intros Ht. apply Hflush in Ht as [?|[-> Hlen]]; [by left|].
    right. right. exists buffer, [], []. by rewrite app_nil_r.
  - destruct (Js.isChinese c) eqn:Hch; [|destruct (Js.isAlnum c) eqn:Hal].
    + intros Ht. apply (IH [] _ (Forall_nil_2 _)) in Ht as [Ht|[Ht|Ht]].
      * apply elem_of_app in Ht as [Ht| ->%list_elem_of_singleton].
        -- apply Hflush in Ht as [?|[-> Hlen]]; [by left|].
           right. right. exists buffer, [], (c :: text). done.
        -- right. left. exists c. split; [done|]. split; [done|apply list_elem_of_here].
      * destruct Ht as (c' & -> & Hc' & Hin). right. left. exists c'.
        split; [done|]. split; [done|by apply list_elem_of_further].
      * destruct Ht as (run & before & after & -> & Hlen & Hrun & Heq).
        right. right. exists run, (buffer ++ c :: before), after.
        repeat split; try done. simpl in Heq. rewrite Heq.
        by rewrite <- app_assoc.
    + assert (Forall (λ c, Js.isAlnum c = true) (buffer ++ [c])) as Hbuf'.
      { apply Forall_app. split; [done|]. by repeat constructor. }
      intros Ht. apply (IH _ _ Hbuf') in Ht as [Ht|[Ht|Ht]].
      * by left.
      * destruct Ht as (c' & -> & Hc' & Hin). right. left. exists c'.
        split; [done|]. split; [done|by apply list_elem_of_further].
      * destruct Ht as (run & before & after & -> & Hlen & Hrun & Heq).
        right. right. exists run, before, after. repeat split; try done.
        rewrite <- Heq. by rewrite <- app_assoc.
    + intros Ht. apply (IH [] _ (Forall_nil_2 _)) in Ht as [Ht|[Ht|Ht]].
      * apply Hflush in Ht as [?|[-> Hlen]]; [by left|].
        right. right. exists buffer, [], (c :: text). done.
      * destruct Ht as (c' & -> & Hc' & Hin). right. left. exists c'.
        split; [done|]. split; [done|by apply list_elem_of_further].
      * destruct Ht as (run & before & after & -> & Hlen & Hrun & Heq).
        right. right. exists run, (buffer ++ c :: before), after.
        repeat split; try done. simpl in Heq. rewrite Heq.
        by rewrite <- app_assoc.
Qed.

(** X13. The keywords of a text are pairwise distinct. Without
    [Intl.Segmenter], each keyword is a CJK character of the text, alone,
    or the lower-cased form of a run of at least two ASCII letters or digits
    that stand side by side in the text; with it, each keyword is the
    trimmed, lower-cased form of a segment and holds a CJK character, or a
    letter or digit and at least two code units. *)
Theorem keywords_distinct_and_shaped text :
  NoDup (extractKeywords text)
  ∧ (segmenter = None →
     ∀ t, t ∈ extractKeywords text →
       (∃ c, t = [c] ∧ Js.isChinese c = true ∧ c ∈ text)
       ∨ (∃ run before after,
            t = toLowerCase run ∧ (2 ≤ length run)%nat
            ∧ Forall (λ c, Js.isAlnum c = true) run
            ∧ text = before ++ run ++ after))
  ∧ (∀ segment, segmenter = Some segment →
     ∀ t, t ∈ extractKeywords text →
       ∃ seg, seg ∈ segment text ∧ t = toLowerCase (trim seg)
         ∧ (existsb Js.isChinese t = true
            ∨ (existsb Js.isAlnum t = true ∧ (2 ≤ length t)%nat))).
Proof.
  unfold extractKeywords, chineseTokenizer, Js.dedupe.
  split; [apply dedupeFrom_spec|]. split.
  - intros Hseg t Ht. rewrite Hseg in Ht.
    apply dedupeFrom_spec in Ht as [Ht _].
    apply (fallbackTokens_spec _ _ _ _ (Forall_nil_2 _)) in Ht as [Ht|[Ht|Ht]].
    + by apply elem_of_nil in Ht.
    + by left.
    + by right.
  - intros segment Hseg t Ht. rewrite Hseg in Ht.
    apply dedupeFrom_spec in Ht as [Ht _].
    apply list_elem_of_omap in Ht as (seg & Hin & Hkeep).
    exists seg. split; [done|]. unfold keepSegment in Hkeep.
    destruct ((1 <=? length (toLowerCase (trim seg)))%nat
              && existsb (λ c, Js.isChinese c || Js.isAlnum c)
                   (toLowerCase (trim seg))) eqn:Hfirst; [|done].
    destruct (existsb Js.isChinese (toLowerCase (trim seg))
              || (2 <=? length (toLowerCase (trim seg)))%nat) eqn:Hsecond; [|done].
    injection Hkeep as <-. split; [done|].
    apply andb_true_iff in Hfirst as [_ Hany].
    apply orb_true_iff in Hsecond as [Hch|Hlen]; [by left|].
    destruct (existsb Js.isChinese (toLowerCase (trim seg))) eqn:Hch; [by left|].
    right. split; [|by apply Nat.leb_le].
    apply existsb_exists in Hany as (c & Hc & Hor).
    apply existsb_exists. exists c. split; [done|].
    apply orb_true_iff in Hor as [Hc'|Hc']; [|done].
    assert (existsb Js.isChinese (toLowerCase (trim seg)) = true); [|congruence].
    apply existsb_exists. eauto.
Qed.

End TokenizerFacts.

Section TokenizerCase.
Import MemoryStore.

Lemma keywords_distinct_and_shaped_witness :
  segmenter (Host := Reference.host) = None
  ∧ NoDup (extractKeywords (H := Reference.host) (Js.ofString "My cat, my Cat")).
Proof.
  split; [reflexivity|].
  apply (keywords_distinct_and_shaped (H := Reference.host)
           (Js.ofString "My cat, my Cat")).
Defined.

End TokenizerCase.

(** ** What cleanup_memories flags, and why *)

Section CleanupFacts.
Import MemoryStore StoreSpec MemoryTools ToolSpec CleanupSpec.
Context `{H : Host}.

Lemma NoDup_of_submseteq {A} (l k : list A) : l ⊆+ k → NoDup k → NoDup l.
Proof.
  intros Hsub Hk. apply submseteq_Permutation in Hsub as [rest Hrest].
  rewrite Hrest in Hk. by apply NoDup_app in Hk as [Hl _].
Qed.

Lemma addToGroup_concat key m groups :
  concat (snd <$> addToGroup key m groups) ≡ₚ concat (snd <$> groups) ++ [m].
Proof.
  induction groups as [|[k ms] rest IH]; simpl; [done|].
  destruct (decide (k = key)); simpl.
  - rewrite <- !app_assoc. apply Permutation_app_head. apply Permutation_app_comm.
  - rewrite IH. by rewrite app_assoc.
Qed.

Lemma contentMap_concat_from allMemories groups :
  concat (snd <$> foldl (λ groups m, addToGroup (normalizeContent (content m)) m groups)
                    groups allMemories)
  ≡ₚ concat (snd <$> groups) ++ allMemories.
Proof.
  revert groups. induction allMemories as [|m rest IH]; intros groups; simpl.
  - by rewrite app_nil_r.
  - rewrite IH, addToGroup_concat. by rewrite <- app_assoc.
Qed.

(** The groups hold every record of the list once. *)
Lemma contentMap_concat allMemories :
  concat (snd <$> contentMap allMemories) ≡ₚ allMemories.
Proof. unfold contentMap. by rewrite contentMap_concat_from. Qed.

Lemma addToGroup_keyed key m groups :
  normalizeContent (content m) = key →
  Forall (λ g, Forall (λ x, normalizeContent (content x) = g.1) g.2) groups →
  Forall (λ g, Forall (λ x, normalizeContent (content x) = g.1) g.2)
    (addToGroup key m groups).
Proof.
  intros Hkey. induction 1 as [|[k ms] rest Hg Hrest IH]; simpl.
  - by repeat constructor.
  - destruct (decide (k = key)) as [->|Hne].
    + constructor; [|done]. simpl in *. apply Forall_app. split; [done|].
      by repeat constructor.
    + by constructor.
Qed.

(** The records of a group normalise to the key of the group. *)
Lemma contentMap_keyed allMemories :
  Forall (λ g, Forall (λ x, normalizeContent (content x) = g.1) g.2)
    (contentMap allMemories).
Proof.
  unfold contentMap.
  assert (∀ groups,
            Forall (λ g, Forall (λ x, normalizeContent (content x) = g.1) g.2) groups →
            Forall (λ g, Forall (λ x, normalizeContent (content x) = g.1) g.2)
              (foldl (λ groups m, addToGroup (normalizeContent (content m)) m groups)
                 groups allMemories)) as Hgen.
  { induction allMemories as [|m rest IH]; intros groups Hg; simpl; [done|].
    apply IH. by apply addToGroup_keyed. }
  apply Hgen. constructor.
Qed.

Lemma findDuplicates_records allMemories :
  findDuplicates allMemories
  = removal DuplicateContent <$> duplicateRecords allMemories.
Proof.
  unfold findDuplicates, duplicateRecords.
  induction (contentMap allMemories) as [|g groups IH]; [done|].
  rewrite !fmap_cons. cbn [concat]. rewrite fmap_app, <- IH. f_equal.
  unfold duplicatesOfGroup, extraCopies. by destruct (1 <? length g.2)%nat.
Qed.

Lemma extraCopies_submseteq ms : extraCopies ms ⊆+ ms.
Proof.
  unfold extraCopies. destruct (1 <? length ms)%nat; [|apply submseteq_nil_l].
  etrans; [apply submseteq_drop|]. by rewrite stableSort_Permutation.
Qed.

Lemma byImportance_sorted ms :
  StronglySorted (λ a b, importance b ≤ importance a) (Js.stableSort byImportance ms).
Proof.
  apply stableSort_StronglySorted.
  - intros a b. unfold byImportance. rewrite !Z.leb_le. lia.
  - intros a b. unfold byImportance. by rewrite Z.leb_le.
  - intros a b c. lia.
Qed.

(** Every record flagged as a duplicate has a record of the same group
    that is at least as important and that the pass does not flag. *)
Lemma duplicateRecords_kept allMemories m :
  m ∈ duplicateRecords allMemories →
  ∃ kept,
    normalizeContent (content kept) = normalizeContent (content m)
    ∧ importance m ≤ importance kept
    ∧ kept :: duplicateRecords allMemories ⊆+ allMemories.
Proof.
  unfold duplicateRecords. intros Hm.
  apply elem_of_concat in Hm as (piece & Hm & Hpiece).
  apply list_elem_of_fmap in Hpiece as (g & -> & Hg).
  pose proof (contentMap_keyed allMemories) as Hkeyed.
  pose proof (contentMap_concat allMemories) as Hall.
  apply list_elem_of_split in Hg as (G1 & G2 & HG). rewrite HG in *.
  unfold extraCopies in Hm. destruct (1 <? length g.2)%nat eqn:Hlen;
    [|by apply elem_of_nil in Hm].
  pose proof (byImportance_sorted g.2) as Hsorted.
  pose proof (stableSort_Permutation byImportance g.2) as Hperm.
  destruct (Js.stableSort byImportance g.2) as [|kept tl] eqn:Hsort;
    [by apply elem_of_nil in Hm|].
  simpl in Hm. rewrite drop_0 in Hm. exists kept.
  apply Forall_app in Hkeyed as [_ Hkeyed]. apply Forall_cons in Hkeyed as [Hkey _].
  assert (∀ x, x ∈ kept :: tl → normalizeContent (content x) = g.1) as Hsame.
  { intros x Hx. rewrite Hperm in Hx. eapply Forall_forall in Hkey; done. }
  split; [|split].
  - rewrite (Hsame kept), (Hsame m); [done| |].
    + by apply list_elem_of_further.
    + apply list_elem_of_here.
  - apply StronglySorted_inv in Hsorted as [_ Hhd].
    eapply Forall_forall in Hhd; done.
  - rewrite <- Hall. rewrite !fmap_app, !concat_app. simpl.
    unfold extraCopies at 2. rewrite Hlen, Hsort. simpl. rewrite drop_0.
    rewrite <- Hperm.
    transitivity (concat ((λ g0, extraCopies g0.2) <$> G1)
                  ++ (kept :: tl) ++ concat ((λ g0, extraCopies g0.2) <$> G2)).
    { apply Permutation_submseteq. by rewrite Permutation_middle. }
    assert (∀ G, concat ((λ g0 : jsstring * list StoredMemory, extraCopies g0.2) <$> G)
                 ⊆+ concat (snd <$> G)) as Hmono.
    { induction G as [|g0 G IH]; simpl; [done|].
      apply submseteq_app; [apply extraCopies_submseteq|done]. }
    apply submseteq_app; [apply Hmono|].
    apply submseteq_app; [done|apply Hmono].
Qed.

Lemma duplicateRecords_submseteq allMemories :
  duplicateRecords allMemories ⊆+ allMemories.
Proof.
  rewrite <- (contentMap_concat allMemories) at 2. unfold duplicateRecords.
  induction (contentMap allMemories) as [|g0 G IH]; simpl; [done|].
  apply submseteq_app; [apply extraCopies_submseteq|done].
Qed.


(** What a later pass adds passes the test of the pass and was not flagged
    before. *)
Lemma flagPass_spec test reason allMemories toRemove item :
  item ∈ flagPass test reason allMemories toRemove →
  item ∈ toRemove
  ∨ ∃ m, m ∈ allMemories ∧ item = removal reason m ∧ test m = true.
Proof.
  unfold flagPass. revert toRemove.
  induction allMemories as [|m rest IH]; intros toRemove Hin; simpl in *; [by left|].
  apply IH in Hin as [Hin|(m' & Hm' & Hitem)].
  - destruct (alreadyFlagged toRemove m); [by left|].
    destruct (test m) eqn:Htest; [|by left].
    apply elem_of_app in Hin as [Hin| ->%list_elem_of_singleton]; [by left|].
    right. exists m. split; [apply list_elem_of_here|done].
  - right. exists m'. split; [by apply list_elem_of_further|done].
Qed.


End CleanupFacts.

Section CleanupExtras.
Import MemoryStore StoreSpec MemoryTools ToolSpec CleanupSpec.
Context `{H : Host}.

Lemma candidates_duplicates strategy now allMemories item :
  item ∈ candidates strategy now allMemories → r_reason item = DuplicateContent →
  isStrategy strategy "duplicates" = true ∧ item ∈ findDuplicates allMemories.
Proof.
  unfold candidates. intros Hin Hreason.
  assert (item ∈ (if isStrategy strategy "duplicates"
                  then findDuplicates allMemories else [])) as Hdup.
  { destruct (isStrategy strategy "low_importance").
    - apply flagPass_spec in Hin as [Hin|(m & _ & -> & _)]; [|done].
      destruct (isStrategy strategy "outdated"); [|done].
      by apply flagPass_spec in Hin as [Hin|(m & _ & -> & _)].
    - destruct (isStrategy strategy "outdated"); [|done].
      by apply flagPass_spec in Hin as [Hin|(m & _ & -> & _)]. }
  destruct (isStrategy strategy "duplicates"); [done|by apply elem_of_nil in Hdup].
Qed.



(** X14. Every record that [cleanup_memories] flags is a record of the list
    it read, flagged for a reason that holds of it under a strategy that
    asks for it: an outdated record is older than 30 days, accessed fewer
    than 3 times, of importance at most 4 and not a fact; a low-importance
    record is a context record of importance at most 2 accessed fewer than
    twice; a duplicate has another record with the same normalised content
    and at least its importance, which is not flagged as a duplicate. *)
Theorem cleanup_flags_justified strategy now allMemories item :
  NoDup (id <$> allMemories) →
  item ∈ candidates strategy now allMemories →
  ∃ m, m ∈ allMemories ∧ item = removal (r_reason item) m
       ∧ match r_reason item with
         | DuplicateContent =>
             isStrategy strategy "duplicates" = true
             ∧ ∃ kept, kept ∈ allMemories ∧ id kept ≠ id m
                       ∧ normalizeContent (content kept) = normalizeContent (content m)
                       ∧ importance m ≤ importance kept
                       ∧ removal DuplicateContent kept
                           ∉ candidates strategy now allMemories
         | Outdated =>
             isStrategy strategy "outdated" = true
             ∧ createdAt m < now - 30 * 24 * 60 * 60 * 1000
             ∧ accessCount m < 3 ∧ importance m ≤ 4 ∧ category m ≠ "fact"%string
         | LowImportance =>
             isStrategy strategy "low_importance" = true
             ∧ importance m ≤ 2 ∧ accessCount m < 2 ∧ category m = "context"%string
         end.
Proof.
  intros Hnd Hin.
  assert (∀ it, it ∈ (if isStrategy strategy "duplicates"
                      then findDuplicates allMemories else []) →
            r_reason it = DuplicateContent) as Hfirst.
  { intros it Hit. destruct (isStrategy strategy "duplicates");
      [|by apply elem_of_nil in Hit].
    rewrite findDuplicates_records in Hit.
    by apply list_elem_of_fmap in Hit as (m & -> & _). }
  assert (∀ m, isOutdated now m = true →
            createdAt m < now - 30 * 24 * 60 * 60 * 1000
            ∧ accessCount m < 3 ∧ importance m ≤ 4 ∧ category m ≠ "fact"%string)
    as Hout.
  { intros m. unfold isOutdated. rewrite !andb_true_iff, negb_true_iff.
    rewrite !Z.ltb_lt, Z.leb_le, bool_decide_eq_false. tauto. }
  assert (∀ m, isLowImportance m = true →
            importance m ≤ 2 ∧ accessCount m < 2 ∧ category m = "context"%string)
    as Hlow.
  { intros m. unfold isLowImportance. rewrite !andb_true_iff.
    rewrite Z.ltb_lt, Z.leb_le, bool_decide_eq_true. tauto. }
  destruct (r_reason item) eqn:Hreason.
  - destruct (candidates_duplicates _ _ _ _ Hin Hreason) as [Hs Hdup].
    rewrite findDuplicates_records in Hdup.
    apply list_elem_of_fmap in Hdup as (m & -> & Hm).
    destruct (duplicateRecords_kept _ _ Hm) as (kept & Hsame & Himp & Hsub).
    pose proof (NoDup_of_submseteq _ _ (fmap_submseteq id _ _ Hsub) Hnd) as Hnd'.
    rewrite fmap_cons in Hnd'. apply NoDup_cons in Hnd' as [Hkept _].
    exists m. split.
    { eapply elem_of_submseteq; [done|]. apply duplicateRecords_submseteq. }
    split; [done|]. split; [done|]. exists kept.
    split. { eapply elem_of_submseteq; [|done]. apply list_elem_of_here. }
    split. { intros Heq. apply Hkept. rewrite Heq. by apply list_elem_of_fmap_2. }
    split; [done|]. split; [done|].
    intros Hflag. apply candidates_duplicates in Hflag as [_ Hflag]; [|done].
    rewrite findDuplicates_records in Hflag.
    apply list_elem_of_fmap in Hflag as (m' & Heq & Hm').
    apply Hkept. injection Heq as -> _. by apply list_elem_of_fmap_2.
  - unfold candidates in Hin.
    destruct (isStrategy strategy "low_importance") eqn:Hs3.
    + apply flagPass_spec in Hin as [Hin|(m & _ & -> & _)]; [|done].
      destruct (isStrategy strategy "outdated") eqn:Hs2.
      * apply flagPass_spec in Hin as [Hin|(m & Hm & -> & Htest)].
        { by rewrite (Hfirst _ Hin) in Hreason. }
        exists m. split; [done|]. split; [done|]. split; [done|]. by apply Hout.
      * by rewrite (Hfirst _ Hin) in Hreason.
    + destruct (isStrategy strategy "outdated") eqn:Hs2.
      * apply flagPass_spec in Hin as [Hin|(m & Hm & -> & Htest)].
        { by rewrite (Hfirst _ Hin) in Hreason. }
        exists m. split; [done|]. split; [done|]. split; [done|]. by apply Hout.
      * by rewrite (Hfirst _ Hin) in Hreason.
  - unfold candidates in Hin.
    destruct (isStrategy strategy "low_importance") eqn:Hs3.
    + apply flagPass_spec in Hin as [Hin|(m & Hm & -> & Htest)].
      * destruct (isStrategy strategy "outdated") eqn:Hs2.
        { apply flagPass_spec in Hin as [Hin|(m & _ & -> & _)]; [|done].
          by rewrite (Hfirst _ Hin) in Hreason. }
        by rewrite (Hfirst _ Hin) in Hreason.
      * exists m. split; [done|]. split; [done|]. split; [done|]. by apply Hlow.
    + destruct (isStrategy strategy "outdated") eqn:Hs2.
      * apply flagPass_spec in Hin as [Hin|(m & _ & -> & _)]; [|done].
        by rewrite (Hfirst _ Hin) in Hreason.
      * by rewrite (Hfirst _ Hin) in Hreason.
Qed.


End CleanupExtras.

Section CleanupCases.
Import MemoryStore StoreSpec MemoryTools ToolSpec.

Lemma cleanup_flags_justified_witness :
  NoDup (id <$> Attic.listed)
  ∧ candidates (H := Reference.host) "all" Attic.now Attic.listed
    = [removal Outdated Attic.note]
  ∧ ∃ m, m ∈ Attic.listed
         ∧ removal Outdated Attic.note = removal Outdated m
         ∧ isStrategy "all" "outdated" = true
         ∧ createdAt m < Attic.now - 30 * 24 * 60 * 60 * 1000
         ∧ accessCount m < 3 ∧ importance m ≤ 4 ∧ category m ≠ "fact"%string.
Proof.
  assert (NoDup (id <$> Attic.listed)) as Hnd.
  { apply (bool_decide_unpack (NoDup (id <$> Attic.listed))). vm_compute. exact I. }
  assert (candidates (H := Reference.host) "all" Attic.now Attic.listed
          = [removal Outdated Attic.note]) as Hflag by (vm_compute; reflexivity).
  split; [exact Hnd|]. split; [exact Hflag|].
  apply (cleanup_flags_justified (H := Reference.host) "all" Attic.now Attic.listed
           (removal Outdated Attic.note) Hnd).
  rewrite Hflag. apply list_elem_of_here.
Defined.


End CleanupCases.

(** ** The memory tools on the store *)

Section ToolEffects.
Import MemoryStore StoreSpec MemoryTools ToolSpec RecallSpec MoreTools.
Context `{H : Host}.

Lemma store_result c cat imp meta newId now st :
  (store c cat imp meta newId now st).1
  = match db st !! newId with
    | None => Some (mkMemory newId c cat (clampImportance (default 5 imp))
                      (extractKeywords c) now now 0 1 meta)
    | Some _ => None
    end.
Proof. unfold store. rewrite db_initSearchIndex. by destruct (db st !! newId). Qed.

Lemma db_store_taken c cat imp meta newId now st :
  is_Some (db st !! newId) → db (store c cat imp meta newId now st).2 = db st.
Proof.
  intros [m Hm]. unfold store. rewrite db_initSearchIndex, Hm. simpl.
  apply db_initSearchIndex.
Qed.

Lemma getCount_insert_new (d : gmap string StoredMemory) i m :
  d !! i = None → valid m → size (validEntries (<[i := m]> d)) = S (size (validEntries d)).
Proof.
  intros Hnew Hv. unfold validEntries. rewrite map_filter_insert_True by done.
  apply map_size_insert_None, map_lookup_filter_None. by left.
Qed.

Lemma db_recordAccess i now st k :
  keyedById (db st) →
  db (recordAccess i now st) !! k
  = if decide (k = i) then touch now <$> db st !! k else db st !! k.
Proof.
  intros Hk. unfold recordAccess. destruct (db st !! i) as [m|] eqn:Hm.
  - assert (db (if decide (is_Some (indexedMemories st !! i))
                then mkStore (db (putRecord (touch now m) st))
                       (searchIndex (putRecord (touch now m) st))
                       (<[i := touch now m]> (indexedMemories (putRecord (touch now m) st)))
                       (indexInitialized (putRecord (touch now m) st))
                else putRecord (touch now m) st)
            = <[i := touch now m]> (db st)) as ->.
    { destruct (decide (is_Some (indexedMemories st !! i))); simpl;
        by rewrite (keyedById_lookup _ _ _ Hk Hm). }
    destruct (decide (k = i)) as [->|Hne].
    + by rewrite lookup_insert_eq, Hm.
    + by rewrite lookup_insert_ne.
  - destruct (decide (k = i)) as [->|Hne]; [by rewrite Hm|done].
Qed.

Lemma keyedById_recordAccess i now st :
  keyedById (db st) → keyedById (db (recordAccess i now st)).
Proof.
  intros Hk k m Hm. rewrite db_recordAccess in Hm by done.
  destruct (decide (k = i)) as [->|Hne]; [|by apply Hk].
  destruct (db st !! i) as [m0|] eqn:Hm0; [|done]. simpl in Hm.
  injection Hm as <-. simpl. by apply Hk.
Qed.

Lemma db_recordAccessAll now ids st k :
  keyedById (db st) → NoDup ids →
  db (recordAccessAll now ids st) !! k
  = if decide (k ∈ ids) then touch now <$> db st !! k else db st !! k.
Proof.
  revert st. induction ids as [|i ids IH]; intros st Hk Hnd.
  - simpl. destruct (decide (k ∈ [])) as [Hin|_]; [by apply elem_of_nil in Hin|done].
  - apply NoDup_cons in Hnd as [Hi Hnd]. simpl.
    fold (recordAccessAll now ids (recordAccess i now st)).
    rewrite IH by (try done; by apply keyedById_recordAccess).
    rewrite db_recordAccess by done.
    destruct (decide (k = i)) as [->|Hne].
    + rewrite decide_False by done. rewrite decide_True by apply list_elem_of_here. done.
    + destruct (decide (k ∈ ids)) as [Hin|Hnin].
      * rewrite decide_True by by apply list_elem_of_further. done.
      * rewrite decide_False; [done|]. by intros [?|?]%elem_of_cons.
Qed.

Lemma forEach_recordAccess now (ms : list StoredMemory) st :
  forEach (λ m, opRecordAccess now (id m)) ms st
  = ((), recordAccessAll now (id <$> ms) st, CallRecordAccess <$> (id <$> ms)).
Proof.
  revert st. induction ms as [|m ms IH]; intros st; [done|].
  simpl. unfold mbind, Op_bind. unfold opRecordAccess at 1, call. simpl.
  by rewrite IH.
Qed.

(** X16. [store_memory] reports a stored record only for a non-empty content
    and one of the five categories: the record is filed under the generated
    identifier with the importance clamped to 1..10 (5 when none is given),
    the reason as metadata, and the count of valid records grows by one. A
    validation failure makes no store call and leaves the store as it was;
    the failure of the store happens on a taken identifier and leaves the
    database as it was. *)
Theorem store_memory_guarded args newId now st :
  let r := storeMemoryTool args newId now st in
  name (fst (fst r)) = "store_memory"%string
  ∧ match output (fst (fst r)) with
    | Stored i cat imp =>
        i = newId ∧ sa_category args = Some cat ∧ cat ∈ validCategories
        ∧ imp = clampImportance (default 5 (sa_importance args)) ∧ 1 ≤ imp ≤ 10
        ∧ db st !! newId = None
        ∧ (∃ c, sa_content args = Some c ∧ c ≠ []
                ∧ getById newId (snd (fst r))
                  = Some (mkMemory newId c cat imp (extractKeywords c) now now 0 1
                            (Some [("reason"%string, sa_reason args)]))
                ∧ snd r = [CallStore c cat (default 5 (sa_importance args))])
        ∧ (∀ k, k ≠ newId → db (snd (fst r)) !! k = db st !! k)
        ∧ getCount (snd (fst r)) = S (getCount st)
    | Failed (ValidationFailure _) =>
        snd (fst r) = st ∧ snd r = []
        ∧ (sa_content args = None ∨ sa_content args = Some []
           ∨ sa_category args = None ∨ sa_category args = Some EmptyString
           ∨ ∃ cat, sa_category args = Some cat ∧ cat ∉ validCategories)
    | Failed CaughtError =>
        is_Some (db st !! newId) ∧ db (snd (fst r)) = db st
    | _ => False
    end.
Proof.
  cbv zeta. unfold storeMemoryTool.
  destruct (sa_content args) as [[|c0 c']|] eqn:Hc.
  - simpl. split; [done|]. split; [done|]. split; [done|]. eauto.
  - destruct (sa_category args) as [[|a cat']|] eqn:Hcat.
    { simpl. split; [done|]. split; [done|]. split; [done|]. eauto 6. }
    2: { simpl. split; [done|]. split; [done|]. split; [done|]. eauto 6. }
    destruct (decide (String a cat' ∈ validCategories)) as [Hin|Hnin].
    2: { simpl. split; [done|]. split; [done|]. split; [done|]. eauto 10. }
    unfold mbind, Op_bind, opStore, call, mret, Op_ret. cbn [fst snd].
    set (c := c0 :: c'). set (cat := String a cat').
    set (imp := default 5 (sa_importance args)).
    set (meta := Some [("reason"%string, sa_reason args)]).
    pose proof (store_result c cat (Some imp) meta newId now st) as Hres.
    destruct (store c cat (Some imp) meta newId now st) as [stored st'] eqn:Hstore.
    cbn [fst snd] in Hres |- *. simpl in Hres.
    destruct (db st !! newId) as [m0|] eqn:Hnew; subst stored; cbn [name output fst snd].
    + split; [done|]. split; [eauto|].
      replace st' with (store c cat (Some imp) meta newId now st).2 by by rewrite Hstore.
      apply db_store_taken. eauto.
    + assert (db st' = <[newId := mkMemory newId c cat (clampImportance imp)
                                    (extractKeywords c) now now 0 1 meta]> (db st))
        as Hdb.
      { replace st' with (store c cat (Some imp) meta newId now st).2
          by by rewrite Hstore.
        by apply db_store. }
      simpl. split; [done|]. split; [done|]. split; [done|]. split; [done|].
      split; [done|]. split; [apply clampImportance_range|]. split; [done|].
      split; [|split].
      * exists c. split; [done|]. split; [done|]. split; [|done].
        unfold getById. rewrite Hdb. apply lookup_insert_eq.
      * intros k Hne. rewrite Hdb. by rewrite lookup_insert_ne.
      * unfold getCount. rewrite Hdb. by apply getCount_insert_new.
  - simpl. split; [done|]. split; [done|]. split; [done|]. eauto.
Qed.

Lemma List_filter_as_filter {A} (f : A → bool) (l : list A) :
  List.filter f l = filter (λ x, Is_true (f x)) l.
Proof.
  induction l as [|x l IH]; [done|]. cbn [List.filter]. rewrite IH.
  destruct (f x) eqn:Hf.
  - rewrite filter_cons_True; [done|by rewrite Hf].
  - rewrite filter_cons_False; [done|rewrite Hf; simpl; tauto].
Qed.

Lemma recallMemoryTool_category_eq q0 q' limit a cat' now st :
  let memories :=
    Js.sliceTo (default 5 limit)
      (List.filter
         (λ m, Js.includes (toLowerCase (content m)) (toLowerCase (q0 :: q')))
         (getByCategory (String a cat') 50 st)) in
  recallMemoryTool (mkRecallArgs (Some (q0 :: q')) limit (Some (String a cat'))) now st
  = (mkToolResult "recall_memory" (Recalled (format <$> memories) (length memories)),
     recordAccessAll now (id <$> memories) st,
     CallGetByCategory (String a cat') 50 :: (CallRecordAccess <$> (id <$> memories))).
Proof.
  cbv zeta. unfold recallMemoryTool, mbind, Op_bind, opGetByCategory, call, mret, Op_ret.
  cbn [ra_query ra_limit ra_category fst snd].
  rewrite forEach_recordAccess. cbn [app]. by rewrite !app_nil_r.
Qed.

(** X17. From a reachable store, [recall_memory] with a category reads the
    50 first records of the category and returns, in their order, at most
    [limit] of those whose lower-cased content includes the lower-cased
    query. Each returned record is a valid record of the category, returned
    once, and gets one access recorded: in the database its [accessCount]
    is one higher and its [lastAccessedAt] is the current time, and no other
    record is touched. *)
Theorem recall_by_category_effect q0 q' limit a cat' now st :
  Reachable st → 0 ≤ default 5 limit →
  let r := recallMemoryTool
             (mkRecallArgs (Some (q0 :: q')) limit (Some (String a cat'))) now st in
  ∃ memories : list StoredMemory,
    fst (fst r)
    = mkToolResult "recall_memory" (Recalled (format <$> memories) (length memories))
    ∧ (length memories ≤ Z.to_nat (default 5%Z limit))%nat
    ∧ NoDup (id <$> memories)
    ∧ memories `sublist_of` getByCategory (String a cat') 50 st
    ∧ (∀ m, m ∈ memories →
         category m = String a cat'
         ∧ Js.includes (toLowerCase (content m)) (toLowerCase (q0 :: q')) = true
         ∧ db st !! id m = Some m ∧ isValid m = 1)
    ∧ (∀ k, db (snd (fst r)) !! k
            = if decide (k ∈ id <$> memories) then touch now <$> db st !! k
              else db st !! k)
    ∧ snd r = CallGetByCategory (String a cat') 50
              :: (CallRecordAccess <$> (id <$> memories)).
Proof.
  intros Hreach Hlimit. pose proof (inv_keys _ (Inv_reachable _ Hreach)) as Hk.
  cbv zeta. rewrite recallMemoryTool_category_eq. cbv zeta. cbn [fst snd].
  set (listed := getByCategory (String a cat') 50 st).
  set (hits := List.filter _ listed).
  assert (Js.sliceTo (default 5 limit) hits `sublist_of` listed) as Hsub.
  { etrans; [apply sublist_sliceTo|]. unfold hits.
    replace (List.filter
               (λ m, Js.includes (toLowerCase (content m)) (toLowerCase (q0 :: q')))
               listed)
      with (filter (λ m, Is_true (Js.includes (toLowerCase (content m))
                                    (toLowerCase (q0 :: q')))) listed).
    - apply sublist_filter.
    - symmetry. apply List_filter_as_filter. }
  assert (NoDup (id <$> listed)) as Hnd.
  { by apply NoDup_ids_collect, NoDup_ids_scanCategoryPrev. }
  exists (Js.sliceTo (default 5 limit) hits).
  split; [done|]. split; [by apply length_sliceTo|].
  assert (NoDup (id <$> Js.sliceTo (default 5 limit) hits)) as Hnd'.
  { eapply sublist_NoDup; [done|]. by apply fmap_sublist. }
  split; [done|]. split; [done|]. split; [|split; [|done]].
  - intros m Hm. pose proof (elem_of_sliceTo _ _ _ Hm) as Hhit.
    unfold hits in Hhit. rewrite list_elem_of_In in Hhit.
    apply List.filter_In in Hhit as [Hin Hinc]. rewrite <- list_elem_of_In in Hin.
    unfold listed, getByCategory in Hin.
    split; [|split; [done|]].
    + apply elem_of_collect in Hin as [Hin _].
      by apply elem_of_scanCategoryPrev in Hin as [Hc _].
    + apply (collect_stored _ _ _ _ Hk) in Hin; [done|].
      intros x Hx. apply elem_of_scanCategoryPrev in Hx as [_ Hx]. done.
  - intros k. by apply db_recordAccessAll.
Qed.

End ToolEffects.

Section MoreToolEffects.
Import MemoryStore StoreSpec MemoryTools ToolSpec MoreTools.
Context `{H : Host}.

Lemma db_update i u st :
  db (update i u st).2
  = match db st !! i with
    | Some m => <[id m := applyUpdates u m]> (db st)
    | None => db st
    end.
Proof. unfold update. by destruct (db st !! i). Qed.

(** X18. From a reachable store, [forget_memory] is rejected without any
    change for a missing or empty identifier and for an identifier that is
    not stored. Otherwise the record is marked invalid, whatever its
    validity was, and reported by the first 50 units of its content; with a
    reason a correction record of importance 3 that names the forgotten
    record is added and nothing else changes. When the identifier generated
    for the correction is taken, the tool reports a failure although the
    record has been marked invalid. *)
Theorem forget_memory_effect args newId now st :
  Reachable st →
  let r := forgetMemoryTool args newId now st in
  toolName (fst r) = "forget_memory"%string
  ∧ match outcome (fst r) with
    | Rejected _ =>
        snd r = st
        ∧ (fa_memoryId args = None ∨ fa_memoryId args = Some EmptyString
           ∨ ∃ i, fa_memoryId args = Some i ∧ getById i st = None)
    | Forgotten i c =>
        ∃ m, fa_memoryId args = Some i ∧ getById i st = Some m
             ∧ c = take 50 (content m)
             ∧ getById i (snd r) = Some (setValid 0 m)
             ∧ match truthy (fa_reason args) with
               | Some reason =>
                   getById newId st = None
                   ∧ getById newId (snd r)
                     = Some (mkMemory newId (forgottenNote (content m) reason)
                               "correction" 3
                               (extractKeywords (forgottenNote (content m) reason))
                               now now 0 1
                               (Some [("originalMemoryId"%string,
                                       Some (Js.ofString i))]))
                   ∧ (∀ k, k ≠ i → k ≠ newId → getById k (snd r) = getById k st)
               | None => ∀ k, k ≠ i → getById k (snd r) = getById k st
               end
    | Caught =>
        ∃ i m, fa_memoryId args = Some i ∧ getById i st = Some m
               ∧ is_Some (truthy (fa_reason args))
               ∧ is_Some (getById newId st)
               ∧ getById i (snd r) = Some (setValid 0 m)
               ∧ (∀ k, k ≠ i → getById k (snd r) = getById k st)
    | _ => False
    end.
Proof.
  intros Hreach. pose proof (inv_keys _ (Inv_reachable _ Hreach)) as Hk.
  cbv zeta. unfold forgetMemoryTool, getById.
  destruct (fa_memoryId args) as [[|a i']|] eqn:Hid; [simpl; eauto 6| |simpl; eauto 6].
  set (i := String a i').
  destruct (db st !! i) as [m|] eqn:Hm; [|simpl; eauto 8].
  assert (∀ k, db (invalidate i st) !! k
               = if decide (k = i) then Some (setValid 0 m) else db st !! k) as Hinv.
  { intros k. rewrite db_invalidate by done.
    destruct (decide (k = i)) as [->|Hne]; [by rewrite Hm|done]. }
  destruct (truthy (fa_reason args)) as [reason|] eqn:Hreason.
  - set (note := forgottenNote (content m) reason).
    set (meta := Some [("originalMemoryId"%string, Some (Js.ofString i))]).
    pose proof (store_result note "correction" (Some 3) meta newId now
                  (invalidate i st)) as Hres.
    pose proof (db_store note "correction" (Some 3) meta newId now
                  (invalidate i st)) as Hfree.
    pose proof (db_store_taken note "correction" (Some 3) meta newId now
                  (invalidate i st)) as Htaken.
    destruct (store note "correction" (Some 3) meta newId now (invalidate i st))
      as [stored st2] eqn:Hstore.
    cbn [fst snd] in Hres, Hfree, Htaken. rewrite Hinv in Hres, Hfree, Htaken.
    destruct (decide (newId = i)) as [->|Hne].
    + subst stored. cbn [fst snd toolName outcome]. split; [done|].
      exists i, m. rewrite Hm. rewrite Htaken by eauto.
      split; [done|]. split; [done|]. split; [eauto|]. split; [eauto|].
      split; [by rewrite Hinv, decide_True|].
      intros k Hk'. by rewrite Hinv, decide_False.
    + destruct (db st !! newId) as [m0|] eqn:Hnew; subst stored;
        cbn [fst snd toolName outcome]; (split; [done|]).
      * exists i, m. rewrite Htaken by eauto.
        split; [done|]. split; [done|]. split; [eauto|]. split; [eauto|].
        split; [by rewrite Hinv, decide_True|].
        intros k Hk'. by rewrite Hinv, decide_False.
      * exists m. rewrite ?Hreason, Hfree by done.
        split; [done|]. split; [done|]. split; [done|].
        split. { rewrite lookup_insert_ne by done. by rewrite Hinv, decide_True. }
        split; [done|]. split; [by rewrite lookup_insert_eq|].
        intros k Hk1 Hk2. rewrite lookup_insert_ne by done.
        by rewrite Hinv, decide_False.
  - cbn [fst snd toolName outcome]. split; [done|]. exists m. rewrite ?Hreason.
    split; [done|]. split; [done|]. split; [done|].
    split; [by rewrite Hinv, decide_True|].
    intros k Hk'. by rewrite Hinv, decide_False.
Qed.

(** X19. From a reachable store, [update_memory] is rejected without any
    change when the identifier is missing, empty or not stored, and when
    neither a non-empty content nor an importance is given. Otherwise the
    record takes the new content (an empty one counts as not given; the
    keywords follow the content) and the new importance clamped to 1..10;
    its category, validity, dates, access count and metadata stay, so a
    forgotten record stays forgotten; no other record changes. *)
Theorem update_memory_effect args st :
  Reachable st →
  let r := updateMemoryTool args st in
  toolName (fst r) = "update_memory"%string
  ∧ match outcome (fst r) with
    | Rejected _ =>
        snd r = st
        ∧ (ua_memoryId args = None ∨ ua_memoryId args = Some EmptyString
           ∨ (truthy (ua_content args) = None ∧ ua_importance args = None)
           ∨ ∃ i, ua_memoryId args = Some i ∧ getById i st = None)
    | Updated i c imp =>
        ∃ m, ua_memoryId args = Some i ∧ getById i st = Some m
             ∧ getById i (snd r)
               = Some (mkMemory (id m)
                         (default (content m) (truthy (ua_content args)))
                         (category m) imp
                         (match truthy (ua_content args) with
                          | Some new => extractKeywords new
                          | None => keywords m
                          end)
                         (createdAt m) (lastAccessedAt m) (accessCount m)
                         (isValid m) (metadata m))
             ∧ c = take 50 (default (content m) (truthy (ua_content args)))
             ∧ imp = match ua_importance args with
                     | Some new => clampImportance new
                     | None => importance m
                     end
             ∧ (∀ k, k ≠ i → getById k (snd r) = getById k st)
    | _ => False
    end.
Proof.
  intros Hreach. pose proof (inv_keys _ (Inv_reachable _ Hreach)) as Hk.
  cbv zeta. unfold updateMemoryTool, getById.
  destruct (ua_memoryId args) as [[|a i']|] eqn:Hid; [simpl; eauto 6| |simpl; eauto 6].
  set (i := String a i').
  assert (∀ u,
            (truthy (ua_content args) = u_content u) →
            (ua_importance args = u_importance u) →
            u_category u = None → u_isValid u = None →
            let r := match update i u st with
                     | (Some updated, st') =>
                         (mkReport "update_memory"
                            (Updated i (take 50 (content updated)) (importance updated)),
                          st')
                     | (None, st') =>
                         (mkReport "update_memory" (Rejected "Memory not found"), st')
                     end in
            toolName (fst r) = "update_memory"%string
            ∧ match outcome (fst r) with
              | Rejected _ =>
                  snd r = st
                  ∧ (Some i = None ∨ Some i = Some EmptyString
                     ∨ (truthy (ua_content args) = None ∧ ua_importance args = None)
                     ∨ ∃ i0, Some i = Some i0 ∧ db st !! i0 = None)
              | Updated i0 c imp =>
                  ∃ m, Some i = Some i0 ∧ db st !! i0 = Some m
                       ∧ db (snd r) !! i0
                         = Some (mkMemory (id m)
                                   (default (content m) (truthy (ua_content args)))
                                   (category m) imp
                                   (match truthy (ua_content args) with
                                    | Some new => extractKeywords new
                                    | None => keywords m
                                    end)
                                   (createdAt m) (lastAccessedAt m) (accessCount m)
                                   (isValid m) (metadata m))
                       ∧ c = take 50 (default (content m) (truthy (ua_content args)))
                       ∧ imp = match ua_importance args with
                               | Some new => clampImportance new
                               | None => importance m
                               end
                       ∧ (∀ k, k ≠ i0 → db (snd r) !! k = db st !! k)
              | _ => False
              end) as Hbody.
  { intros u Hc Himp Hcat Hv. cbv zeta.
    pose proof (db_update i u st) as Hdb. unfold update in *.
    destruct (db st !! i) as [m|] eqn:Hm; cbn [fst snd toolName outcome] in *.
    - split; [done|]. exists m. rewrite Hdb.
      split; [done|]. split; [done|]. unfold applyUpdates.
      rewrite <- Hc, <- Himp, Hcat, Hv. simpl.
      rewrite !(keyedById_lookup _ _ _ Hk Hm).
      split; [apply lookup_insert_eq|]. split; [done|]. split; [done|].
      intros k Hne. by apply lookup_insert_ne.
    - split; [done|]. split; [done|]. right. right. right. by exists i. }
  destruct (truthy (ua_content args)) as [newContent|] eqn:Hc.
  - apply (Hbody (mkUpdates (Some newContent) (ua_importance args) None None)); done.
  - destruct (ua_importance args) as [newImportance|] eqn:Himp.
    + apply (Hbody (mkUpdates None (Some newImportance) None None)); done.
    + simpl. eauto 8.
Qed.

(** X20. From a reachable store, [list_memories] reports the listed
    records, their number and the number of all valid records, and never
    lists more than either that number or [limit] (10 when none is given).
    With a non-empty category it lists records of that category and ignores
    [sortBy]; every listed record is a valid record of the database, listed
    once, and shown with at most 103 units of content. *)
Theorem list_memories_counts args st :
  Reachable st →
  ∃ memories : list StoredMemory,
    listMemoriesTool args st
    = mkReport "list_memories"
        (Listed (preview <$> memories) (length memories) (getCount st))
    ∧ (length memories ≤ getCount st)%nat
    ∧ (length memories ≤ Z.to_nat (default 10%Z (la_limit args)))%nat
    ∧ NoDup (id <$> memories)
    ∧ (∀ m, m ∈ memories → db st !! id m = Some m ∧ isValid m = 1)
    ∧ (∀ a cat' m, la_category args = Some (String a cat') → m ∈ memories →
         category m = String a cat')
    ∧ (∀ f, f ∈ preview <$> memories → (length (f_content f) ≤ 103)%nat).
Proof.
  intros Hreach. pose proof (inv_keys _ (Inv_reachable _ Hreach)) as Hk.
  exists (listed args st). split; [done|].
  assert (NoDup (id <$> MoreTools.listed args st)) as Hnd.
  { unfold MoreTools.listed. destruct (la_category args) as [[|a cat']|].
    - destruct (bool_decide _); by apply NoDup_ids_collect, NoDup_ids_scanPrev.
    - by apply NoDup_ids_collect, NoDup_ids_scanCategoryPrev.
    - destruct (bool_decide _); by apply NoDup_ids_collect, NoDup_ids_scanPrev. }
  assert (∀ m, m ∈ MoreTools.listed args st → db st !! id m = Some m ∧ isValid m = 1)
    as Hstored.
  { intros m. unfold MoreTools.listed, getByCategory, getMostImportant, getRecent.
    assert (∀ key x, x ∈ scanPrev key (db st) → ∃ k, db st !! k = Some x) as Hscan.
    { intros key x Hx. by apply elem_of_scanPrev in Hx. }
    assert (∀ cat x, x ∈ scanCategoryPrev cat (db st) → ∃ k, db st !! k = Some x)
      as Hscan'.
    { intros cat x Hx. by apply elem_of_scanCategoryPrev in Hx as [_ Hx]. }
    destruct (la_category args) as [[|a cat']|]; [destruct (bool_decide _)| |
                                                  destruct (bool_decide _)];
      intros Hm; (apply (collect_stored _ _ _ _ Hk) in Hm; [done|]);
      (apply Hscan || apply Hscan'). }
  split; [|split; [|split; [done|split; [done|split]]]].
  - unfold getCount. rewrite <- (length_valid_records _ Hk).
    apply submseteq_length, NoDup_submseteq; [by eapply NoDup_fmap_1|].
    intros m Hm. destruct (Hstored m Hm) as [Hdb Hv].
    apply list_elem_of_filter. split; [done|]. apply elem_of_records. eauto.
  - unfold MoreTools.listed, getByCategory, getMostImportant, getRecent.
    destruct (la_category args) as [[|a cat']|]; [destruct (bool_decide _)| |
                                                  destruct (bool_decide _)];
      apply length_collect.
  - intros a cat' m Hcat Hm. unfold MoreTools.listed in Hm. rewrite Hcat in Hm.
    apply elem_of_collect in Hm as [Hm _].
    by apply elem_of_scanCategoryPrev in Hm as [Hc _].
  - intros f Hf. apply list_elem_of_fmap in Hf as (m & -> & _). simpl.
    rewrite length_app, length_take.
    destruct (100 <? length (content m))%nat; cbn [length]; lia.
Qed.

End MoreToolEffects.

(** ** The memories chosen for the prompt *)

Section PromptMemories.
Import MemoryStore StoreSpec MemoryTools MoreTools.
Context `{H : Host}.

(** The loop that skips what was seen keeps [seen] equal to the identifiers
    collected, collects no identifier twice, only appends, and takes what
    it appends from the list it walks. *)
Lemma addUnseen_spec (found : list StoredMemory) acc :
  (∀ i, i ∈ acc.1 ↔ i ∈ id <$> acc.2) → NoDup (id <$> acc.2) →
  (∀ i, i ∈ (addUnseen found acc).1 ↔ i ∈ id <$> (addUnseen found acc).2)
  ∧ NoDup (id <$> (addUnseen found acc).2)
  ∧ (∃ added, (addUnseen found acc).2 = acc.2 ++ added
              ∧ ∀ m, m ∈ added → m ∈ found).
Proof.
  unfold addUnseen. revert acc.
  induction found as [|m found IH]; intros [seen out] Hseen Hnd; simpl in *.
  - split; [done|]. split; [done|]. exists []. split; [by rewrite app_nil_r|].
    by intros m ?%elem_of_nil.
  - destruct (decide (id m ∈ seen)) as [Hin|Hnin]; simpl.
    + destruct (IH (seen, out) Hseen Hnd) as (Hs & Hn & added & Heq & Hadded).
      split; [done|]. split; [done|]. exists added. split; [done|].
      intros x Hx. by apply list_elem_of_further, Hadded.
    + destruct (IH (id m :: seen, out ++ [m])) as (Hs & Hn & added & Heq & Hadded).
      * intros i. simpl. rewrite fmap_app, elem_of_cons, elem_of_app, Hseen. simpl.
        rewrite list_elem_of_singleton. tauto.
      * simpl. rewrite fmap_app. apply NoDup_app. split; [done|]. split.
        -- intros i Hi ->%list_elem_of_singleton. apply Hnin. by apply Hseen.
        -- apply NoDup_singleton.
      * split; [done|]. split; [done|]. exists (m :: added).
        split; [rewrite Heq; cbn [snd]; by rewrite <- app_assoc|].
        intros x [->|Hx]%elem_of_cons; [apply list_elem_of_here|].
        by apply list_elem_of_further, Hadded.
Qed.

Lemma elem_of_addUnseen (found : list StoredMemory) acc m :
  (∀ i, i ∈ acc.1 ↔ i ∈ id <$> acc.2) → NoDup (id <$> acc.2) →
  m ∈ (addUnseen found acc).2 → m ∈ acc.2 ∨ m ∈ found.
Proof.
  intros Hseen Hnd Hm.
  destruct (addUnseen_spec found acc Hseen Hnd) as (_ & _ & added & Heq & Hadded).
  rewrite Heq in Hm. apply elem_of_app in Hm as [Hm|Hm]; [by left|right; eauto].
Qed.

Lemma getByCategory_stored cat limit st m :
  keyedById (db st) → m ∈ getByCategory cat limit st →
  category m = cat ∧ db st !! id m = Some m ∧ isValid m = 1.
Proof.
  intros Hk Hm. unfold getByCategory in Hm. split.
  - apply elem_of_collect in Hm as [Hm _].
    by apply elem_of_scanCategoryPrev in Hm as [Hc _].
  - apply (collect_stored _ _ _ _ Hk) in Hm; [done|].
    intros x Hx. by apply elem_of_scanCategoryPrev in Hx as [_ Hx].
Qed.

Lemma getMostImportant_stored limit st m :
  keyedById (db st) → m ∈ getMostImportant limit st →
  db st !! id m = Some m ∧ isValid m = 1.
Proof.
  intros Hk Hm. unfold getMostImportant in Hm.
  apply (collect_stored _ _ _ _ Hk) in Hm; [done|].
  intros x Hx. by apply elem_of_scanPrev in Hx.
Qed.

Lemma search_memory_stored `{!HostLaws H} query limit now st r :
  Reachable st → r ∈ (search query limit now st).1 →
  db st !! id (memory r) = Some (memory r) ∧ isValid (memory r) = 1.
Proof.
  intros Hreach Hr. pose proof (Inv_reachable _ Hreach) as HI.
  pose proof (Inv_initSearchIndex _ HI) as [Hk Hc Hi].
  apply search_results_cached in Hr as (k & Hcache & [idx Hidx] & Hfound).
  destruct (Hc (mk_is_Some _ _ Hidx) k _ Hcache) as [Hdb Hv].
  assert (id (memory r) = k) as Hid by exact (keyedById_lookup _ _ _ Hk Hdb).
  rewrite db_initSearchIndex in Hdb. by rewrite Hid.
Qed.

(** X21. From a reachable store, [getGreetingMemories] returns at most 5
    records in descending order of importance, none twice; each is a valid
    record of the database and is a fact or an event of importance at least
    7 or a preference of importance at least 6. *)
Theorem greeting_memories_chosen st :
  Reachable st →
  (length (getGreetingMemories st) ≤ 5)%nat
  ∧ StronglySorted (λ a b, importance b ≤ importance a) (getGreetingMemories st)
  ∧ NoDup (id <$> getGreetingMemories st)
  ∧ (∀ m, m ∈ getGreetingMemories st →
       db st !! id m = Some m ∧ isValid m = 1
       ∧ ((category m = "fact"%string ∧ 7 ≤ importance m)
          ∨ (category m = "preference"%string ∧ 6 ≤ importance m)
          ∨ (category m = "event"%string ∧ 7 ≤ importance m))).
Proof.
  intros Hreach. pose proof (inv_keys _ (Inv_reachable _ Hreach)) as Hk.
  unfold getGreetingMemories. cbv zeta.
  set (facts := List.filter _ (getByCategory "fact" 10 st)).
  set (preferences := List.filter _ (getByCategory "preference" 5 st)).
  set (events := List.filter _ (getByCategory "event" 3 st)).
  assert (∀ i : string, i ∈ [] ↔ i ∈ id <$> @nil StoredMemory) as Hs0 by done.
  assert (NoDup (id <$> @nil StoredMemory)) as Hn0 by constructor.
  destruct (addUnseen_spec facts ([], []) Hs0 Hn0) as (Hs1 & Hn1 & _).
  destruct (addUnseen_spec preferences _ Hs1 Hn1) as (Hs2 & Hn2 & _).
  destruct (addUnseen_spec events _ Hs2 Hn2) as (Hs3 & Hn3 & _).
  set (acc3 := addUnseen events (addUnseen preferences (addUnseen facts ([], [])))) in *.
  split; [|split; [|split]].
  - by apply (length_sliceTo 5).
  - eapply StronglySorted_sublist; [apply sublist_sliceTo|]. apply byImportance_sorted.
  - eapply sublist_NoDup; [|apply fmap_sublist, sublist_sliceTo].
    by rewrite stableSort_Permutation.
  - intros m Hm%elem_of_sliceTo. apply elem_of_stableSort in Hm.
    assert (∀ bound cat limit,
              m ∈ List.filter (λ x, bound <=? importance x) (getByCategory cat limit st) →
              db st !! id m = Some m ∧ isValid m = 1
              ∧ category m = cat ∧ bound ≤ importance m) as Hpick.
    { intros bound cat limit Hin. rewrite list_elem_of_In in Hin.
      apply List.filter_In in Hin as [Hin Himp]. rewrite <- list_elem_of_In in Hin.
      apply Z.leb_le in Himp.
      by destruct (getByCategory_stored _ _ _ _ Hk Hin) as (Hc & Hdb & Hv). }
    destruct (elem_of_addUnseen _ _ _ Hs2 Hn2 Hm) as [Hm2|Hev].
    + destruct (elem_of_addUnseen _ _ _ Hs1 Hn1 Hm2) as [Hm1|Hpref].
      * destruct (elem_of_addUnseen facts ([], []) m Hs0 Hn0 Hm1) as [Hnil|Hfact];
          [by apply elem_of_nil in Hnil|].
        destruct (Hpick _ _ _ Hfact) as (Hdb & Hv & Hc & Himp). eauto 6.
      * destruct (Hpick _ _ _ Hpref) as (Hdb & Hv & Hc & Himp). eauto 8.
    + destruct (Hpick _ _ _ Hev) as (Hdb & Hv & Hc & Himp). eauto 8.
Qed.

Lemma swap_Permutation {A} (i j : nat) (l : list A) : swap i j l ≡ₚ l.
Proof.
  unfold swap. destruct (l !! i) as [x|] eqn:Hi; [|done].
  destruct (l !! j) as [y|] eqn:Hj; [|done].
  pose proof (lookup_lt_Some _ _ _ Hi) as Hli.
  pose proof (lookup_lt_Some _ _ _ Hj) as Hlj.
  apply Permutation_inj. split; [by rewrite !length_insert|].
  exists (λ n, if decide (n = i) then j else if decide (n = j) then i else n).
  split.
  - intros a b. repeat case_decide; intros; subst; congruence.
  - intros n. destruct (decide (n = i)) as [->|Hni].
    + rewrite list_lookup_insert_eq by by rewrite length_insert. done.
    + rewrite list_lookup_insert_ne by done.
      destruct (decide (n = j)) as [->|Hnj].
      * by rewrite list_lookup_insert_eq.
      * by rewrite list_lookup_insert_ne.
Qed.

Lemma shuffle_Permutation {A} (pick : nat → nat) (l : list A) : shuffle pick l ≡ₚ l.
Proof.
  unfold shuffle. generalize (length l - 1)%nat as i. intros i. revert l.
  induction i as [|i IH]; intros l; [done|].
  simpl. rewrite IH. apply swap_Permutation.
Qed.

Lemma expandWith_spec `{!HostLaws H} now terms acc st :
  Reachable st → initSearchIndex st = st →
  (∀ i, i ∈ acc.1 ↔ i ∈ id <$> acc.2) → NoDup (id <$> acc.2) →
  (∀ m, m ∈ acc.2 → db st !! id m = Some m ∧ isValid m = 1) →
  (expandWith now terms acc st).2 = st
  ∧ (∀ i, i ∈ (expandWith now terms acc st).1.1
          ↔ i ∈ id <$> (expandWith now terms acc st).1.2)
  ∧ NoDup (id <$> (expandWith now terms acc st).1.2)
  ∧ (∀ m, m ∈ (expandWith now terms acc st).1.2 →
       db st !! id m = Some m ∧ isValid m = 1).
Proof.
  intros Hreach Hinit. unfold expandWith. revert acc.
  induction terms as [|term terms IH]; intros acc Hseen Hnd Hstored; [done|].
  cbn [foldl].
  pose proof (state_after_search term 3 now st) as Hstate.
  pose proof (λ r, search_memory_stored term 3 now st r Hreach) as Hfound.
  destruct (search term 3 now st) as [termResults st'].
  cbn [fst snd] in Hstate, Hfound. rewrite Hinit in Hstate. subst st'.
  destruct (addUnseen_spec (memory <$> termResults) acc Hseen Hnd)
    as (Hseen' & Hnd' & _).
  apply IH; [done|done|].
  intros m Hm. apply elem_of_addUnseen in Hm; [|done|done].
  destruct Hm as [Hm|Hm]; [by apply Hstored|].
  apply list_elem_of_fmap in Hm as (r & -> & Hr). by apply Hfound.
Qed.

(** X22. From a reachable store and for a limit that is not negative,
    whatever the expanded terms and the draws of the shuffle are,
    [getRelevantMemories] returns at most [limit] records, none twice, each
    a valid record of the database; and all it does to the store is to
    build the search index. *)
Theorem relevant_memories_chosen `{!HostLaws H} context limit useSmartSearch
    expandedTerms pick now st :
  Reachable st → 0 ≤ limit →
  let r := getRelevantMemories context limit useSmartSearch expandedTerms pick now st in
  (length (fst r) ≤ Z.to_nat limit)%nat
  ∧ NoDup (id <$> fst r)
  ∧ (∀ m, m ∈ fst r → db st !! id m = Some m ∧ isValid m = 1)
  ∧ snd r = initSearchIndex st.
Proof.
  intros Hreach Hlimit. cbv zeta. unfold getRelevantMemories.
  pose proof (state_after_search context (limit * 2) now st) as Hstate.
  pose proof (λ r, search_memory_stored context (limit * 2) now st r Hreach) as Hfound.
  destruct (search context (limit * 2) now st) as [directResults st1].
  cbn [fst snd] in Hstate, Hfound. subst st1.
  set (s1 := initSearchIndex st).
  assert (Reachable s1) as Hreach1.
  { unfold s1. rewrite <- (state_after_search context 0 now st).
    eapply ReachStep; [done|constructor]. }
  assert (initSearchIndex s1 = s1) as Hidem by apply initSearchIndex_idem.
  assert (db s1 = db st) as Hdb by apply db_initSearchIndex.
  pose proof (inv_keys _ (Inv_reachable _ Hreach1)) as Hk.
  assert (∀ i : string, i ∈ [] ↔ i ∈ id <$> @nil StoredMemory) as Hs0 by done.
  assert (NoDup (id <$> @nil StoredMemory)) as Hn0 by constructor.
  destruct (addUnseen_spec (memory <$> directResults) ([], []) Hs0 Hn0)
    as (Hs1 & Hn1 & _).
  set (direct := addUnseen (memory <$> directResults) ([], [])) in *.
  assert (∀ m, m ∈ direct.2 → db s1 !! id m = Some m ∧ isValid m = 1) as Hst1.
  { intros m Hm. rewrite Hdb.
    destruct (elem_of_addUnseen (memory <$> directResults) ([], []) m Hs0 Hn0 Hm)
      as [Hnil|Hin]; [by apply elem_of_nil in Hnil|].
    apply list_elem_of_fmap in Hin as (r & -> & Hr). by apply Hfound. }
  assert (∃ expanded,
            (if useSmartSearch && (Z.of_nat (length direct.2) <? limit)
             then expandWith now expandedTerms direct s1 else (direct, s1))
            = (expanded, s1)
            ∧ (∀ i, i ∈ expanded.1 ↔ i ∈ id <$> expanded.2)
            ∧ NoDup (id <$> expanded.2)
            ∧ (∀ m, m ∈ expanded.2 → db s1 !! id m = Some m ∧ isValid m = 1))
    as (expanded & -> & Hs2 & Hn2 & Hst2).
  { destruct (useSmartSearch && (Z.of_nat (length direct.2) <? limit)).
    - destruct (expandWith_spec now expandedTerms direct s1 Hreach1 Hidem Hs1 Hn1 Hst1)
        as (Hstate & Hs & Hn & Hst).
      exists (expandWith now expandedTerms direct s1).1.
      split; [|done]. clear Hs Hn Hst.
      destruct (expandWith now expandedTerms direct s1) as [e s']. simpl in Hstate.
      by subst s'.
    - exists direct. done. }
  destruct (addUnseen_spec (getMostImportant 3 s1) expanded Hs2 Hn2) as (_ & Hn3 & _).
  set (candidates := (addUnseen (getMostImportant 3 s1) expanded).2) in *.
  assert (∀ m, m ∈ candidates → db st !! id m = Some m ∧ isValid m = 1) as Hst3.
  { intros m Hm. rewrite <- Hdb.
    destruct (elem_of_addUnseen _ _ _ Hs2 Hn2 Hm) as [Hin|Hin]; [by apply Hst2|].
    by apply (getMostImportant_stored 3). }
  set (ordered := if limit <? Z.of_nat (length candidates)
                  then Js.stableSort byTier (shuffle pick candidates)
                  else candidates).
  assert (ordered ≡ₚ candidates) as Hperm.
  { unfold ordered. destruct (limit <? Z.of_nat (length candidates)); [|done].
    by rewrite stableSort_Permutation, shuffle_Permutation. }
  cbn [fst snd]. split; [by apply length_sliceTo|]. split; [|split; [|done]].
  - eapply sublist_NoDup; [|apply fmap_sublist, sublist_sliceTo]. by rewrite Hperm.
  - intros m Hm%elem_of_sliceTo. rewrite Hperm in Hm. by apply Hst3.
Qed.

End PromptMemories.

(** ** Statistics and the messages sent to the model *)

Section StatsAndOutbound.
Import MemoryStore StoreSpec MemoryTools Agent AgentMore.
Context `{H : Host}.

Lemma length_concat_sum {A} (ls : list (list A)) :
  length (concat ls) = list_sum (length <$> ls).
Proof.
  induction ls as [|l ls IH]; [done|]. simpl. rewrite length_app. by rewrite IH.
Qed.

Lemma elem_of_concat_fmap {A B} (f : A → list B) (xs : list A) (y : B) :
  y ∈ concat (f <$> xs) ↔ ∃ x, x ∈ xs ∧ y ∈ f x.
Proof.
  induction xs as [|x xs IH]; simpl.
  - split; [by intros ?%elem_of_nil|by intros (x & ?%elem_of_nil & _)].
  - rewrite elem_of_app, IH. split.
    + intros [Hy|(x' & Hx' & Hy)].
      * exists x. split; [apply list_elem_of_here|done].
      * exists x'. split; [by apply list_elem_of_further|done].
    + intros (x' & [->|Hx']%elem_of_cons & Hy); [by left|right; eauto].
Qed.

(** The listings of distinct categories share no record. *)
Lemma NoDup_category_listings cats limit st :
  keyedById (db st) → NoDup cats →
  NoDup (concat ((λ cat, getByCategory cat limit st) <$> cats)).
Proof.
  intros Hk. induction 1 as [|cat cats Hnin Hnd IH]; simpl; [constructor|].
  apply NoDup_app. split; [|split; [|done]].
  - eapply NoDup_fmap_1. unfold getByCategory.
    by apply NoDup_ids_collect, NoDup_ids_scanCategoryPrev.
  - intros m Hm Hrest. apply elem_of_concat_fmap in Hrest as (cat' & Hcat' & Hm').
    apply (getByCategory_stored _ _ _ _ Hk) in Hm as [Hc _].
    apply (getByCategory_stored _ _ _ _ Hk) in Hm' as [Hc' _].
    apply Hnin. by rewrite <- Hc, Hc'.
Qed.

(** X23. From a reachable store, [getMemoryStats] gives the number of valid
    records and one count for each of the five categories, in their order;
    the counts of the categories never add up to more than the number of
    valid records, and they add up to exactly that number when the database
    holds at most 1000 records and every valid record has one of the five
    categories. *)
Theorem memory_stats_consistent st :
  Reachable st →
  fst (getMemoryStats st) = getCount st
  ∧ fst <$> snd (getMemoryStats st) = validCategories
  ∧ (list_sum (snd <$> snd (getMemoryStats st)) ≤ getCount st)%nat
  ∧ ((size (db st) ≤ 1000)%nat →
     (∀ k m, db st !! k = Some m → isValid m = 1 → category m ∈ validCategories) →
     list_sum (snd <$> snd (getMemoryStats st)) = getCount st).
Proof.
  intros Hreach. pose proof (inv_keys _ (Inv_reachable _ Hreach)) as Hk.
  unfold getMemoryStats. cbn [fst snd]. split; [done|]. split; [done|].
  assert (NoDup validCategories) as Hcats.
  { apply (bool_decide_unpack (NoDup validCategories)). vm_compute. exact I. }
  set (listings := (λ cat, getByCategory cat 1000 st) <$> validCategories).
  assert (snd <$> ((λ cat, (cat, length (getByCategory cat 1000 st)))
                     <$> validCategories)
          = length <$> listings) as ->.
  { unfold listings. rewrite <- !list_fmap_compose. by apply list_fmap_ext. }
  rewrite <- length_concat_sum.
  pose proof (NoDup_category_listings validCategories 1000 st Hk Hcats) as Hnd.
  fold listings in Hnd.
  assert (NoDup (filter valid (records (db st)))) as HndV.
  { apply NoDup_filter. eapply NoDup_fmap_1. by apply NoDup_ids_records. }
  assert (∀ m, m ∈ concat listings → m ∈ filter valid (records (db st))) as Hsub.
  { intros m Hm. apply elem_of_concat_fmap in Hm as (cat & _ & Hm).
    apply (getByCategory_stored _ _ _ _ Hk) in Hm as (_ & Hdb & Hv).
    apply list_elem_of_filter. split; [done|]. apply elem_of_records. eauto. }
  unfold getCount. rewrite <- (length_valid_records _ Hk). split.
  - by apply submseteq_length, NoDup_submseteq.
  - intros Hsize Hcat. apply Permutation_length, NoDup_Permutation; [done|done|].
    intros m. split; [apply Hsub|]. intros Hm.
    apply list_elem_of_filter in Hm as [Hv Hm]. apply elem_of_records in Hm as [k Hm].
    apply elem_of_concat_fmap. exists (category m). split; [by eapply Hcat|].
    unfold getByCategory. apply collect_all; [| |done].
    + pose proof (length_scanCategoryPrev (category m) (db st)). lia.
    + apply elem_of_scanCategoryPrev. eauto.
Qed.

End StatsAndOutbound.

Section Outbound.
Import Agent AgentMore.


End Outbound.

(** ** The agent: history, requests and tool results *)

Section AgentExtras.
Import Agent AgentSpec.
Context {W : Type} `{AH : AgentHost W} `{H : Host}.

Lemma trimLoop_sublist k r l : trimLoop k r l `sublist_of` l.
Proof.
  revert r. induction l as [|m l IH]; intros r; simpl; [done|].
  destruct (r <? k); [|done].
  destruct (role m); (by apply sublist_skip) || (by apply sublist_cons).
Qed.

(** X25. For a bound that is not negative, [trimHistory] only removes
    messages and keeps every system message; a history of at most
    [maxContextMessages] turns is left as it is, a longer one is left with
    exactly that many turns, made of the most recent user and assistant
    messages; and trimming what has been trimmed changes nothing. *)
Theorem trimHistory_trims N h :
  0 ≤ N →
  trimHistory N h `sublist_of` h
  ∧ turnsOf (trimHistory N h) = Z.min N (turnsOf h)
  ∧ List.filter isSystem (trimHistory N h) = List.filter isSystem h
  ∧ List.filter isConversation (trimHistory N h)
    = drop (Z.to_nat ((turnsOf h - N) * 2)) (List.filter isConversation h)
  ∧ (turnsOf h ≤ N → trimHistory N h = h)
  ∧ trimHistory N (trimHistory N h) = trimHistory N h.
Proof.
  intros HN. destruct (decide (turnsOf h ≤ N)) as [Hle|Hgt].
  - assert (trimHistory N h = h) as Hsame.
    { unfold trimHistory. cbv zeta. by rewrite (proj2 (Z.leb_le _ _) Hle). }
    rewrite !Hsame. split; [done|]. split; [lia|]. split; [done|].
    split; [|done]. by replace (Z.to_nat ((turnsOf h - N) * 2)) with 0%nat by lia.
  - destruct (trimHistory_keeps_recent N h HN ltac:(lia)) as (Hturns & Hconv & Hsys).
    split; [|split; [lia|split; [done|split; [done|split; [lia|]]]]].
    + unfold trimHistory. cbv zeta. destruct (turnsOf h <=? N); [done|].
      pose proof (trimLoop_sublist ((turnsOf h - N) * 2) 0
                    (drop (firstNonSystemIdx h) h)) as Hloop.
      pose proof (sublist_app _ _ _ _
                    (reflexivity (take (firstNonSystemIdx h) h)) Hloop) as Hall.
      by rewrite take_drop in Hall.
    + unfold trimHistory at 1. cbv zeta.
      by rewrite Hturns, (proj2 (Z.leb_le _ _) (Z.le_refl N)).
Qed.

Lemma addMemory_all_prefix now (added : list MemoryEntryInput) mem :
  mem `prefix_of` foldl (λ acc e, addMemory now e acc) mem added.
Proof.
  revert mem. induction added as [|e added IH]; intros mem; simpl; [done|].
  etrans; [|apply IH]. unfold addMemory. by apply prefix_app_r.
Qed.

Lemma recordEntries_prefix now (results : list ToolResult) mem :
  mem `prefix_of` recordEntries now results mem.
Proof.
  unfold recordEntries. revert mem.
  induction results as [|r results IH]; intros mem; simpl; [done|].
  etrans; [|apply IH]. destruct (tr_memoryEntry r); [|done].
  unfold addMemory. by apply prefix_app_r.
Qed.

Lemma executeToolCall_prefix (cfg : Config W) now tc mem w :
  mem `prefix_of` (executeToolCall cfg now tc mem w).1.2.
Proof.
  unfold executeToolCall. destruct (toolRegistry cfg !! rq_name tc) as [t|]; [|done].
  destruct (execute t _ mem w) as [[outcome added] w'].
  destruct outcome; apply addMemory_all_prefix.
Qed.

Lemma executeToolCalls_prefix (cfg : Config W) now tcs mem w :
  mem `prefix_of` (executeToolCalls cfg now tcs mem w).1.2.
Proof.
  revert mem w. induction tcs as [|tc tcs IH]; intros mem w; simpl; [done|].
  pose proof (executeToolCall_prefix cfg now tc mem w) as Hone.
  destruct (executeToolCall cfg now tc mem w) as [[r mem1] w1].
  specialize (IH mem1 w1).
  destruct (executeToolCalls cfg now tcs mem1 w1) as [[rs mem2] w2].
  simpl in *. by etrans.
Qed.

(** What the loop of [run] does from any of its states. *)
Lemma runLoop_spec (cfg : Config W) prompt now remaining fc raw st w calls :
  let r := runLoop cfg prompt now remaining fc raw st w calls in
  ∃ newCalls,
    snd r = calls ++ newCalls
    ∧ (length newCalls ≤ remaining)%nat
    ∧ history st `prefix_of` history (snd (fst (fst r)))
    ∧ memory st `prefix_of` memory (snd (fst (fst r)))
    ∧ injectedMemories (snd (fst (fst r))) = injectedMemories st
    ∧ Forall (λ msgs, ∃ hist, history st `prefix_of` hist
                              ∧ msgs = buildMessagesForAPI prompt hist) newCalls
    ∧ match fst (fst (fst r)) with
      | Thrown =>
          ∃ msgs, last newCalls = Some msgs
                  ∧ (sendChat msgs = ReplyRejected ∨ sendChat msgs = Reply None)
      | Completed c raw' =>
          (c = fc ∧ (newCalls = [] → raw' = raw))
          ∨ (c ≠ []
             ∧ ∃ msgs am tcs,
                 last newCalls = Some msgs
                 ∧ sendChat msgs = Reply (Some am)
                 ∧ raw' = Some (Reply (Some am))
                 ∧ normalizeContent (am_content am) = c
                 ∧ mkMessage assistant c None None None tcs
                     ∈ history (snd (fst (fst r))))
      end.
Proof.
  cbv zeta. revert fc raw st w calls.
  induction remaining as [|remaining IH]; intros fc raw st w calls.
  - simpl. exists []. rewrite app_nil_r. split; [done|]. split; [done|].
    split; [done|]. split; [done|]. split; [done|]. split; [constructor|]. by left.
  - cbn [runLoop]. cbv zeta.
    set (messages := buildMessagesForAPI prompt (history st)).
    assert (∃ hist, history st `prefix_of` hist
                    ∧ messages = buildMessagesForAPI prompt hist) as Hfirst.
    { by exists (history st). }
    destruct (sendChat messages) as [|[am|]] eqn:Hsend.
    + cbn [fst snd]. exists [messages]. split; [done|]. split; [simpl; lia|].
      split; [done|]. split; [done|]. split; [done|].
      split; [by constructor|]. exists messages. split; [done|]. by left.
    + unfold normalizeAssistantMessage.
      destruct (toRequest <$> rawToolCallsOf am) as [|tc tcs] eqn:Hcalls.
      * destruct (normalizeContent (am_content am)) as [|c0 c'] eqn:Htext.
        -- cbn [fst snd]. exists [messages]. split; [done|]. split; [simpl; lia|].
           split; [done|]. split; [done|]. split; [done|].
           split; [by constructor|]. left. split; [done|]. done.
        -- cbn [fst snd history memory injectedMemories].
           exists [messages]. split; [done|]. split; [simpl; lia|].
           split; [by apply prefix_app_r|]. split; [done|]. split; [done|].
           split; [by constructor|]. right. split; [done|].
           exists messages, am, None. split; [done|]. split; [done|].
           split; [done|]. split; [done|].
           apply elem_of_app. right. apply list_elem_of_here.
      * pose proof (executeToolCalls_prefix cfg now (tc :: tcs) (memory st) w) as Hmem.
        destruct (executeToolCalls cfg now (tc :: tcs) (memory st) w)
          as [[results mem1] w1].
        cbn [fst snd] in Hmem.
        set (h1 := history st
                   ++ [mkMessage assistant (normalizeContent (am_content am))
                         None None None (Some (rawToolCallsOf am))]).
        set (st' := mkState (h1 ++ (toolMessage <$> results))
                      (recordEntries now results mem1) (injectedMemories st)).
        assert (history st `prefix_of` history st') as Hh.
        { simpl. unfold h1. rewrite <- app_assoc. by apply prefix_app_r. }
        assert (memory st `prefix_of` memory st') as Hm.
        { simpl. etrans; [done|]. apply recordEntries_prefix. }
        destruct (normalizeContent (am_content am)) as [|c0 c'] eqn:Htext.
        -- destruct (IH fc (Some (Reply (Some am))) st' w1 (calls ++ [messages]))
             as (newCalls & Hc & Hlen & Hh' & Hm' & Hinj & Hall & Hout).
           exists (messages :: newCalls).
           split; [by rewrite Hc, <- app_assoc|]. split; [simpl; lia|].
           split; [by etrans|]. split; [by etrans|]. split; [by rewrite Hinj|].
           split.
           { constructor; [done|]. eapply Forall_impl; [done|].
             intros msgs (hist & Hpre & ->). exists hist. split; [by etrans|done]. }
           destruct (runLoop cfg prompt now remaining fc _ st' w1 _)
             as [[[outcome st2] w2] calls2].
           cbn [fst snd] in Hout |- *. rewrite last_cons.
           destruct outcome as [c raw'|].
           ++ destruct Hout as [[-> Hraw]|(Hne & msgs & am' & tcs' & Hlast & Hrest)].
              ** left. split; [done|]. done.
              ** right. split; [done|]. exists msgs, am', tcs'. by rewrite Hlast.
           ++ destruct Hout as (msgs & Hlast & Hrej). exists msgs. by rewrite Hlast.
        -- cbn [fst snd]. exists [messages]. split; [done|]. split; [simpl; lia|].
           split; [done|]. split; [done|]. split; [done|].
           split; [by constructor|]. right. split; [done|].
           exists messages, am, (Some (rawToolCallsOf am)).
           split; [done|]. split; [done|]. split; [done|]. split; [done|].
           simpl. unfold h1. apply elem_of_app. left.
           apply elem_of_app. right. apply list_elem_of_here.
    + cbn [fst snd]. exists [messages]. split; [done|]. split; [simpl; lia|].
      split; [done|]. split; [done|]. split; [done|].
      split; [by constructor|]. exists messages. split; [done|]. by right.
Qed.


(** X27. When [run] throws, its last request was rejected or came back
    without an assistant message. When it returns a content that is not
    empty, that is the content of the answer to its last request, returned
    as [raw], and the history holds an assistant message with it. With a
    bound of recursions that is not positive it asks nothing and returns
    the empty content, leaving the user message in the history. *)
Theorem run_outcome (cfg : Config W) userInput options now st w :
  let r := run cfg userInput options now st w in
  match fst (fst (fst r)) with
  | Thrown =>
      ∃ msgs, last (snd r) = Some msgs
              ∧ (sendChat msgs = ReplyRejected ∨ sendChat msgs = Reply None)
  | Completed c raw =>
      (c = [] ∧ (snd r = [] → raw = None))
      ∨ (c ≠ []
         ∧ ∃ msgs am tcs,
             last (snd r) = Some msgs
             ∧ sendChat msgs = Reply (Some am)
             ∧ raw = Some (Reply (Some am))
             ∧ normalizeContent (am_content am) = c
             ∧ mkMessage assistant c None None None tcs
                 ∈ history (snd (fst (fst r))))
  end
  ∧ (default (maxRecursions cfg) (o_maxRecursions options) ≤ 0 →
     fst (fst (fst r)) = Completed [] None
     ∧ snd r = []
     ∧ history (snd (fst (fst r))) = startHistory cfg userInput st
     ∧ memory (snd (fst (fst r))) = memory st).
Proof.
  cbv zeta. unfold run. cbv zeta.
  destruct (injectMemories cfg userInput st w) as [injected w1].
  split.
  - destruct (runLoop_spec cfg (buildSystemPrompt cfg injected) now
                (Z.to_nat (default (maxRecursions cfg) (o_maxRecursions options)))
                [] None
                (mkState (trimHistory (maxContextMessages cfg) (history st)
                          ++ [mkMessage user userInput None None None None])
                   (memory st) injected) w1 [])
      as (newCalls & Hc & _ & _ & _ & _ & _ & Hout).
    cbv zeta in *. simpl in Hc. rewrite Hc.
    destruct (runLoop _ _ _ _ _ _ _ _ _) as [[[outcome st2] w2] calls2].
    cbn [fst snd] in *. by destruct outcome.
  - intros Hmax.
    replace (Z.to_nat (default (maxRecursions cfg) (o_maxRecursions options)))
      with 0%nat by lia.
    done.
Qed.

Lemma normalizeOutput_success (o : JsValue) :
  ∃ fields, normalizeOutput o = JsObj fields ∧ is_Some (fields !! "success"%string).
Proof.
  destruct o; simpl; eexists; (split; [done|]);
    try (rewrite lookup_insert_eq; by eexists);
    apply lookup_union_is_Some; right; rewrite lookup_singleton_eq; by eexists.
Qed.

Lemma failureResult_shape name error callId :
  (∃ fields, tr_output (failureResult name error callId) = JsObj fields
             ∧ fields !! "success"%string = Some (JsBool false))
  ∧ tr_toolCallId (failureResult name error callId) = Some callId
  ∧ tr_name (failureResult name error callId) = Some name.
Proof.
  simpl. split; [|done]. eexists. split; [done|]. by rewrite lookup_insert_eq.
Qed.

(** X28. [executeToolCalls] gives one result for each call, in order. Every
    result has a name, a call identifier (that of the call when the call has
    one and the tool gives none) and an object with a [success] field as
    output. A call of a tool that is not registered gets the failure result
    [Tool "name" not registered] with [success] false, and changes neither
    the memory of the agent nor what the tools act on; the memory of the
    agent is only appended to. *)
Theorem tool_results_shape (cfg : Config W) now tcs mem w :
  let r := executeToolCalls cfg now tcs mem w in
  Forall2 (λ tc res,
             (∃ fields, tr_output res = JsObj fields
                        ∧ is_Some (fields !! "success"%string))
             ∧ is_Some (tr_toolCallId res) ∧ is_Some (tr_name res)
             ∧ (toolRegistry cfg !! rq_name tc = None →
                res = failureResult (rq_name tc) (notRegistered (rq_name tc))
                        (default (generateToolCallId (rq_name tc)) (rq_id tc))
                ∧ ∃ fields, tr_output res = JsObj fields
                            ∧ fields !! "success"%string = Some (JsBool false)))
    tcs (fst (fst r))
  ∧ mem `prefix_of` snd (fst r)
  ∧ (Forall (λ tc, toolRegistry cfg !! rq_name tc = None) tcs →
     snd (fst r) = mem ∧ snd r = w).
Proof.
  cbv zeta. split; [|split; [apply executeToolCalls_prefix|]].
  - revert mem w. induction tcs as [|tc tcs IH]; intros mem w; simpl; [constructor|].
    assert ((∃ fields, tr_output (executeToolCall cfg now tc mem w).1.1 = JsObj fields
                       ∧ is_Some (fields !! "success"%string))
            ∧ is_Some (tr_toolCallId (executeToolCall cfg now tc mem w).1.1)
            ∧ is_Some (tr_name (executeToolCall cfg now tc mem w).1.1)
            ∧ (toolRegistry cfg !! rq_name tc = None →
               (executeToolCall cfg now tc mem w).1.1
               = failureResult (rq_name tc) (notRegistered (rq_name tc))
                   (default (generateToolCallId (rq_name tc)) (rq_id tc))
               ∧ ∃ fields,
                   tr_output (executeToolCall cfg now tc mem w).1.1 = JsObj fields
                   ∧ fields !! "success"%string = Some (JsBool false))) as Hone.
    { unfold executeToolCall.
      destruct (toolRegistry cfg !! rq_name tc) as [t|] eqn:Ht.
      - destruct (execute t _ mem w) as [[outcome added] w'].
        destruct outcome as [r0|message]; cbn [fst snd].
        + split; [apply normalizeOutput_success|]. by repeat split.
        + destruct (failureResult_shape (rq_name tc)
                      (default (Js.ofString "Unknown tool error") message)
                      (default (generateToolCallId (rq_name tc)) (rq_id tc)))
            as ((fields & Hf & Hs) & Hid & Hn).
          split; [exists fields; by rewrite Hs|]. by rewrite Hid, Hn.
      - cbn [fst snd].
        destruct (failureResult_shape (rq_name tc) (notRegistered (rq_name tc))
                    (default (generateToolCallId (rq_name tc)) (rq_id tc)))
          as ((fields & Hf & Hs) & Hid & Hn).
        split; [exists fields; by rewrite Hs|]. rewrite Hid, Hn.
        split; [done|]. split; [done|]. intros _. split; [done|]. by exists fields. }
    destruct (executeToolCall cfg now tc mem w) as [[r mem1] w1].
    specialize (IH mem1 w1).
    destruct (executeToolCalls cfg now tcs mem1 w1) as [[rs mem2] w2].
    cbn [fst snd] in *. by constructor.
  - revert mem w. induction tcs as [|tc tcs IH]; intros mem w Hnone; simpl; [done|].
    apply Forall_cons in Hnone as [Hnone Hrest].
    unfold executeToolCall. rewrite Hnone.
    specialize (IH mem w Hrest).
    destruct (executeToolCalls cfg now tcs mem w) as [[rs mem2] w2]. done.
Qed.

(** X29. [registerTool] keeps the first tool registered under a name: it
    never changes an entry of the registry, it files the tool under its
    name when the name is free, and registering a tool again, or another
    one of the same name, changes nothing. *)
Theorem registerTool_first_wins (t : Tool W) (registry : gmap string (Tool W)) :
  (∀ name t0, registry !! name = Some t0 → registerTool t registry !! name = Some t0)
  ∧ (registry !! t_name t = None → registerTool t registry !! t_name t = Some t)
  ∧ (∀ name, name ≠ t_name t → registerTool t registry !! name = registry !! name)
  ∧ (∀ t', t_name t' = t_name t →
       registerTool t' (registerTool t registry) = registerTool t registry).
Proof.
  unfold registerTool. split; [|split; [|split]].
  - intros name t0 Hname. destruct (registry !! t_name t) eqn:Ht; [done|].
    rewrite lookup_insert_ne; [done|]. intros <-. by rewrite Ht in Hname.
  - intros ->. apply lookup_insert_eq.
  - intros name Hne. destruct (registry !! t_name t); [done|].
    by rewrite lookup_insert_ne.
  - intros t' ->. destruct (registry !! t_name t) eqn:Ht.
    + by rewrite Ht.
    + by rewrite lookup_insert_eq.
Qed.

End AgentExtras.

Section ToolCases.
Import MemoryStore StoreSpec MemoryTools MoreTools AgentMore.

Lemma store_memory_guarded_witness :
  name (fst (fst (storeMemoryTool (H := Reference.host) Desk.storeFact "m9" 7
                    (fresh Shelf.db3))))
  = "store_memory"%string.
Proof.
  exact (proj1 (store_memory_guarded (H := Reference.host) Desk.storeFact "m9" 7
                  (fresh Shelf.db3))).
Defined.

Lemma recall_by_category_effect_witness :
  0 ≤ default 5 (@None Z)
  ∧ ∃ memories : list StoredMemory,
      NoDup (id <$> memories)
      ∧ snd (recallMemoryTool (H := Reference.host)
               (mkRecallArgs (Some Example.cat) None (Some "fact"%string)) 0
               (fresh Shelf.db3))
        = CallGetByCategory "fact" 50 :: (CallRecordAccess <$> (id <$> memories)).
Proof.
  assert (0 ≤ default 5 (@None Z)) as Hlimit by (simpl; lia).
  split; [exact Hlimit|].
  destruct (recall_by_category_effect (H := Reference.host) 99%N [97; 116]%N None
              "f"%char "act" 0 (fresh Shelf.db3) Reachable_shelf Hlimit)
    as (memories & _ & _ & Hnd & _ & _ & _ & Hcalls).
  exists memories. split; [exact Hnd|exact Hcalls].
Defined.

Lemma forget_memory_effect_witness :
  toolName (fst (forgetMemoryTool (H := Reference.host) Desk.forgetFirst "m9" 7
                   (fresh Shelf.db3)))
  = "forget_memory"%string.
Proof.
  exact (proj1 (forget_memory_effect (H := Reference.host) Desk.forgetFirst "m9" 7
                  (fresh Shelf.db3) Reachable_shelf)).
Defined.

Lemma update_memory_effect_witness :
  toolName (fst (updateMemoryTool (H := Reference.host) Desk.raiseFirst
                   (fresh Shelf.db3)))
  = "update_memory"%string.
Proof.
  exact (proj1 (update_memory_effect (H := Reference.host) Desk.raiseFirst
                  (fresh Shelf.db3) Reachable_shelf)).
Defined.

Lemma list_memories_counts_witness :
  ∃ memories : list StoredMemory,
    listMemoriesTool Desk.listAll (fresh Shelf.db3)
    = mkReport "list_memories"
        (Listed (preview <$> memories) (length memories) (getCount (fresh Shelf.db3)))
    ∧ (length memories ≤ getCount (fresh Shelf.db3))%nat.
Proof.
  destruct (list_memories_counts (H := Reference.host) Desk.listAll (fresh Shelf.db3)
              Reachable_shelf) as (memories & Hreport & Hcount & _).
  exists memories. split; [exact Hreport|exact Hcount].
Defined.

Lemma greeting_memories_chosen_witness :
  (length (getGreetingMemories (fresh Shelf.db3)) ≤ 5)%nat
  ∧ NoDup (id <$> getGreetingMemories (fresh Shelf.db3)).
Proof.
  destruct (greeting_memories_chosen (H := Reference.host) (fresh Shelf.db3)
              Reachable_shelf) as (Hlen & _ & Hnd & _).
  split; [exact Hlen|exact Hnd].
Defined.

Lemma relevant_memories_chosen_witness :
  0 ≤ 5
  ∧ (length (fst (getRelevantMemories (H := Reference.host) Example.cat 5 true
                    [Shelf.dog] (λ n, n) 0 (fresh Shelf.db3)))
     ≤ Z.to_nat 5)%nat.
Proof.
  assert (0 ≤ 5) as Hlimit by lia. split; [exact Hlimit|].
  exact (proj1 (relevant_memories_chosen (H := Reference.host)
                  (HostLaws0 := Reference_laws) Example.cat 5 true [Shelf.dog]
                  (λ n, n) 0 (fresh Shelf.db3) Reachable_shelf Hlimit)).
Defined.

Lemma memory_stats_consistent_witness :
  fst (getMemoryStats (fresh Shelf.db3))
  = getCount (fresh Shelf.db3)
  ∧ fst <$> snd (getMemoryStats (fresh Shelf.db3))
    = validCategories.
Proof.
  destruct (memory_stats_consistent (H := Reference.host) (fresh Shelf.db3)
              Reachable_shelf) as (Hcount & Hcats & _).
  split; [exact Hcount|exact Hcats].
Defined.

End ToolCases.

Section AgentCases.
Import Agent AgentSpec AgentMore.


Lemma trimHistory_trims_witness :
  0 ≤ 1
  ∧ trimHistory 1 TrimExample.history `sublist_of` TrimExample.history
  ∧ turnsOf (trimHistory 1 TrimExample.history) = Z.min 1 (turnsOf TrimExample.history).
Proof.
  assert (0 ≤ 1) as Hbound by lia. split; [exact Hbound|].
  destruct (trimHistory_trims 1 TrimExample.history Hbound) as (Hsub & Hturns & _).
  split; [exact Hsub|exact Hturns].
Defined.


Lemma run_outcome_witness :
  default (maxRecursions RunExample.cfg) (Some 0) ≤ 0
  ∧ fst (fst (fst (run (AH := RunExample.agentHost) (H := Reference.host)
                     RunExample.cfg Example.cat (mkRunOptions (Some 0) None) 0
                     RunExample.start ())))
    = Completed [] None.
Proof.
  assert (default (maxRecursions RunExample.cfg) (Some 0) ≤ 0) as Hbound
    by (simpl; lia).
  split; [exact Hbound|].
  exact (proj1 (proj2 (run_outcome (AH := RunExample.agentHost) (H := Reference.host)
                         RunExample.cfg Example.cat (mkRunOptions (Some 0) None) 0
                         RunExample.start ()) Hbound)).
Defined.

Lemma tool_results_shape_witness :
  Forall (λ tc, toolRegistry RunExample.cfg !! rq_name tc = None) [Desk.unknownCall]
  ∧ snd (fst (executeToolCalls (AH := RunExample.agentHost) RunExample.cfg 0
                [Desk.unknownCall] [] ()))
    = [].
Proof.
  assert (Forall (λ tc, toolRegistry RunExample.cfg !! rq_name tc = None)
            [Desk.unknownCall]) as Hnone.
  { constructor; [|constructor]. vm_compute. reflexivity. }
  split; [exact Hnone|].
  exact (proj1 (proj2 (proj2 (tool_results_shape (AH := RunExample.agentHost)
                                RunExample.cfg 0 [Desk.unknownCall] [] ()))
                  Hnone)).
Defined.

Lemma registerTool_first_wins_witness :
  (∅ : gmap string (Tool ())) !! t_name RunExample.listTool = None
  ∧ registerTool RunExample.listTool ∅ !! t_name RunExample.listTool
    = Some RunExample.listTool.
Proof.
  assert ((∅ : gmap string (Tool ())) !! t_name RunExample.listTool = None) as Hfree
    by apply lookup_empty.
  split; [exact Hfree|].
  exact (proj1 (proj2 (registerTool_first_wins RunExample.listTool ∅)) Hfree).
Defined.

End AgentCases.

(** ** Deleting a record *)

Section DeleteExtras.
Import MemoryStore StoreSpec.
Context `{H : Host}.

Lemma db_delete i st : db (delete_ i st) = delete i (db st).
Proof. unfold delete_. by rewrite db_removeFromSearchIndex. Qed.

(** X30. From a reachable store, [delete] removes the record from the
    database and leaves every other record as it was: [getById] no longer
    finds it, no [search] returns it, the count of valid records drops by
    one when the record was valid and stays otherwise, and a second
    [delete] changes nothing. When the search index exists, the record is
    removed from the index and from the cache; when it does not exist yet,
    index and cache are left as they are, so a copy that an earlier
    [update] put in the cache stays there until the index is built. *)
Theorem delete_effect `{!HostLaws H} i st :
  Reachable st →
  getById i (delete_ i st) = None
  ∧ (∀ k, k ≠ i → getById k (delete_ i st) = getById k st)
  ∧ (∀ idx, searchIndex st = Some idx →
       searchIndex (delete_ i st) = Some (delete i idx)
       ∧ indexedMemories (delete_ i st) = delete i (indexedMemories st))
  ∧ (searchIndex st = None →
       searchIndex (delete_ i st) = None
       ∧ indexedMemories (delete_ i st) = indexedMemories st)
  ∧ (∀ idx, searchIndex (delete_ i st) = Some idx →
       idx !! i = None ∧ indexedMemories (delete_ i st) !! i = None)
  ∧ match db st !! i with
    | Some m =>
        getCount st
        = if decide (isValid m = 1) then S (getCount (delete_ i st))
          else getCount (delete_ i st)
    | None => getCount (delete_ i st) = getCount st
    end
  ∧ (∀ query limit now, i ∉ resultIds (search query limit now (delete_ i st)).1)
  ∧ delete_ i (delete_ i st) = delete_ i st.
Proof.
  intros Hreach.
  assert (Reachable (delete_ i st)) as Hreach'.
  { eapply ReachStep; [done|constructor]. }
  split; [|split; [|split; [|split; [|split; [|split; [|split]]]]]].
  - unfold getById. rewrite db_delete. apply lookup_delete_eq.
  - intros k Hne. unfold getById. rewrite db_delete. by apply lookup_delete_ne.
  - intros idx Hidx. unfold delete_, removeFromSearchIndex. simpl. by rewrite Hidx.
  - intros Hidx. unfold delete_, removeFromSearchIndex. simpl. by rewrite Hidx.
  - intros idx. unfold delete_, removeFromSearchIndex. simpl.
    destruct (searchIndex st) as [idx0|] eqn:Hidx; simpl; [|done].
    intros [= <-]. split; apply lookup_delete_eq.
  - unfold getCount, validEntries. rewrite db_delete, map_filter_delete.
    destruct (db st !! i) as [m|] eqn:Hm.
    + destruct (decide (isValid m = 1)) as [Hv|Hv].
      * assert (filter (λ kv, valid kv.2) (db st) !! i = Some m) as Hfi
          by by apply map_lookup_filter_Some.
        rewrite map_size_delete_Some by eauto.
        pose proof (map_size_ne_0_lookup_2 _ i (mk_is_Some _ _ Hfi)). lia.
      * rewrite delete_id; [done|]. apply map_lookup_filter_None. right.
        intros m' Hm'. rewrite Hm in Hm'. by injection Hm' as <-.
    + rewrite delete_id; [done|]. apply map_lookup_filter_None. by left.
  - intros query limit now Hin. unfold resultIds in Hin.
    apply list_elem_of_fmap in Hin as (r & Hid & Hr).
    destruct (search_memory_stored query limit now (delete_ i st) r Hreach' Hr)
      as [Hdb _].
    rewrite db_delete, <- Hid, lookup_delete_eq in Hdb. done.
  - unfold delete_ at 1 3. unfold delete_, removeFromSearchIndex. simpl.
    destruct (searchIndex st) as [idx0|] eqn:Hidx; simpl; rewrite ?Hidx; simpl.
    + by rewrite !delete_delete_eq.
    + by rewrite delete_delete_eq.
Qed.

End DeleteExtras.

Section DeleteCase.
Import MemoryStore StoreSpec.

Lemma delete_effect_witness :
  let st := (search (H := Reference.host) Example.cat 10 0 (fresh Shelf.db3)).2 in
  let early := (update (H := Reference.host) "m2" (Example.onlyImportance 9)
                  (fresh Shelf.db3)).2 in
  (Reachable (H := Reference.host) st
   ∧ getById "m1" (delete_ "m1" st) = None
   ∧ indexedMemories st !! "m1"%string = Some Example.m1
   ∧ indexedMemories (delete_ "m1" st) !! "m1"%string = None
   ∧ delete_ "m1" (delete_ "m1" st) = delete_ "m1" st)
  ∧ (Reachable (H := Reference.host) early
     ∧ searchIndex early = None
     ∧ is_Some (indexedMemories early !! "m2"%string)
     ∧ getById "m2" (delete_ "m2" early) = None
     ∧ indexedMemories (delete_ "m2" early) = indexedMemories early).
Proof.
  cbv zeta.
  set (st := (search (H := Reference.host) Example.cat 10 0 (fresh Shelf.db3)).2).
  set (early := (update (H := Reference.host) "m2" (Example.onlyImportance 9)
                   (fresh Shelf.db3)).2).
  assert (Reachable (H := Reference.host) st) as Hreach.
  { eapply ReachStep; [exact Reachable_shelf|apply StepSearch]. }
  assert (Reachable (H := Reference.host) early) as Hearly.
  { eapply ReachStep; [exact Reachable_shelf|apply StepUpdate]. }
  assert (∃ idx, searchIndex st = Some idx) as [idx Hidx]
    by (eexists; vm_compute; reflexivity).
  assert (indexedMemories st !! "m1"%string = Some Example.m1) as Hcache
    by (vm_compute; reflexivity).
  assert (searchIndex early = None) as Hnone by reflexivity.
  split.
  - destruct (delete_effect (H := Reference.host) (HostLaws0 := Reference_laws) "m1"
                st Hreach) as (Hgone & _ & Hbuilt & _ & _ & _ & _ & Hidem).
    destruct (Hbuilt idx Hidx) as [_ Hcleared].
    split; [exact Hreach|]. split; [exact Hgone|]. split; [exact Hcache|].
    split; [|exact Hidem]. rewrite Hcleared. apply lookup_delete_eq.
  - destruct (delete_effect (H := Reference.host) (HostLaws0 := Reference_laws) "m2"
                early Hearly) as (Hgone & _ & _ & Hunbuilt & _).
    destruct (Hunbuilt Hnone) as [_ Hkept].
    split; [exact Hearly|]. split; [exact Hnone|].
    split; [vm_compute; eexists; reflexivity|].
    split; [exact Hgone|exact Hkept].
Defined.

End DeleteCase.
